(** * Synchronisation mechanisms: bounded buffer, dining philosophers,
      thread-safe queue

    A shallow embedding of the C programs [producer_consumer.c],
    [dining_philosophers.c] and [tsqueue.c], of [dining_philosophers.go],
    of the queue of [tsqueue.go] and of [main] of [producer_consumer.go],
    with the properties of their specification.

    Every thread is a small state machine over the statements of its
    function; a system state holds the shared variables and one record per
    thread; [step s t] runs the next statement of thread [t] and returns
    [None] when that thread cannot run (it is blocked in [sem_wait],
    [pthread_mutex_lock] or [pthread_cond_wait], it has returned, or the
    statement has no defined behaviour). A run is any interleaving of such
    steps. The delays ([usleep], [time.Sleep]) and the printing take no
    part.

    Part I holds the model, Part II the properties. *)

From Stdlib Require Import ZArith Lia.
From stdpp Require Import base option list gmap.

Local Open Scope Z_scope.

(** * Part I: the programs *)

(** ** C [int] arithmetic *)

Module CInt.

Definition INT_MAX : Z := 2147483647.
Definition INT_MIN : Z := -2147483648.

(** Two's complement wrap-around of a 32-bit [int]. *)
Definition wrap (z : Z) : Z := (z + 2147483648) mod 4294967296 - 2147483648.

Definition add (a b : Z) : Z := wrap (a + b).

(** C's [%] truncates towards zero. *)
Definition rem (a b : Z) : Z := Z.rem a b.

Definition in_range (z : Z) : Prop := INT_MIN <= z <= INT_MAX.

End CInt.

(** ** How a call ends

    It returns, the process exits ([exit(EXIT_FAILURE)], [os.Exit(1)], a Go
    panic), the caller stays blocked in [pthread_cond_wait], or the call
    has no defined behaviour. *)
Inductive result (A : Type) :=
| Ok (a : A)
| Exits
| Waits
| Undefined.

Arguments Ok {A} a.
Arguments Exits {A}.
Arguments Waits {A}.
Arguments Undefined {A}.

Definition bind {A B} (r : result A) (k : A -> result B) : result B :=
  match r with
  | Ok a => k a
  | Exits => Exits
  | Waits => Waits
  | Undefined => Undefined
  end.

Notation "'let*' x := r 'in' k" := (bind r (fun x => k))
  (at level 10, x pattern, r at level 100, k at level 200).

(** ** Interleaving semantics of a pool of threads *)

Section Interleaving.

Context {State Event : Type}.
Variable step : State -> nat -> option (Event * State).

(** [exec s0 tr s]: some interleaving leads from [s0] to [s], and [tr]
    lists, oldest first, which thread ran and what it did. *)
Inductive exec (s0 : State) : list (nat * Event) -> State -> Prop :=
| exec_init : exec s0 [] s0
| exec_step tr s t e s' :
    exec s0 tr s -> step s t = Some (e, s') -> exec s0 (tr ++ [(t, e)]) s'.

(** The same, executable, for a given schedule. *)
Fixpoint run (sched : list nat) (s : State) : option (list (nat * Event) * State) :=
  match sched with
  | [] => Some ([], s)
  | t :: sched' =>
      match step s t with
      | None => None
      | Some (e, s') =>
          match run sched' s' with
          | None => None
          | Some (tr, s'') => Some ((t, e) :: tr, s'')
          end
      end
  end.

(** What thread [t] did, in order. *)
Definition proj (t : nat) (tr : list (nat * Event)) : list Event :=
  omap (fun te => if decide (te.1 = t) then Some te.2 else None) tr.

(** No thread can run. *)
Definition stuck (s : State) : Prop := forall t, step s t = None.

End Interleaving.

(** Sums over the thread table. *)
Definition Zsum {A} (f : A -> Z) (l : list A) : Z := foldr (fun a acc => f a + acc) 0 l.

(** A [pthread_mutex_t] of an array, by its index: [None] when the index is
    outside the array. *)
Definition nth_mutex (ms : list bool) (k : Z) : option bool :=
  if k <? 0 then None else ms !! Z.to_nat k.

(** [pthread_mutex_lock(&ms[k])]: [None] while the mutex is held. *)
Definition mutex_lock (k : Z) (ms : list bool) : option (list bool) :=
  match nth_mutex ms k with
  | Some false => Some (<[Z.to_nat k := true]> ms)
  | _ => None
  end.

(** [pthread_mutex_unlock(&ms[k])]: defined on a held mutex only. *)
Definition mutex_unlock (k : Z) (ms : list bool) : option (list bool) :=
  match nth_mutex ms k with
  | Some true => Some (<[Z.to_nat k := false]> ms)
  | _ => None
  end.

(** ** ResourceRing: [dining_philosophers.c] and [dining_philosophers.go] *)

Module Ring.

(** The two programs are the same but for the waiter: a semaphore in C, a
    channel with a buffer in Go. The [int] of Go is at least as wide as
    that of C; the additions below wrap as in C, and within the bounds of
    the theorems of Part II no addition wraps in either language. *)
Inductive language := Posix | Golang.

(** The statement a philosopher thread is about to run. *)
Inductive pc :=
| Think        (* loop test [i < cycles_per_philosopher], then [think(id)] *)
| AskWaiter    (* [sem_wait(&waiter)]; in Go [p.waiterCh <- struct{}{}] *)
| TakeFirst    (* first [pthread_mutex_lock] of the [if] *)
| TakeSecond   (* second [pthread_mutex_lock] of the [if] *)
| Eating       (* [eat(id, i)] *)
| PutLeft      (* [pthread_mutex_unlock(&forks[left])] *)
| PutRight     (* [pthread_mutex_unlock(&forks[right])] *)
| LeaveWaiter  (* [sem_post(&waiter)]; in Go [<-p.waiterCh]; then [i++] *)
| Finished.    (* after the loop: the thread returns *)

Record philosopher := Philosopher { at_ : pc; i : Z }.

(** [forks]: one mutex per fork, [true] when locked; [waiter]: in C the
    value of the semaphore [waiter], in Go the number of elements in the
    channel [waiterCh]; [phils]: the threads, thread [t] has [id = t]. *)
Record ring := Ring { forks : list bool; waiter : Z; phils : list philosopher }.

Inductive event :=
| EvThink
| EvSemWait
| EvLock (f : Z)
| EvEat
| EvUnlock (f : Z)
| EvSemPost
| EvReturn.

Section Code.

Variable lang : language.
Variables num_philosophers cycles_per_philosopher : Z.

Definition left (id : Z) : Z := id.
Definition right (id : Z) : Z := CInt.rem (CInt.add id 1) num_philosophers.

(** The [if (left < right)] of [philosopher]. *)
Definition first_fork (id : Z) : Z := if left id <? right id then left id else right id.
Definition second_fork (id : Z) : Z := if left id <? right id then right id else left id.

(** Taking a place at the table: [sem_wait] passes a positive semaphore and
    decrements it; the send of Go passes when the channel, of capacity
    [numPhilosophers - 1], is not full, and adds an element. *)
Definition acquire (w : Z) : option Z :=
  match lang with
  | Posix => if 0 <? w then Some (w - 1) else None
  | Golang => if w <? num_philosophers - 1 then Some (w + 1) else None
  end.

(** Giving the place back: [sem_post] increments the semaphore; the receive
    of Go passes when the channel holds an element, and takes it. *)
Definition release (w : Z) : option Z :=
  match lang with
  | Posix => Some (w + 1)
  | Golang => if 0 <? w then Some (w - 1) else None
  end.

(** The places left at the table. *)
Definition free_places (w : Z) : Z :=
  match lang with
  | Posix => w
  | Golang => num_philosophers - 1 - w
  end.

Definition goto (s : ring) (t : nat) (p : philosopher) : list philosopher :=
  <[t := p]> (phils s).

Definition step (s : ring) (t : nat) : option (event * ring) :=
  p ← phils s !! t;
  let id := Z.of_nat t in
  match at_ p with
  | Think =>
      if i p <? cycles_per_philosopher
      then Some (EvThink, Ring (forks s) (waiter s) (goto s t (Philosopher AskWaiter (i p))))
      else Some (EvReturn, Ring (forks s) (waiter s) (goto s t (Philosopher Finished (i p))))
  | AskWaiter =>
      w ← acquire (waiter s);
      Some (EvSemWait, Ring (forks s) w (goto s t (Philosopher TakeFirst (i p))))
  | TakeFirst =>
      fs ← mutex_lock (first_fork id) (forks s);
      Some (EvLock (first_fork id), Ring fs (waiter s) (goto s t (Philosopher TakeSecond (i p))))
  | TakeSecond =>
      fs ← mutex_lock (second_fork id) (forks s);
      Some (EvLock (second_fork id), Ring fs (waiter s) (goto s t (Philosopher Eating (i p))))
  | Eating =>
      Some (EvEat, Ring (forks s) (waiter s) (goto s t (Philosopher PutLeft (i p))))
  | PutLeft =>
      fs ← mutex_unlock (left id) (forks s);
      Some (EvUnlock (left id), Ring fs (waiter s) (goto s t (Philosopher PutRight (i p))))
  | PutRight =>
      fs ← mutex_unlock (right id) (forks s);
      Some (EvUnlock (right id), Ring fs (waiter s) (goto s t (Philosopher LeaveWaiter (i p))))
  | LeaveWaiter =>
      w ← release (waiter s);
      Some (EvSemPost, Ring (forks s) w (goto s t (Philosopher Think (CInt.add (i p) 1))))
  | Finished => None
  end.

(** The state [main] leaves when it has created the threads: every mutex
    initialised, [sem_init(&waiter, 0, num_philosophers - 1)] (in Go
    [make(chan struct{}, numPhilosophers-1)], an empty channel), every
    thread at the top of its loop with [i = 0]. *)
Definition init : ring :=
  Ring (replicate (Z.to_nat num_philosophers) false)
       (match lang with Posix => num_philosophers - 1 | Golang => 0 end)
       (replicate (Z.to_nat num_philosophers) (Philosopher Think 0)).

(** What one full turn of the loop does, in order. *)
Definition cycle_events (id : Z) : list event :=
  [EvThink; EvSemWait; EvLock (first_fork id); EvLock (second_fork id); EvEat;
   EvUnlock (left id); EvUnlock (right id); EvSemPost].

(** How many statements of the current turn a thread at [p] has behind it. *)
Definition done_in_cycle (p : pc) : nat :=
  match p with
  | Think => 0 | AskWaiter => 1 | TakeFirst => 2 | TakeSecond => 3 | Eating => 4
  | PutLeft => 5 | PutRight => 6 | LeaveWaiter => 7 | Finished => 0
  end%nat.

(** Everything a thread in state [p] has done so far. *)
Definition history (id : Z) (p : philosopher) : list event :=
  mjoin (replicate (Z.to_nat (i p)) (cycle_events id))
  ++ take (done_in_cycle (at_ p)) (cycle_events id)
  ++ (match at_ p with Finished => [EvReturn] | _ => [] end).

(** The thread holds a ticket of the waiter. *)
Definition admitted (p : philosopher) : bool :=
  match at_ p with
  | TakeFirst | TakeSecond | Eating | PutLeft | PutRight | LeaveWaiter => true
  | _ => false
  end.

Definition admitted_count (s : ring) : Z :=
  Zsum (fun p => if admitted p then 1 else 0) (phils s).

(** Thread [id] at [p] holds fork [f]. *)
Definition holds (id : Z) (p : pc) (f : Z) : Prop :=
  match p with
  | TakeSecond => f = first_fork id
  | Eating | PutLeft => f = left id \/ f = right id
  | PutRight => f = right id
  | _ => False
  end.

Definition all_finished (s : ring) : Prop :=
  forall t p, phils s !! t = Some p -> at_ p = Finished.

(** Statements thread [p] still has to run. *)
Definition remaining (p : philosopher) : Z :=
  match at_ p with
  | Finished => 0
  | Think => 8 * Z.max 0 (cycles_per_philosopher - i p) + 1
  | _ => 8 * (cycles_per_philosopher - i p) + 1 - Z.of_nat (done_in_cycle (at_ p))
  end.

Definition measure (s : ring) : Z := Zsum remaining (phils s).

End Code.

(** [main] of [dining_philosophers.c] up to the creation of the threads,
    with [atoi] of its two arguments already taken: it exits when [argc] is
    not 3, and otherwise sets the two globals and starts the threads,
    whatever the two numbers are. [forks_allocated] tells whether [malloc]
    returned an array: the program does not test it. The array [phils] has
    [num_philosophers] elements, which C defines for a positive number
    only. *)
Definition main (num_philosophers cycles_per_philosopher argc : Z)
    (forks_allocated : bool) : result (Z * Z * ring) :=
  if argc =? 3 then
    if (0 <? num_philosophers) && forks_allocated
    then Ok (num_philosophers, cycles_per_philosopher, init Posix num_philosophers)
    else Undefined
  else Exits.

(** The forks thread [t] has locked, in order. *)
Definition locked_by (t : nat) (tr : list (nat * event)) : list Z :=
  omap (fun e => match e with EvLock f => Some f | _ => None end) (proj t tr).

(** Tickets of the waiter thread [t] has in hand after [tr]: its
    [sem_wait]s less its [sem_post]s. *)
Definition ticket_delta (e : event) : Z :=
  match e with EvSemWait => 1 | EvSemPost => -1 | _ => 0 end.
Definition tickets (t : nat) (tr : list (nat * event)) : Z :=
  Zsum ticket_delta (proj t tr).

(** Forks thread [t] has in hand after [tr]: its locks less its unlocks. *)
Definition fork_delta (e : event) : Z :=
  match e with EvLock _ => 1 | EvUnlock _ => -1 | _ => 0 end.
Definition forks_in_hand (t : nat) (tr : list (nat * event)) : Z :=
  Zsum fork_delta (proj t tr).

End Ring.

(** ** BoundedChannel: [producer_consumer.c] *)

Module Channel.

(** The statement a thread is about to run: [P...] in [producer], [C...] in
    [consumer]. *)
Inductive pc :=
| PLoop      (* loop test [i < items_to_produce], then [item = produce_item()] *)
| PSemWait   (* [sem_wait(&empty_slots)] *)
| PLock      (* [pthread_mutex_lock(&mutex_buffer)] *)
| PStore     (* [buffer[in] = item] *)
| PAdvance   (* [in = (in + 1) % buffer_size] *)
| PUnlock    (* [pthread_mutex_unlock(&mutex_buffer)] *)
| PSemPost   (* [sem_post(&full_slots)] *)
| PSleep     (* [usleep(100000)], then [i++] *)
| PReturn    (* after the loop *)
| CSemWait   (* [sem_wait(&full_slots)] *)
| CLock      (* [pthread_mutex_lock(&mutex_buffer)] *)
| CLoad      (* [item = buffer[out]] *)
| CAdvance   (* [out = (out + 1) % buffer_size] *)
| CUnlock    (* [pthread_mutex_unlock(&mutex_buffer)] *)
| CSemPost   (* [sem_post(&empty_slots)] *)
| CConsume.  (* [consume_item(item)], and back to the top of [while (1)] *)

(** The locals of a thread: [i] and [item], and [args->items_to_produce]. *)
Record thread := Thread { at_ : pc; i : Z; item : Z; items_to_produce : Z }.

(** The globals of the program and the thread table. [in_] is [in]. *)
Record channel := Chan {
  buffer : list Z;
  in_ : Z;
  out : Z;
  empty_slots : Z;
  full_slots : Z;
  mutex_buffer : bool;
  threads : list thread
}.

Inductive sem := EmptySlots | FullSlots.

Inductive event :=
| EvProduce
| EvSemWait (m : sem)
| EvLock
| EvStore
| EvLoad
| EvAdvanceIn
| EvAdvanceOut
| EvUnlock
| EvSemPost (m : sem)
| EvSleep
| EvConsume
| EvReturn.

(** [buffer[k]]: defined inside the array only. *)
Definition load (b : list Z) (k : Z) : option Z :=
  if k <? 0 then None else b !! Z.to_nat k.

(** [buffer[k] = v]: defined inside the array only. *)
Definition store (b : list Z) (k v : Z) : option (list Z) :=
  match load b k with
  | Some _ => Some (<[Z.to_nat k := v]> b)
  | None => None
  end.

Section Code.

Variable buffer_size : Z.

(** What [rand()] returns to thread [t] in its turn [i]. *)
Variable rand : nat -> Z -> Z.

(** [produce_item]: [rand() % 1000]. *)
Definition produce_item (t : nat) (turn : Z) : Z := CInt.rem (rand t turn) 1000.

(** [(k + 1) % buffer_size]: not defined when [buffer_size] is [0]. *)
Definition advance (k : Z) : option Z :=
  if buffer_size =? 0 then None else Some (CInt.rem (CInt.add k 1) buffer_size).

Definition goto (s : channel) (t : nat) (th : thread) : list thread :=
  <[t := th]> (threads s).

Definition step (s : channel) (t : nat) : option (event * channel) :=
  th ← threads s !! t;
  let move a := goto s t (Thread a (i th) (item th) (items_to_produce th)) in
  match at_ th with
  | PLoop =>
      if i th <? items_to_produce th
      then Some (EvProduce,
                 Chan (buffer s) (in_ s) (out s) (empty_slots s) (full_slots s) (mutex_buffer s)
                      (goto s t (Thread PSemWait (i th) (produce_item t (i th))
                                        (items_to_produce th))))
      else Some (EvReturn,
                 Chan (buffer s) (in_ s) (out s) (empty_slots s) (full_slots s) (mutex_buffer s)
                      (move PReturn))
  | PSemWait =>
      if 0 <? empty_slots s
      then Some (EvSemWait EmptySlots,
                 Chan (buffer s) (in_ s) (out s) (empty_slots s - 1) (full_slots s)
                      (mutex_buffer s) (move PLock))
      else None
  | PLock =>
      if mutex_buffer s then None
      else Some (EvLock,
                 Chan (buffer s) (in_ s) (out s) (empty_slots s) (full_slots s) true
                      (move PStore))
  | PStore =>
      b ← store (buffer s) (in_ s) (item th);
      Some (EvStore,
            Chan b (in_ s) (out s) (empty_slots s) (full_slots s) (mutex_buffer s)
                 (move PAdvance))
  | PAdvance =>
      k ← advance (in_ s);
      Some (EvAdvanceIn,
            Chan (buffer s) k (out s) (empty_slots s) (full_slots s) (mutex_buffer s)
                 (move PUnlock))
  | PUnlock =>
      if mutex_buffer s
      then Some (EvUnlock,
                 Chan (buffer s) (in_ s) (out s) (empty_slots s) (full_slots s) false
                      (move PSemPost))
      else None
  | PSemPost =>
      Some (EvSemPost FullSlots,
            Chan (buffer s) (in_ s) (out s) (empty_slots s) (full_slots s + 1)
                 (mutex_buffer s) (move PSleep))
  | PSleep =>
      Some (EvSleep,
            Chan (buffer s) (in_ s) (out s) (empty_slots s) (full_slots s) (mutex_buffer s)
                 (goto s t (Thread PLoop (CInt.add (i th) 1) (item th) (items_to_produce th))))
  | PReturn => None
  | CSemWait =>
      if 0 <? full_slots s
      then Some (EvSemWait FullSlots,
                 Chan (buffer s) (in_ s) (out s) (empty_slots s) (full_slots s - 1)
                      (mutex_buffer s) (move CLock))
      else None
  | CLock =>
      if mutex_buffer s then None
      else Some (EvLock,
                 Chan (buffer s) (in_ s) (out s) (empty_slots s) (full_slots s) true
                      (move CLoad))
  | CLoad =>
      v ← load (buffer s) (out s);
      Some (EvLoad,
            Chan (buffer s) (in_ s) (out s) (empty_slots s) (full_slots s) (mutex_buffer s)
                 (goto s t (Thread CAdvance (i th) v (items_to_produce th))))
  | CAdvance =>
      k ← advance (out s);
      Some (EvAdvanceOut,
            Chan (buffer s) (in_ s) k (empty_slots s) (full_slots s) (mutex_buffer s)
                 (move CUnlock))
  | CUnlock =>
      if mutex_buffer s
      then Some (EvUnlock,
                 Chan (buffer s) (in_ s) (out s) (empty_slots s) (full_slots s) false
                      (move CSemPost))
      else None
  | CSemPost =>
      Some (EvSemPost EmptySlots,
            Chan (buffer s) (in_ s) (out s) (empty_slots s + 1) (full_slots s)
                 (mutex_buffer s) (move CConsume))
  | CConsume =>
      Some (EvConsume,
            Chan (buffer s) (in_ s) (out s) (empty_slots s) (full_slots s) (mutex_buffer s)
                 (move CSemWait))
  end.

(** The state [main] leaves when it has created the threads, the consumers
    first: [in = out = 0], [sem_init(&empty_slots, 0, buffer_size)],
    [sem_init(&full_slots, 0, 0)], the mutex free. The cells of the buffer
    come from [malloc]; no cell is read before it is written. *)
Definition init (num_producers num_consumers items_per_producer : Z) : channel :=
  Chan (replicate (Z.to_nat buffer_size) 0) 0 0 buffer_size 0 false
       (replicate (Z.to_nat num_consumers) (Thread CSemWait 0 0 (-1))
        ++ replicate (Z.to_nat num_producers) (Thread PLoop 0 0 items_per_producer)).

(** [main] up to the creation of the threads, with [atoi] of its four
    arguments already taken: it exits when [argc] is not 5 and when [malloc]
    returns [NULL] ([buffer_allocated] is [false]), and otherwise starts the
    threads, whatever the four numbers are. The arrays [producers] and
    [consumers] have [num_producers] and [num_consumers] elements, which C
    defines for positive numbers only. *)
Definition main (argc : Z) (num_producers num_consumers items_per_producer : Z)
    (buffer_allocated : bool) : result (Z * channel) :=
  if argc =? 5 then
    if buffer_allocated then
      if (0 <? num_producers) && (0 <? num_consumers)
      then Ok (buffer_size, init num_producers num_consumers items_per_producer)
      else Undefined
    else Exits
  else Exits.

End Code.

(** The body of [put], between [produce_item] and [usleep]. *)
Definition put_events : list event :=
  [EvSemWait EmptySlots; EvLock; EvStore; EvAdvanceIn; EvUnlock; EvSemPost FullSlots].

(** The body of [take], before [consume_item]. *)
Definition take_events : list event :=
  [EvSemWait FullSlots; EvLock; EvLoad; EvAdvanceOut; EvUnlock; EvSemPost EmptySlots].

(** One turn of the loop of [producer], of [consumer]. *)
Definition producer_turn : list event := EvProduce :: put_events ++ [EvSleep].
Definition consumer_turn : list event := take_events ++ [EvConsume].

Definition is_producer (a : pc) : bool :=
  match a with
  | PLoop | PSemWait | PLock | PStore | PAdvance | PUnlock | PSemPost | PSleep | PReturn => true
  | _ => false
  end.

Definition turn_of (a : pc) : list event :=
  if is_producer a then producer_turn else consumer_turn.

(** How many statements of the current turn a thread at [a] has behind it. *)
Definition done_in_turn (a : pc) : nat :=
  match a with
  | PLoop => 0 | PSemWait => 1 | PLock => 2 | PStore => 3 | PAdvance => 4
  | PUnlock => 5 | PSemPost => 6 | PSleep => 7 | PReturn => 0
  | CSemWait => 0 | CLock => 1 | CLoad => 2 | CAdvance => 3 | CUnlock => 4
  | CSemPost => 5 | CConsume => 6
  end%nat.

(** The thread is inside a [put] or a [take]: past its [sem_wait], before
    its [sem_post]. *)
Definition in_progress (th : thread) : bool :=
  match at_ th with
  | PLock | PStore | PAdvance | PUnlock | PSemPost
  | CLock | CLoad | CAdvance | CUnlock | CSemPost => true
  | _ => false
  end.

Definition in_progress_count (s : channel) : Z :=
  Zsum (fun th => if in_progress th then 1 else 0) (threads s).

(** The thread is between its [pthread_mutex_lock] and its
    [pthread_mutex_unlock]. *)
Definition in_critical_section (th : thread) : bool :=
  match at_ th with
  | PStore | PAdvance | PUnlock | CLoad | CAdvance | CUnlock => true
  | _ => false
  end.

(** [sem_wait]s less [sem_post]s of thread [t] in [tr]. *)
Definition sem_delta (e : event) : Z :=
  match e with EvSemWait _ => 1 | EvSemPost _ => -1 | _ => 0 end.
Definition pending (t : nat) (tr : list (nat * event)) : Z :=
  Zsum sem_delta (proj t tr).

End Channel.

(** ** BoundedChannel: [main] of [producer_consumer.go] *)

Module GoChannel.

(** The goroutines [main] has started. *)
Record started := Started { consumers : nat; producers : nat }.

(** [main] up to the [go] statements, with [strconv.Atoi] of its four
    arguments already taken (an argument that is no number counts as 0):
    [os.Exit(1)] when there are not four arguments; [make([]int, n)] of
    [NewBuffer] panics for a negative [n]; otherwise [numConsumers]
    consumers and [numProducers] producers are started, none for a number
    that is not positive. *)
Definition main (nargs : Z) (numProducers numConsumers bufferSize itemsPerProducer : Z)
    : result started :=
  if nargs =? 5 then
    if bufferSize <? 0 then Exits
    else Ok (Started (Z.to_nat numConsumers) (Z.to_nat numProducers))
  else Exits.

End GoChannel.

(** ** MonitorQueue: [tsqueue.c] and [tsqueue.go] *)

Module Queue.

(** A heap address; [NULL] is [None] of [option positive]. *)
Abbreviation addr := positive.

Record Node := mkNode { value : Z; next : option addr }.

(** The fields [head] and [tail] of the queue and the nodes on the heap. *)
Record ThreadSafeQueue := TSQ {
  head : option addr;
  tail : option addr;
  mem : gmap addr Node
}.

(** [queue_init]: [q->head = q->tail = NULL], nothing allocated yet. *)
Definition queue_init : ThreadSafeQueue := TSQ None None ∅.

(** The [if (q->tail == NULL) ... else ...] of [enqueue], for the node at [p]. *)
Definition link (q : ThreadSafeQueue) (p : addr) : result ThreadSafeQueue :=
  match tail q with
  | None => Ok (TSQ (Some p) (Some p) (mem q))
  | Some t =>
      match mem q !! t with
      | Some n => Ok (TSQ (head q) (Some p) (<[t := mkNode (value n) (Some p)]> (mem q)))
      | None => Undefined
      end
  end.

(** [dequeue] after its loop: [to_free = q->head; result = to_free->value;
    q->head = q->head->next; if (q->head == NULL) q->tail = NULL;
    free(to_free)]. *)
Definition unlink (q : ThreadSafeQueue) : result (Z * ThreadSafeQueue) :=
  match head q with
  | None => Undefined
  | Some h =>
      match mem q !! h with
      | Some n =>
          Ok (value n,
              TSQ (next n)
                  (match next n with None => None | Some _ => tail q end)
                  (delete h (mem q)))
      | None => Undefined
      end
  end.

Section Alloc.

(** The address [malloc(sizeof(Node))] returns on a given heap, [None] for
    [NULL]. *)
Variable malloc : gmap addr Node -> option addr.

(** [new_node = malloc(...); if (!new_node) exit(EXIT_FAILURE);
    new_node->value = item; new_node->next = NULL]. *)
Definition new_node (q : ThreadSafeQueue) (item : Z) : result (addr * ThreadSafeQueue) :=
  match malloc (mem q) with
  | None => Exits
  | Some p => Ok (p, TSQ (head q) (tail q) (<[p := mkNode item None]> (mem q)))
  end.

(** [enqueue], run by a thread that no other thread interrupts. *)
Definition enqueue (q : ThreadSafeQueue) (item : Z) : result ThreadSafeQueue :=
  let* (p, q1) := new_node q item in
  link q1 p.

(** [dequeue], run by a thread that no other thread interrupts: on an empty
    queue it stays in [pthread_cond_wait]. *)
Definition dequeue (q : ThreadSafeQueue) : result (Z * ThreadSafeQueue) :=
  match head q with
  | None => Waits
  | Some _ => unlink q
  end.

(** A single client: the calls it makes, in order. *)
Inductive call :=
| Enq (item : Z)
| Deq.

(** The values its [dequeue]s returned, and the queue at the end. *)
Fixpoint calls (cs : list call) (q : ThreadSafeQueue) : result (list Z * ThreadSafeQueue) :=
  match cs with
  | [] => Ok ([], q)
  | Enq item :: cs' =>
      let* q' := enqueue q item in
      calls cs' q'
  | Deq :: cs' =>
      let* (v, q') := dequeue q in
      let* (vs, q'') := calls cs' q' in
      Ok (v :: vs, q'')
  end.

End Alloc.

(** The queue holds the nodes [cells], oldest first: they are chained from
    [p] through their [next] fields up to [e]. *)
Fixpoint lseg (m : gmap addr Node) (p : option addr) (cells : list (addr * Z))
    (e : option addr) : Prop :=
  match cells with
  | [] => p = e
  | (a, v) :: cells' =>
      p = Some a /\ exists nx, m !! a = Some (mkNode v nx) /\ lseg m nx cells' e
  end.

Definition queue_holds (q : ThreadSafeQueue) (cells : list (addr * Z)) : Prop :=
  lseg (mem q) (head q) cells None /\
  tail q = last cells.*1 /\
  NoDup cells.*1.

(** The queue holds the sequence of values [l], oldest first. *)
Definition sequence (q : ThreadSafeQueue) (l : list Z) : Prop :=
  exists cells, queue_holds q cells /\ cells.*2 = l.

(** The queue holds the sequence of values [l], and the heap nothing else. *)
Definition contents (q : ThreadSafeQueue) (l : list Z) : Prop :=
  exists cells, queue_holds q cells /\ cells.*2 = l /\ dom (mem q) = list_to_set cells.*1.

(** The items a client passes to [enqueue]. *)
Definition enqueued (cs : list call) : list Z :=
  omap (fun c => match c with Enq item => Some item | Deq => None end) cs.

(** Enqueue the items of [l], then dequeue as many times. *)
Definition round_trip (l : list Z) : list call :=
  (Enq <$> l) ++ replicate (length l) Deq.

(** [head] is [NULL] exactly when [tail] is, and a queue of one node has
    [head == tail]. *)
Definition rep_ok (q : ThreadSafeQueue) : Prop :=
  (head q = None <-> tail q = None) /\
  (exists l, sequence q l /\
             (length l = 1%nat -> is_Some (head q) /\ head q = tail q)).

End Queue.

(** [tsqueue.go]: the queue is a slice. *)
Module GoQueue.

Record ThreadSafeQueue := TSQ { items : list Z }.

Definition NewQueue : ThreadSafeQueue := TSQ [].

Definition Enqueue (q : ThreadSafeQueue) (item : Z) : result ThreadSafeQueue :=
  Ok (TSQ (items q ++ [item])).

(** [for len(q.items) == 0 { q.cond.Wait() }], then [q.items[0]] and
    [q.items[1:]]. *)
Definition Dequeue (q : ThreadSafeQueue) : result (Z * ThreadSafeQueue) :=
  match items q with
  | [] => Waits
  | item :: rest => Ok (item, TSQ rest)
  end.

Fixpoint calls (cs : list Queue.call) (q : ThreadSafeQueue) : result (list Z * ThreadSafeQueue) :=
  match cs with
  | [] => Ok ([], q)
  | Queue.Enq item :: cs' =>
      let* q' := Enqueue q item in
      calls cs' q'
  | Queue.Deq :: cs' =>
      let* (v, q') := Dequeue q in
      let* (vs, q'') := calls cs' q' in
      Ok (v :: vs, q'')
  end.

End GoQueue.

(** ** MonitorQueue: the threads of [tsqueue.c] *)

Module QueueThreads.
Import Queue.

(** The statement a thread is about to run: [E...] in [enqueue], [D...] in
    [dequeue], [Idle] in the caller. *)
Inductive pc :=
| Idle      (* in the caller: the next call of the thread, if any *)
| EMalloc   (* [malloc], the [NULL] test, [new_node->value] and [->next] *)
| ELock     (* [pthread_mutex_lock(&q->lock)] *)
| ELink     (* [if (q->tail == NULL) ... else ...] *)
| ESignal   (* [pthread_cond_signal(&q->not_empty)] *)
| EUnlock   (* [pthread_mutex_unlock(&q->lock)], return *)
| DLock     (* [pthread_mutex_lock(&q->lock)] *)
| DTest     (* [while (q->head == NULL)] *)
| DWait     (* in [pthread_cond_wait]: the mutex released, waiting for [not_empty] *)
| DWake     (* in [pthread_cond_wait]: woken up, taking the mutex back *)
| DUnlink   (* [to_free = q->head] ... [free(to_free)] *)
| DUnlock   (* [pthread_mutex_unlock(&q->lock)], [return result] *)
| Exited.   (* [exit(EXIT_FAILURE)] *)

(** The calls the thread still has to make, and the locals of the call it
    is in: [item], [new_node], [result]. *)
Record thread := Thread {
  at_ : pc;
  todo : list call;
  item : Z;
  node : option addr;
  result : Z
}.

(** The queue and its heap, the mutex [q->lock], whether the process is
    still running, and the threads. The threads waiting on [q->not_empty]
    are those at [DWait]. *)
Record state := State {
  q : ThreadSafeQueue;
  lock : bool;
  alive : bool;
  threads : list thread
}.

Inductive event :=
| EvCall (c : call)
| EvMalloc (p : addr)
| EvExit
| EvLock
| EvLink (v : Z)
| EvSignal
| EvUnlock
| EvWait
| EvWake
| EvProceed
| EvUnlink (v : Z)
| EvReturn (v : Z).

Section Code.

Variable malloc : gmap addr Node -> option addr.

Definition goto (s : state) (t : nat) (th : thread) : list thread :=
  <[t := th]> (threads s).

(** A thread in [pthread_cond_wait] may be woken up at any time: by
    [pthread_cond_signal], by [pthread_cond_broadcast], or spuriously. Which
    of the waiting threads a signal wakes is the choice of the schedule. *)
Definition step (s : state) (t : nat) : option (event * state) :=
  if alive s then
    th ← threads s !! t;
    let move a := goto s t (Thread a (todo th) (item th) (node th) (result th)) in
    match at_ th with
    | Idle =>
        match todo th with
        | [] => None
        | Enq x :: rest =>
            Some (EvCall (Enq x),
                  State (q s) (lock s) true (goto s t (Thread EMalloc rest x None (result th))))
        | Deq :: rest =>
            Some (EvCall Deq,
                  State (q s) (lock s) true (goto s t (Thread DLock rest (item th) None (result th))))
        end
    | EMalloc =>
        match new_node malloc (q s) (item th) with
        | Ok (p, q') =>
            Some (EvMalloc p,
                  State q' (lock s) true
                        (goto s t (Thread ELock (todo th) (item th) (Some p) (result th))))
        | _ => Some (EvExit, State (q s) (lock s) false (move Exited))
        end
    | ELock =>
        if lock s then None else Some (EvLock, State (q s) true true (move ELink))
    | ELink =>
        p ← node th;
        match link (q s) p with
        | Ok q' => Some (EvLink (item th), State q' (lock s) true (move ESignal))
        | _ => None
        end
    | ESignal => Some (EvSignal, State (q s) (lock s) true (move EUnlock))
    | EUnlock =>
        if lock s then Some (EvUnlock, State (q s) false true (move Idle)) else None
    | DLock =>
        if lock s then None else Some (EvLock, State (q s) true true (move DTest))
    | DTest =>
        match head (q s) with
        | None =>
            if lock s then Some (EvWait, State (q s) false true (move DWait)) else None
        | Some _ => Some (EvProceed, State (q s) (lock s) true (move DUnlink))
        end
    | DWait => Some (EvWake, State (q s) (lock s) true (move DWake))
    | DWake =>
        if lock s then None else Some (EvLock, State (q s) true true (move DTest))
    | DUnlink =>
        match unlink (q s) with
        | Ok (v, q') =>
            Some (EvUnlink v,
                  State q' (lock s) true
                        (goto s t (Thread DUnlock (todo th) (item th) (node th) v)))
        | _ => None
        end
    | DUnlock =>
        if lock s
        then Some (EvReturn (result th), State (q s) false true (move Idle))
        else None
    | Exited => None
    end
  else None.

End Code.

(** After [queue_init], one thread per list of calls. *)
Definition init (scripts : list (list call)) : state :=
  State queue_init false true ((fun cs => Thread Idle cs 0 None 0) <$> scripts).

(** The thread holds [q->lock]. *)
Definition in_critical_section (th : thread) : bool :=
  match at_ th with
  | ELink | ESignal | EUnlock | DTest | DUnlink | DUnlock => true
  | _ => false
  end.

(** Where thread [t] stands. *)
Definition where_ (s : state) (t : nat) : option pc := at_ <$> threads s !! t.

(** The values linked into the queue, and those unlinked from it, in order. *)
Definition linked (tr : list (nat * event)) : list Z :=
  omap (fun te => match te.2 with EvLink v => Some v | _ => None end) tr.
Definition unlinked (tr : list (nat * event)) : list Z :=
  omap (fun te => match te.2 with EvUnlink v => Some v | _ => None end) tr.

(** The values thread [t] unlinked, and the values its [dequeue]s
    returned, in order. *)
Definition unlinked_by (t : nat) (tr : list (nat * event)) : list Z :=
  omap (fun e => match e with EvUnlink v => Some v | _ => None end) (proj t tr).
Definition returned (t : nat) (tr : list (nat * event)) : list Z :=
  omap (fun e => match e with EvReturn v => Some v | _ => None end) (proj t tr).

End QueueThreads.

(** ** ResourceRing: the forks in a philosopher's hand *)

Module RingHands.
Import Ring.
(** Fork [f] in the hand of thread [t] after [tr]: its locks of [f] less
    its unlocks of [f]. *)
Definition fork_balance (f : Z) (e : event) : Z :=
  match e with
  | EvLock g => if g =? f then 1 else 0
  | EvUnlock g => if g =? f then -1 else 0
  | _ => 0
  end.
Definition in_hand (t : nat) (f : Z) (tr : list (nat * event)) : Z :=
  Zsum (fork_balance f) (proj t tr).
End RingHands.

(** ** BoundedChannel: what a run moves through the buffer *)

Module ChannelCounts.
Import Channel.

(** Stores into the buffer and loads from it, counted along a run. *)
Definition stores (tr : list (nat * event)) : Z :=
  Zsum (fun te => match te.2 with EvStore => 1 | _ => 0 end) tr.
Definition loads (tr : list (nat * event)) : Z :=
  Zsum (fun te => match te.2 with EvLoad => 1 | _ => 0 end) tr.

(** The thread has an item in the buffer that [full_slots] does not count:
    a producer past its store and before its [sem_post], a consumer past
    its [sem_wait] and before its load. *)
Definition holds_item (th : thread) : bool :=
  match at_ th with
  | PAdvance | PUnlock | PSemPost | CLock | CLoad => true
  | _ => false
  end.

(** The thread has a free cell that [empty_slots] does not count: a
    producer past its [sem_wait] and before its store, a consumer past its
    load and before its [sem_post]. *)
Definition holds_slot (th : thread) : bool :=
  match at_ th with
  | PLock | PStore | CAdvance | CUnlock | CSemPost => true
  | _ => false
  end.

(** Where a thread that cannot run stands. *)
Definition waits (s : channel) (th : thread) : Prop :=
  match at_ th with
  | PSemWait => empty_slots s = 0
  | CSemWait => full_slots s = 0
  | PLock | CLock => mutex_buffer s = true
  | PReturn => True
  | _ => False
  end.

End ChannelCounts.

Module ChannelFlow.
Import Channel.

(** A run, watched: [stored] lists the values written into the buffer and
    [loaded] the values read from it, oldest first. *)
Record watched := Watched { chan : channel; stored : list Z; loaded : list Z }.

Section Code.

Variable buffer_size : Z.
Variable rand : nat -> Z -> Z.

(** The statement of [Channel.step], and what it moves: [buffer[in] = item]
    stores the [item] of the thread, [item = buffer[out]] loads what is the
    [item] of the thread afterwards. *)
Definition step (w : watched) (t : nat) : option (event * watched) :=
  match Channel.step buffer_size rand (chan w) t with
  | Some (EvStore, s') =>
      th ← threads (chan w) !! t;
      Some (EvStore, Watched s' (stored w ++ [item th]) (loaded w))
  | Some (EvLoad, s') =>
      th ← threads s' !! t;
      Some (EvLoad, Watched s' (stored w) (loaded w ++ [item th]))
  | Some (e, s') => Some (e, Watched s' (stored w) (loaded w))
  | None => None
  end.

Definition init (num_producers num_consumers items_per_producer : Z) : watched :=
  Watched (Channel.init buffer_size num_producers num_consumers items_per_producer) [] [].

End Code.

(** Threads that have moved a value and not yet the cursor. *)
Definition at_advance_in (s : channel) : Z :=
  Zsum (fun th => match at_ th with PAdvance => 1 | _ => 0 end) (threads s).
Definition at_advance_out (s : channel) : Z :=
  Zsum (fun th => match at_ th with CAdvance => 1 | _ => 0 end) (threads s).

End ChannelFlow.

Module ChannelWork.
Import Channel.

(** Turns of [consumer] completed along a run. *)
Definition consumes (tr : list (nat * event)) : Z :=
  Zsum (fun te => match te.2 with EvConsume => 1 | _ => 0 end) tr.

(** Items a producer has stored so far: one per turn of its loop, and one
    more past the store of the current turn. *)
Definition produced (th : thread) : Z :=
  match at_ th with
  | PLoop | PSemWait | PLock | PStore | PReturn => i th
  | PAdvance | PUnlock | PSemPost | PSleep => i th + 1
  | _ => 0
  end.

(** A consumer past its [sem_wait], and one past its load, in the current
    turn. *)
Definition waited (th : thread) : Z :=
  match at_ th with
  | CLock | CLoad | CAdvance | CUnlock | CSemPost | CConsume => 1
  | _ => 0
  end.
Definition taken (th : thread) : Z :=
  match at_ th with
  | CAdvance | CUnlock | CSemPost | CConsume => 1
  | _ => 0
  end.

(** Statements a producer still has to run; for a consumer, less the
    statements of its current turn it has run. *)
Definition remaining (th : thread) : Z :=
  match at_ th with
  | PReturn => 0
  | PLoop => 8 * Z.max 0 (items_to_produce th - i th) + 1
  | PSemWait | PLock | PStore | PAdvance | PUnlock | PSemPost | PSleep =>
      8 * (items_to_produce th - i th) + 1 - Z.of_nat (done_in_turn (at_ th))
  | _ => - Z.of_nat (done_in_turn (at_ th))
  end.

(** Statements the threads still have to run after [tr], when [total]
    items are produced in all. *)
Definition work_left (total : Z) (tr : list (nat * event)) (s : channel) : Z :=
  Zsum remaining (threads s) + 7 * (total - consumes tr).

(** Every producer has returned and, the buffer being empty, every
    consumer waits for an item. *)
Definition drained (s : channel) : Prop :=
  full_slots s = 0 /\
  forall t th, threads s !! t = Some th -> at_ th = PReturn \/ at_ th = CSemWait.

End ChannelWork.

(** ** MonitorQueue: the program of [tsqueue.c] *)

Module Program.
Import Queue.

(** [args->producer_id * 1000 + i], in [int]. *)
Definition mul (a b : Z) : Z := CInt.wrap (a * b).
Definition item_of (producer_id i : Z) : Z := CInt.add (mul producer_id 1000) i.

(** The calls of [producer_thread]: one [enqueue] per turn of its loop,
    for [i] from [0] up to [items_to_produce - 1]. *)
Definition producer_calls (producer_id items_to_produce : Z) : list call :=
  (fun k => Enq (item_of producer_id (Z.of_nat k))) <$> seq 0 (Z.to_nat items_to_produce).

(** Where a thread stands in [producer_thread] or [consumer_thread]. *)
Inductive place :=
| InProducer    (* in [producer_thread]: in the loop, or in [enqueue] *)
| CLock         (* top of [while (1)]: [pthread_mutex_lock(args->count_lock)] *)
| CTest         (* the test [consumed_count >= total_items] of the [if] *)
| CBreak        (* [pthread_mutex_unlock(args->count_lock); break] *)
| CUnlock       (* [pthread_mutex_unlock(args->count_lock)], then the call of [dequeue] *)
| CDequeue      (* in [dequeue(args->queue)] *)
| CLockAgain    (* [pthread_mutex_lock(args->count_lock)] *)
| CCount        (* [consumed_count++], and [local_count] takes the new value *)
| CUnlockAgain  (* [pthread_mutex_unlock(args->count_lock)] *)
| CSleep        (* [printf], [usleep(150000)] *)
| CReturned.    (* after the loop: [return NULL] *)

(** [pool]: the queue of [main], its lock, and where each thread stands
    inside [enqueue] or [dequeue]; [count_lock], [consumed_count] and
    [total_items]: the locals of [main] the consumers share; [places]: where
    each thread stands in its thread function. *)
Record program := Program {
  pool : QueueThreads.state;
  count_lock : bool;
  consumed_count : Z;
  total_items : Z;
  places : list place
}.

Inductive event :=
| EvQueue (e : QueueThreads.event)
| EvLockCount
| EvEnough
| EvMore
| EvUnlockCount
| EvCount (local_count : Z)
| EvSleep.

(** Thread [t] is about to call [dequeue]. *)
Definition call_dequeue (p : QueueThreads.state) (t : nat) : QueueThreads.state :=
  QueueThreads.State (QueueThreads.q p) (QueueThreads.lock p) (QueueThreads.alive p)
    (match QueueThreads.threads p !! t with
     | Some th =>
         <[t := QueueThreads.Thread QueueThreads.Idle [Deq] (QueueThreads.item th)
                  (QueueThreads.node th) (QueueThreads.result th)]> (QueueThreads.threads p)
     | None => QueueThreads.threads p
     end).

Section Code.

Variable malloc : gmap addr Node -> option addr.

Definition step (s : program) (t : nat) : option (event * program) :=
  if QueueThreads.alive (pool s) then
    a ← places s !! t;
    let move a' := <[t := a']> (places s) in
    match a with
    | InProducer =>
        match QueueThreads.step malloc (pool s) t with
        | Some (e, p') =>
            Some (EvQueue e,
                  Program p' (count_lock s) (consumed_count s) (total_items s) (places s))
        | None => None
        end
    | CLock =>
        if count_lock s then None
        else Some (EvLockCount,
                   Program (pool s) true (consumed_count s) (total_items s) (move CTest))
    | CTest =>
        if total_items s <=? consumed_count s
        then Some (EvEnough,
                   Program (pool s) (count_lock s) (consumed_count s) (total_items s)
                           (move CBreak))
        else Some (EvMore,
                   Program (pool s) (count_lock s) (consumed_count s) (total_items s)
                           (move CUnlock))
    | CBreak =>
        if count_lock s
        then Some (EvUnlockCount,
                   Program (pool s) false (consumed_count s) (total_items s) (move CReturned))
        else None
    | CUnlock =>
        if count_lock s
        then Some (EvUnlockCount,
                   Program (call_dequeue (pool s) t) false (consumed_count s) (total_items s)
                           (move CDequeue))
        else None
    | CDequeue =>
        match QueueThreads.step malloc (pool s) t with
        | Some (e, p') =>
            Some (EvQueue e,
                  Program p' (count_lock s) (consumed_count s) (total_items s)
                          (match e with
                           | QueueThreads.EvReturn _ => move CLockAgain
                           | _ => places s
                           end))
        | None => None
        end
    | CLockAgain =>
        if count_lock s then None
        else Some (EvLockCount,
                   Program (pool s) true (consumed_count s) (total_items s) (move CCount))
    | CCount =>
        Some (EvCount (CInt.add (consumed_count s) 1),
              Program (pool s) (count_lock s) (CInt.add (consumed_count s) 1) (total_items s)
                      (move CUnlockAgain))
    | CUnlockAgain =>
        if count_lock s
        then Some (EvUnlockCount,
                   Program (pool s) false (consumed_count s) (total_items s) (move CSleep))
        else None
    | CSleep =>
        Some (EvSleep,
              Program (pool s) (count_lock s) (consumed_count s) (total_items s) (move CLock))
    | CReturned => None
    end
  else None.

End Code.

(** The state [main] leaves when it has created the threads, the producers
    first: the queue empty, [total_items = num_producers *
    items_per_producer], [consumed_count = 0], the mutexes free. *)
Definition init (num_producers num_consumers items_per_producer : Z) : program :=
  Program
    (QueueThreads.init
       (((fun id => producer_calls (Z.of_nat id) items_per_producer)
           <$> seq 0 (Z.to_nat num_producers))
        ++ replicate (Z.to_nat num_consumers) []))
    false 0 (mul num_producers items_per_producer)
    (replicate (Z.to_nat num_producers) InProducer
     ++ replicate (Z.to_nat num_consumers) CLock).

(** [main] up to the creation of the threads, with [atoi] of its three
    arguments already taken: it exits when [argc] is not 4. The arrays
    [producers] and [consumers] have [num_producers] and [num_consumers]
    elements, which C defines for positive numbers only. *)
Definition main (argc num_producers num_consumers items_per_producer : Z) : result program :=
  if argc =? 4 then
    if (0 <? num_producers) && (0 <? num_consumers)
    then Ok (init num_producers num_consumers items_per_producer)
    else Undefined
  else Exits.

(** What the threads did inside [enqueue] and [dequeue]. *)
Definition queue_trace (tr : list (nat * event)) : list (nat * QueueThreads.event) :=
  omap (fun te => match te.2 with EvQueue e => Some (te.1, e) | _ => None end) tr.

(** The values the calls of [dequeue] have returned. *)
Definition dequeued (tr : list (nat * event)) : list Z :=
  omap (fun te => match te.2 with
                  | EvQueue (QueueThreads.EvReturn v) => Some v
                  | _ => None
                  end) tr.

End Program.

(** * Part II: the properties *)

(** ** Arithmetic of [int] *)

Module CIntFacts.
Import CInt.

Lemma wrap_id z : in_range z -> wrap z = z.
Proof.
  unfold in_range, wrap, INT_MIN, INT_MAX. intros H.
  rewrite Z.mod_small; lia.
Qed.

Lemma add_small a b : in_range (a + b) -> add a b = a + b.
Proof. apply wrap_id. Qed.

Lemma succ_small a b : 0 <= a < b -> b <= INT_MAX -> add a 1 = a + 1.
Proof.
  unfold INT_MAX. intros Ha Hb. apply add_small.
  unfold in_range, INT_MIN, INT_MAX. lia.
Qed.

(** [(k + 1) % n] steps through [0 .. n-1] and wraps to [0]. *)
Lemma rem_succ k n : 0 <= k < n -> n <= INT_MAX ->
  rem (add k 1) n = if k + 1 =? n then 0 else k + 1.
Proof.
  intros Hk Hn. unfold rem. rewrite (succ_small k n) by done.
  destruct (Z.eqb_spec (k + 1) n) as [->|Hne].
  - apply Z.rem_same. lia.
  - apply Z.rem_small. lia.
Qed.

End CIntFacts.

(** ** Executions *)

Section InterleavingFacts.

Context {State Event : Type}.
Variable step : State -> nat -> option (Event * State).

Lemma exec_cons s0 t e s1 tr s :
  step s0 t = Some (e, s1) -> exec step s1 tr s -> exec step s0 ((t, e) :: tr) s.
Proof.
  intros Hstep Hex. induction Hex as [|tr s t' e' s' _ IH Hs].
  - apply (exec_step step s0 [] s0 t e s1); [constructor | done].
  - rewrite app_comm_cons. by eapply exec_step.
Qed.

Lemma run_exec sched : forall s0 tr s,
  run step sched s0 = Some (tr, s) -> exec step s0 tr s.
Proof.
  induction sched as [|t sched IH]; intros s0 tr s; simpl.
  - intros [= <- <-]. constructor.
  - destruct (step s0 t) as [[e s1]|] eqn:Hs; [|done].
    destruct (run step sched s1) as [[tr' s2]|] eqn:Hr; [|done].
    intros [= <- <-]. eapply exec_cons; eauto.
Qed.

Lemma exec_invariant (P : State -> Prop) s0 :
  P s0 ->
  (forall s t e s', P s -> step s t = Some (e, s') -> P s') ->
  forall tr s, exec step s0 tr s -> P s.
Proof. intros H0 Hstep tr s Hex. induction Hex; eauto. Qed.

Lemma proj_snoc t tr t' (e : Event) :
  proj t (tr ++ [(t', e)]) = proj t tr ++ (if decide (t' = t) then [e] else []).
Proof.
  unfold proj. rewrite omap_app. simpl. by destruct (decide (t' = t)).
Qed.

End InterleavingFacts.

(** ** Sums *)

Lemma Zsum_app {A} (f : A -> Z) l1 l2 : Zsum f (l1 ++ l2) = Zsum f l1 + Zsum f l2.
Proof. unfold Zsum. induction l1 as [|a l1 IH]; simpl; lia. Qed.

Lemma Zsum_replicate {A} (f : A -> Z) n a : Zsum f (replicate n a) = Z.of_nat n * f a.
Proof. unfold Zsum. induction n as [|n IH]; simpl; lia. Qed.

Lemma Zsum_insert {A} (f : A -> Z) (l : list A) t old new :
  l !! t = Some old -> Zsum f (<[t := new]> l) = Zsum f l - f old + f new.
Proof.
  unfold Zsum. revert t. induction l as [|a l IH]; intros [|t]; simpl; try done.
  - intros [= ->]. lia.
  - intros H. rewrite (IH _ H). lia.
Qed.

Lemma Zsum_nonneg {A} (f : A -> Z) (l : list A) :
  (forall t a, l !! t = Some a -> 0 <= f a) -> 0 <= Zsum f l.
Proof.
  unfold Zsum. induction l as [|a l IH]; intros Hf; simpl; [done|].
  specialize (Hf 0%nat a eq_refl) as Ha.
  assert (0 <= foldr (fun a acc => f a + acc) 0 l); [|lia].
  apply IH. intros t b Hb. apply (Hf (S t) b Hb).
Qed.

Lemma Zsum_join_replicate {A} (f : A -> Z) n (l : list A) :
  Zsum f (mjoin (replicate n l)) = Z.of_nat n * Zsum f l.
Proof.
  induction n as [|n IH]; [done|].
  change (mjoin (replicate (S n) l)) with (l ++ mjoin (replicate n l)).
  rewrite Zsum_app, IH. lia.
Qed.

(** A sum over the thread indices is the sum over the thread table. *)
Lemma Zsum_seq {A} (f : A -> Z) (g : nat -> Z) (l : list A) k :
  (forall t a, l !! t = Some a -> g (k + t)%nat = f a) ->
  Zsum g (seq k (length l)) = Zsum f l.
Proof.
  revert k. unfold Zsum. induction l as [|a l IH]; intros k H; simpl; [done|].
  rewrite (IH (S k)).
  - specialize (H 0%nat a eq_refl). rewrite Nat.add_0_r in H. by rewrite H.
  - intros t b Hb. rewrite <- (H (S t) b Hb). f_equal. lia.
Qed.

Lemma omap_join_replicate {A B} (f : A -> option B) n (l : list A) :
  omap f (mjoin (replicate n l)) = mjoin (replicate n (omap f l)).
Proof.
  induction n as [|n IH]; [done|]. simpl. by rewrite omap_app, IH.
Qed.

Lemma Zsum_ge_term {A} (f : A -> Z) (l : list A) t a :
  (forall b, 0 <= f b) -> l !! t = Some a -> f a <= Zsum f l.
Proof.
  intros Hf. unfold Zsum. revert t. induction l as [|b l IH]; intros [|t]; simpl; try done.
  - intros [= ->]. pose proof (Zsum_nonneg f l (fun _ c _ => Hf c)). unfold Zsum in *. lia.
  - intros H. specialize (IH _ H). specialize (Hf b). lia.
Qed.

Lemma Zsum_ge_two {A} (f : A -> Z) (l : list A) t1 t2 a1 a2 :
  (forall b, 0 <= f b) -> t1 <> t2 -> l !! t1 = Some a1 -> l !! t2 = Some a2 ->
  f a1 + f a2 <= Zsum f l.
Proof.
  intros Hf. unfold Zsum. revert t1 t2.
  induction l as [|b l IH]; intros [|t1] [|t2]; simpl; try done.
  - intros _ [= ->] H2. pose proof (Zsum_ge_term f l t2 a2 Hf H2). unfold Zsum in *. lia.
  - intros _ H1 [= ->]. pose proof (Zsum_ge_term f l t1 a1 Hf H1). unfold Zsum in *. lia.
  - intros Hne H1 H2. assert (t1 <> t2) as Hne' by congruence.
    specialize (IH _ _ Hne' H1 H2). specialize (Hf b). lia.
Qed.

Lemma Zsum_zero {A} (f : A -> Z) (l : list A) :
  (forall a, a ∈ l -> f a = 0) -> Zsum f l = 0.
Proof.
  unfold Zsum. induction l as [|a l IH]; intros H; simpl; [done|].
  rewrite IH, (H a); [done|left|]. intros b Hb. apply H. by right.
Qed.

Lemma Zsum_plus {A} (f g : A -> Z) l :
  Zsum f l + Zsum g l = Zsum (fun a => f a + g a) l.
Proof. unfold Zsum. induction l as [|a l IH]; simpl; lia. Qed.

Lemma Zsum_scale {A} (f : A -> Z) c l : Zsum (fun a => c * f a) l = c * Zsum f l.
Proof. unfold Zsum. induction l as [|a l IH]; simpl; lia. Qed.

Lemma Zsum_ext_in {A} (f g : A -> Z) l :
  (forall a, a ∈ l -> f a = g a) -> Zsum f l = Zsum g l.
Proof.
  unfold Zsum. induction l as [|a l IH]; intros H; simpl; [done|].
  rewrite (H a), IH; [done| |left]. intros b Hb. apply H. by right.
Qed.

Lemma Zsum_ext {A} (f g : A -> Z) l : (forall a, f a = g a) -> Zsum f l = Zsum g l.
Proof. intros H. apply Zsum_ext_in. intros a _. apply H. Qed.

Lemma Zsum_le_in {A} (f g : A -> Z) l :
  (forall a, a ∈ l -> f a <= g a) -> Zsum f l <= Zsum g l.
Proof.
  unfold Zsum. induction l as [|a l IH]; intros H; simpl; [done|].
  assert (f a <= g a) by (apply H; left).
  assert (foldr (fun a acc => f a + acc) 0 l <= foldr (fun a acc => g a + acc) 0 l); [|lia].
  apply IH. intros b Hb. apply H. by right.
Qed.

Lemma Zsum_le {A} (f g : A -> Z) l : (forall a, f a <= g a) -> Zsum f l <= Zsum g l.
Proof. intros H. apply Zsum_le_in. intros a _. apply H. Qed.

(** A positive sum has a term that is not 0. *)
Lemma Zsum_pos_elem {A} (f : A -> Z) l : 0 < Zsum f l -> exists a, a ∈ l /\ f a <> 0.
Proof.
  unfold Zsum. induction l as [|a l IH]; simpl; [lia|]. intros H.
  destruct (decide (f a = 0)) as [Hz|Hnz].
  - destruct IH as (b & Hb & Hf); [lia|]. exists b. split; [by right|done].
  - exists a. split; [left|done].
Qed.

Lemma Zsum_fmap {A B} (f : B -> Z) (g : A -> B) l : Zsum f (g <$> l) = Zsum (fun a => f (g a)) l.
Proof. unfold Zsum. induction l as [|a l IH]; [done|]. rewrite fmap_cons. simpl. by rewrite IH. Qed.

Lemma Zsum_const {A} (f : A -> Z) c l :
  (forall a, a ∈ l -> f a = c) -> Zsum f l = Z.of_nat (length l) * c.
Proof.
  unfold Zsum. induction l as [|a l IH]; intros H; simpl; [done|].
  rewrite (H a), IH; [lia| |left]. intros b Hb. apply H. by right.
Qed.

(** When one term makes up the whole of a sum, it makes up the whole of
    every smaller sum. *)
Lemma Zsum_only {A} (f g : A -> Z) l t a :
  (forall b, 0 <= f b <= g b) -> l !! t = Some a -> Zsum g l = g a -> Zsum f l = f a.
Proof.
  intros Hfg. revert t. induction l as [|b l IH]; intros [|t]; try done.
  - intros [= ->]. unfold Zsum. simpl. intros Hg.
    pose proof (Zsum_le f g l (fun c => proj2 (Hfg c))) as Hle.
    pose proof (Zsum_nonneg f l (fun _ c _ => proj1 (Hfg c))) as Hnn.
    unfold Zsum in *. lia.
  - simpl. intros Ha Hg.
    pose proof (Zsum_ge_term g l t a (fun c => Z.le_trans _ _ _ (proj1 (Hfg c)) (proj2 (Hfg c)))
                  Ha) as Hge.
    pose proof (Hfg b) as Hb. unfold Zsum in Hg, Hge |- *. simpl in *.
    specialize (IH t Ha). unfold Zsum in IH. rewrite IH; lia.
Qed.

(** ** Mutexes *)

Lemma nth_mutex_Some ms k b :
  nth_mutex ms k = Some b -> 0 <= k /\ ms !! Z.to_nat k = Some b.
Proof. unfold nth_mutex. destruct (Z.ltb_spec k 0); [done|]. by split. Qed.

Lemma nth_mutex_in_range ms k :
  0 <= k < Z.of_nat (length ms) -> is_Some (nth_mutex ms k).
Proof.
  intros Hk. unfold nth_mutex. destruct (Z.ltb_spec k 0); [lia|].
  apply lookup_lt_is_Some. lia.
Qed.

Lemma nth_mutex_insert ms k j b0 b :
  nth_mutex ms k = Some b0 ->
  nth_mutex (<[Z.to_nat k := b]> ms) j = if decide (j = k) then Some b else nth_mutex ms j.
Proof.
  intros [Hk Hb]%nth_mutex_Some. apply lookup_lt_Some in Hb.
  unfold nth_mutex. destruct (decide (j = k)) as [->|Hne].
  - destruct (Z.ltb_spec k 0); [lia|]. by apply list_lookup_insert_eq.
  - destruct (Z.ltb_spec j 0); [done|]. apply list_lookup_insert_ne. lia.
Qed.

Lemma mutex_lock_Some k ms ms' :
  mutex_lock k ms = Some ms' ->
  nth_mutex ms k = Some false /\ ms' = <[Z.to_nat k := true]> ms.
Proof.
  unfold mutex_lock. destruct (nth_mutex ms k) as [[]|]; [done| |done].
  by intros [= <-].
Qed.

Lemma mutex_unlock_Some k ms ms' :
  mutex_unlock k ms = Some ms' ->
  nth_mutex ms k = Some true /\ ms' = <[Z.to_nat k := false]> ms.
Proof.
  unfold mutex_unlock. destruct (nth_mutex ms k) as [[]|]; [|done|done].
  by intros [= <-].
Qed.

(** ** ResourceRing *)

Module RingFacts.
Import CInt CIntFacts Ring.

(** Inverts [step L N C s t = Some (e, s')] into one goal per statement. *)
Ltac step_inv H p Hp :=
  unfold step in H;
  match type of H with
  | context [phils ?s !! ?t] => destruct (phils s !! t) as [p|] eqn:Hp; simpl in H; [|done]
  end;
  let a := fresh "a" in let k := fresh "k" in
  destruct p as [a k]; simpl in H; destruct a; simpl in H;
  repeat match type of H with
  | context [?x <? ?y] => destruct (Z.ltb_spec x y); simpl in H
  | context [mutex_lock ?f ?fs] =>
      let Hl := fresh "Hlock" in let fs' := fresh "fs" in let Hfs := fresh in
      destruct (mutex_lock f fs) as [fs'|] eqn:Hl; simpl in H;
      [apply mutex_lock_Some in Hl; destruct Hl as [Hl Hfs]; subst fs'|]
  | context [acquire ?l ?n ?w] =>
      let Ha := fresh "Hacquire" in let w' := fresh "w" in
      destruct (acquire l n w) as [w'|] eqn:Ha; simpl in H
  | context [release ?l ?w] =>
      let Hr := fresh "Hrelease" in let w' := fresh "w" in
      destruct (release l w) as [w'|] eqn:Hr; simpl in H
  | context [mutex_unlock ?f ?fs] =>
      let Hl := fresh "Hunlock" in let fs' := fresh "fs" in let Hfs := fresh in
      destruct (mutex_unlock f fs) as [fs'|] eqn:Hl; simpl in H;
      [apply mutex_unlock_Some in Hl; destruct Hl as [Hl Hfs]; subst fs'|]
  end;
  try discriminate H;
  apply (inj Some) in H; apply pair_equal_spec in H; destruct H as [<- <-].

Section Gate.

Variable L : language.
Variables N C : Z.
Hypothesis HN : 1 <= N <= INT_MAX.
Hypothesis HC : C <= INT_MAX.

Lemma acquire_Some w w' :
  acquire L N w = Some w' ->
  0 < free_places L N w /\ free_places L N w' = free_places L N w - 1.
Proof.
  unfold acquire, free_places. destruct L.
  - destruct (Z.ltb_spec 0 w); [|done]. intros [= <-]. lia.
  - destruct (Z.ltb_spec w (N - 1)); [|done]. intros [= <-]. lia.
Qed.

Lemma acquire_None w : acquire L N w = None -> free_places L N w <= 0.
Proof.
  unfold acquire, free_places. destruct L.
  - destruct (Z.ltb_spec 0 w); [done|lia].
  - destruct (Z.ltb_spec w (N - 1)); [done|lia].
Qed.

Lemma release_Some w w' :
  release L w = Some w' -> free_places L N w' = free_places L N w + 1.
Proof.
  unfold release, free_places. destruct L.
  - intros [= <-]. lia.
  - destruct (Z.ltb_spec 0 w); [|done]. intros [= <-]. lia.
Qed.

Lemma release_None w : release L w = None -> N - 1 <= free_places L N w.
Proof.
  unfold release, free_places. destruct L; [done|].
  destruct (Z.ltb_spec 0 w); [done|lia].
Qed.

(** The loop variable of a thread, by where the thread is. *)
Definition i_ok (p : philosopher) : Prop :=
  0 <= i p <= Z.max 0 C /\
  match at_ p with
  | Think => True
  | Finished => C <= i p
  | _ => i p < C
  end.

Record gate_inv (s : ring) : Prop := {
  gi_phils : length (phils s) = Z.to_nat N;
  gi_waiter : free_places L N (waiter s) + admitted_count s = N - 1;
  gi_nonneg : 0 <= free_places L N (waiter s);
  gi_i : forall t p, phils s !! t = Some p -> i_ok p
}.

Lemma free_places_init : free_places L N (waiter (init L N)) = N - 1.
Proof. unfold free_places. destruct L; simpl; lia. Qed.

Lemma gate_inv_init : gate_inv (init L N).
Proof.
  split.
  - apply length_replicate.
  - rewrite free_places_init. unfold admitted_count. simpl.
    rewrite Zsum_replicate. simpl. lia.
  - rewrite free_places_init. lia.
  - intros t p [-> _]%lookup_replicate. unfold i_ok. simpl. lia.
Qed.

Lemma admitted_count_goto s t p p' fs w :
  phils s !! t = Some p ->
  admitted_count (Ring fs w (goto s t p')) =
  admitted_count s - (if admitted p then 1 else 0) + (if admitted p' then 1 else 0).
Proof. intros Hp. unfold admitted_count, goto. simpl. by rewrite (Zsum_insert _ _ _ p). Qed.

Lemma ring_lookup_goto s t p' t' q :
  goto s t p' !! t' = Some q ->
  (t' = t /\ q = p') \/ (t' <> t /\ phils s !! t' = Some q).
Proof.
  unfold goto. intros H. destruct (decide (t' = t)) as [->|Hne].
  - left. split; [done|]. apply list_lookup_insert_Some in H.
    destruct H as [(_ & Heq & _)|[Hne _]]; [by symmetry|by destruct Hne].
  - right. split; [done|]. by rewrite list_lookup_insert_ne in H.
Qed.

Lemma gate_inv_step s t e s' :
  gate_inv s -> step L N C s t = Some (e, s') -> gate_inv s'.
Proof.
  intros [Hlen Hw Hnn Hi] H. step_inv H p Hp; pose proof (Hi _ _ Hp) as [Hi1 Hi2];
    simpl in Hi1, Hi2.
  all: try apply acquire_Some in Hacquire as [Hfree Hacquire].
  all: try apply release_Some in Hrelease.
  all: split; simpl;
    [ by unfold goto; rewrite length_insert
    | rewrite (admitted_count_goto _ _ _ _ _ _ Hp); simpl; lia
    | lia
    | intros t' q [[-> ->]|[_ Hq]]%ring_lookup_goto; [|by eapply Hi];
      unfold i_ok; simpl; try lia ].
  rewrite (succ_small k C) by lia. lia.
Qed.

Lemma gate_inv_exec tr s : exec (step L N C) (init L N) tr s -> gate_inv s.
Proof.
  apply (exec_invariant (step L N C) gate_inv); [apply gate_inv_init|].
  intros ? ? ? ?. apply gate_inv_step.
Qed.

Lemma remaining_nonneg p : i_ok p -> 0 <= remaining C p.
Proof.
  destruct p as [a k]. unfold i_ok, remaining. simpl. destruct a; simpl; lia.
Qed.

Lemma measure_nonneg s : gate_inv s -> 0 <= measure C s.
Proof.
  intros Hs. apply Zsum_nonneg. intros t p Hp.
  apply remaining_nonneg. by eapply gi_i.
Qed.

Lemma measure_init : measure C (init L N) = N * (8 * Z.max 0 C + 1).
Proof.
  unfold measure. simpl. rewrite Zsum_replicate. unfold remaining. simpl.
  rewrite Z2Nat.id; lia.
Qed.

(** Every statement a thread runs brings the system one step closer to the end. *)
Lemma measure_step s t e s' :
  gate_inv s -> step L N C s t = Some (e, s') -> measure C s' = measure C s - 1.
Proof.
  intros [_ _ _ Hi] H. step_inv H p Hp; pose proof (Hi _ _ Hp) as [Hi1 Hi2];
    simpl in Hi1, Hi2.
  all: unfold measure, goto; simpl; rewrite (Zsum_insert _ _ _ _ _ Hp);
    unfold remaining; simpl; try lia.
  rewrite (succ_small k C) by lia. lia.
Qed.

Lemma exec_length tr s :
  exec (step L N C) (init L N) tr s ->
  Z.of_nat (length tr) + measure C s = measure C (init L N).
Proof.
  induction 1 as [|tr s t e s' Hex IH Hstep]; simpl; [lia|].
  rewrite length_app. simpl.
  rewrite (measure_step s t e s'); [lia|by eapply gate_inv_exec|done].
Qed.

(** Program order: what a thread did so far is read off its state. *)
Lemma ring_proj_history tr s :
  exec (step L N C) (init L N) tr s ->
  forall t p, phils s !! t = Some p -> proj t tr = history N (Z.of_nat t) p.
Proof.
  induction 1 as [|tr s t0 e s' Hex IH Hstep].
  - intros t p [-> _]%lookup_replicate. done.
  - apply gate_inv_exec in Hex as [_ _ _ Hi].
    intros t q Hq. rewrite proj_snoc.
    step_inv Hstep p Hp; pose proof (Hi _ _ Hp) as [Hi1 Hi2]; simpl in Hi1, Hi2;
      simpl in Hq; apply ring_lookup_goto in Hq as [[-> ->]|[Hne Hq]].
    all: try (rewrite decide_False by done; rewrite app_nil_r; by apply IH).
    all: rewrite decide_True by done; rewrite (IH _ _ Hp);
      unfold history; simpl; rewrite <- ?app_assoc; simpl; try done.
    rewrite (succ_small k C), Z2Nat.inj_add by lia.
    change (Z.to_nat 1) with 1%nat. rewrite Nat.add_1_r, replicate_S_end.
    by rewrite join_app, <- app_assoc, app_nil_r.
Qed.

Lemma tickets_history tr s t p :
  exec (step L N C) (init L N) tr s -> phils s !! t = Some p ->
  tickets t tr = if admitted p then 1 else 0.
Proof.
  intros Hex Hp. unfold tickets. rewrite (ring_proj_history _ _ Hex _ _ Hp).
  unfold history. rewrite !Zsum_app, Zsum_join_replicate.
  destruct p as [a k]. unfold admitted. simpl.
  destruct a; unfold Zsum; simpl; lia.
Qed.

Lemma forks_in_hand_history tr s t p :
  exec (step L N C) (init L N) tr s -> phils s !! t = Some p ->
  forks_in_hand t tr =
  match at_ p with
  | TakeSecond | PutRight => 1
  | Eating | PutLeft => 2
  | _ => 0
  end.
Proof.
  intros Hex Hp. unfold forks_in_hand. rewrite (ring_proj_history _ _ Hex _ _ Hp).
  unfold history. rewrite !Zsum_app, Zsum_join_replicate.
  destruct p as [a k]. simpl.
  destruct a; unfold Zsum; simpl; lia.
Qed.

Lemma locked_by_history tr s t p :
  exec (step L N C) (init L N) tr s -> phils s !! t = Some p ->
  let id := Z.of_nat t in
  locked_by t tr =
  mjoin (replicate (Z.to_nat (i p)) [first_fork N id; second_fork N id])
  ++ match at_ p with
     | TakeSecond => [first_fork N id]
     | Eating | PutLeft | PutRight | LeaveWaiter => [first_fork N id; second_fork N id]
     | _ => []
     end.
Proof.
  intros Hex Hp. unfold locked_by. rewrite (ring_proj_history _ _ Hex _ _ Hp).
  unfold history. rewrite !omap_app, omap_join_replicate.
  destruct p as [a k]. simpl. by destruct a.
Qed.

End Gate.

Section Forks.

Variable L : language.
Variables N C : Z.
Hypothesis HN : 2 <= N <= INT_MAX.
Hypothesis HC : C <= INT_MAX.

Lemma right_eq id : 0 <= id < N -> right N id = if id + 1 =? N then 0 else id + 1.
Proof. intros Hid. unfold right. apply rem_succ; lia. Qed.

(** The two forks of a philosopher are two forks of the table, and the
    first one locked has the smaller index. *)
Lemma fork_order id :
  0 <= id < N ->
  first_fork N id = Z.min (left id) (right N id) /\
  second_fork N id = Z.max (left id) (right N id) /\
  0 <= first_fork N id < second_fork N id /\ second_fork N id < N.
Proof.
  intros Hid. unfold first_fork, second_fork. rewrite right_eq by done.
  unfold left. destruct (Z.eqb_spec (id + 1) N);
    destruct (Z.ltb_spec id 0); destruct (Z.ltb_spec id (id + 1)); lia.
Qed.

Lemma left_right id :
  0 <= id < N ->
  left id <> right N id /\ 0 <= left id < N /\ 0 <= right N id < N /\
  ((first_fork N id = left id /\ second_fork N id = right N id) \/
   (first_fork N id = right N id /\ second_fork N id = left id)).
Proof.
  intros Hid. unfold first_fork, second_fork. rewrite right_eq by done.
  unfold left. destruct (Z.eqb_spec (id + 1) N);
    destruct (Z.ltb_spec id 0); destruct (Z.ltb_spec id (id + 1)); lia.
Qed.

(** Thread [t] holds fork [f] in state [s]. *)
Definition holding (s : ring) (t : nat) (f : Z) : Prop :=
  exists p, phils s !! t = Some p /\ holds N (Z.of_nat t) (at_ p) f.

Record fork_inv (s : ring) : Prop := {
  fi_forks : length (forks s) = Z.to_nat N;
  fi_locked : forall f, nth_mutex (forks s) f = Some true -> exists t, holding s t f;
  fi_held : forall t f, holding s t f -> nth_mutex (forks s) f = Some true;
  fi_excl : forall t1 t2 f, holding s t1 f -> holding s t2 f -> t1 = t2
}.

Lemma fork_inv_init : fork_inv (init L N).
Proof.
  split; simpl.
  - apply length_replicate.
  - intros f [_ [? _]%lookup_replicate]%nth_mutex_Some. done.
  - intros t f (p & [-> _]%lookup_replicate & []).
  - intros t1 t2 f (p & [-> _]%lookup_replicate & []).
Qed.

Lemma holding_other s t0 p' fs w t f :
  t <> t0 -> holding (Ring fs w (goto s t0 p')) t f <-> holding s t f.
Proof.
  intros Hne. unfold holding, goto. simpl. by rewrite list_lookup_insert_ne.
Qed.

Lemma holding_self s t0 p p' fs w f :
  phils s !! t0 = Some p ->
  holding (Ring fs w (goto s t0 p')) t0 f <-> holds N (Z.of_nat t0) (at_ p') f.
Proof.
  intros Hp%lookup_lt_Some. unfold holding, goto. simpl.
  rewrite list_lookup_insert_eq by done. split.
  - by intros (? & [= <-] & ?).
  - by exists p'.
Qed.

(** A statement that touches no fork. *)
Lemma fork_inv_skip s t0 p p' w :
  phils s !! t0 = Some p ->
  (forall f, holds N (Z.of_nat t0) (at_ p') f <-> holds N (Z.of_nat t0) (at_ p) f) ->
  fork_inv s -> fork_inv (Ring (forks s) w (goto s t0 p')).
Proof.
  intros Hp Hsame [Hlen Hlocked Hheld Hexcl].
  assert (Hiff : forall t f,
    holding (Ring (forks s) w (goto s t0 p')) t f <-> holding s t f).
  { intros t f. destruct (decide (t = t0)) as [->|Hne].
    - rewrite (holding_self _ _ p) by done. rewrite Hsame.
      split; [by exists p|]. by intros (? & ? & ?); simplify_eq.
    - by apply holding_other. }
  split; simpl.
  - done.
  - intros f [t Ht]%Hlocked. exists t. by apply Hiff.
  - intros t f Ht%Hiff. by eapply Hheld.
  - intros t1 t2 f H1%Hiff H2%Hiff. by eapply Hexcl.
Qed.

(** [pthread_mutex_lock] of fork [f0] by thread [t0]. *)
Lemma fork_inv_lock s t0 p p' w f0 :
  phils s !! t0 = Some p ->
  nth_mutex (forks s) f0 = Some false ->
  (forall f, holds N (Z.of_nat t0) (at_ p') f <->
             holds N (Z.of_nat t0) (at_ p) f \/ f = f0) ->
  fork_inv s -> fork_inv (Ring (<[Z.to_nat f0 := true]> (forks s)) w (goto s t0 p')).
Proof.
  intros Hp Hfree Hmore [Hlen Hlocked Hheld Hexcl].
  assert (Hold : forall f, holds N (Z.of_nat t0) (at_ p) f <-> holding s t0 f).
  { intros f. split; [by exists p|]. by intros (? & ? & ?); simplify_eq. }
  split; simpl.
  - by rewrite length_insert.
  - intros f. rewrite (nth_mutex_insert _ _ _ false) by done.
    destruct (decide (f = f0)) as [->|Hne].
    + intros _. exists t0. rewrite (holding_self _ _ p) by done. apply Hmore. by right.
    + intros [t Ht]%Hlocked. exists t. destruct (decide (t = t0)) as [->|Hne'].
      * rewrite (holding_self _ _ p) by done. apply Hmore. left. by apply Hold.
      * by apply holding_other.
  - intros t f Ht. rewrite (nth_mutex_insert _ _ _ false) by done.
    destruct (decide (f = f0)) as [->|Hne]; [done|].
    destruct (decide (t = t0)) as [->|Hne'].
    + rewrite (holding_self _ _ p) in Ht by done.
      apply Hmore in Ht as [Ht| ->]; [|done]. apply (Hheld t0). by apply Hold.
    + apply holding_other in Ht; [|done]. by eapply Hheld.
  - assert (Hnew : forall t f, t <> t0 ->
      holding (Ring (<[Z.to_nat f0 := true]> (forks s)) w (goto s t0 p')) t0 f ->
      holding s t f -> False).
    { intros t f Hne H0 Ht. rewrite (holding_self _ _ p) in H0 by done.
      apply Hmore in H0 as [H0| ->].
      - apply Hne. apply (Hexcl t t0 f); [done|]. by apply Hold.
      - apply Hheld in Ht. congruence. }
    intros t1 t2 f H1 H2.
    destruct (decide (t1 = t0)) as [->|Hne1]; destruct (decide (t2 = t0)) as [->|Hne2];
      try done.
    + apply holding_other in H2; [|done]. by destruct (Hnew t2 f).
    + apply holding_other in H1; [|done]. by destruct (Hnew t1 f).
    + apply holding_other in H1; [|done]. apply holding_other in H2; [|done].
      by eapply Hexcl.
Qed.

(** [pthread_mutex_unlock] of fork [f0] by thread [t0]. *)
Lemma fork_inv_unlock s t0 p p' w f0 :
  phils s !! t0 = Some p ->
  nth_mutex (forks s) f0 = Some true ->
  (forall f, holds N (Z.of_nat t0) (at_ p) f <->
             holds N (Z.of_nat t0) (at_ p') f \/ f = f0) ->
  ~ holds N (Z.of_nat t0) (at_ p') f0 ->
  fork_inv s -> fork_inv (Ring (<[Z.to_nat f0 := false]> (forks s)) w (goto s t0 p')).
Proof.
  intros Hp Htaken Hless Hgone [Hlen Hlocked Hheld Hexcl].
  assert (Hold : forall f, holds N (Z.of_nat t0) (at_ p) f <-> holding s t0 f).
  { intros f. split; [by exists p|]. by intros (? & ? & ?); simplify_eq. }
  assert (Hmine : holding s t0 f0). { apply Hold, Hless. by right. }
  split; simpl.
  - by rewrite length_insert.
  - intros f. rewrite (nth_mutex_insert _ _ _ true) by done.
    destruct (decide (f = f0)) as [->|Hne]; [done|].
    intros [t Ht]%Hlocked. exists t. destruct (decide (t = t0)) as [->|Hne'].
    + rewrite (holding_self _ _ p) by done.
      apply Hold, Hless in Ht as [Ht|Ht]; done.
    + by apply holding_other.
  - intros t f Ht. rewrite (nth_mutex_insert _ _ _ true) by done.
    destruct (decide (t = t0)) as [->|Hne'].
    + rewrite (holding_self _ _ p) in Ht by done.
      destruct (decide (f = f0)) as [->|Hne]; [done|].
      apply (Hheld t0), Hold, Hless. by left.
    + apply holding_other in Ht; [|done].
      destruct (decide (f = f0)) as [->|Hne]; [|by eapply Hheld].
      destruct Hne'. by eapply Hexcl.
  - assert (Hnew : forall t f,
      holding (Ring (<[Z.to_nat f0 := false]> (forks s)) w (goto s t0 p')) t0 f ->
      holding s t f -> t = t0).
    { intros t f H0 Ht. rewrite (holding_self _ _ p) in H0 by done.
      apply (Hexcl t t0 f); [done|]. apply Hold, Hless. by left. }
    intros t1 t2 f H1 H2.
    destruct (decide (t1 = t0)) as [->|Hne1]; destruct (decide (t2 = t0)) as [->|Hne2];
      try done.
    + apply holding_other in H2; [|done]. symmetry. by eapply Hnew.
    + apply holding_other in H1; [|done]. by eapply Hnew.
    + apply holding_other in H1; [|done]. apply holding_other in H2; [|done].
      by eapply Hexcl.
Qed.

Lemma thread_id s t p :
  gate_inv L N C s -> phils s !! t = Some p -> 0 <= Z.of_nat t < N.
Proof. intros [Hlen _ _ _] Hp%lookup_lt_Some. lia. Qed.

Lemma fork_inv_step s t e s' :
  gate_inv L N C s -> fork_inv s -> step L N C s t = Some (e, s') -> fork_inv s'.
Proof.
  intros Hg Hf H. step_inv H p Hp;
    destruct (left_right (Z.of_nat t)) as (Hlr & _ & _ & Hfs);
    try (by eapply thread_id).
  - apply (fork_inv_skip _ _ _ _ _ Hp); simpl; tauto.
  - apply (fork_inv_skip _ _ _ _ _ Hp); simpl; tauto.
  - apply (fork_inv_skip _ _ _ _ _ Hp); simpl; tauto.
  - apply (fork_inv_lock _ _ _ _ _ _ Hp); simpl; tauto.
  - apply (fork_inv_lock _ _ _ _ _ _ Hp); simpl; try tauto.
    intros f. destruct Hfs as [[-> ->]|[-> ->]]; tauto.
  - apply (fork_inv_skip _ _ _ _ _ Hp); simpl; tauto.
  - apply (fork_inv_unlock _ _ _ _ _ _ Hp); simpl; tauto.
  - apply (fork_inv_unlock _ _ _ _ _ _ Hp); simpl; tauto.
  - apply (fork_inv_skip _ _ _ _ _ Hp); simpl; tauto.
Qed.

Lemma fork_inv_exec tr s : exec (step L N C) (init L N) tr s -> fork_inv s.
Proof.
  induction 1 as [|tr s t e s' Hex IH Hstep]; [apply fork_inv_init|].
  eapply fork_inv_step; [|done..]. eapply gate_inv_exec; [lia|done..].
Qed.

(** Mutual exclusion: a fork is never held by two philosophers. *)
Lemma mutual_exclusion tr s t1 t2 f :
  exec (step L N C) (init L N) tr s -> holding s t1 f -> holding s t2 f -> t1 = t2.
Proof. intros Hex. apply fi_excl. by eapply fork_inv_exec. Qed.

(** *** Absence of deadlock *)

(** A thread that cannot run is waiting for the waiter or for a fork, or
    has returned. *)
Lemma blocked_at s t p :
  gate_inv L N C s -> fork_inv s ->
  phils s !! t = Some p -> step L N C s t = None ->
  match at_ p with
  | AskWaiter => free_places L N (waiter s) <= 0
  | TakeFirst => nth_mutex (forks s) (first_fork N (Z.of_nat t)) = Some true
  | TakeSecond => nth_mutex (forks s) (second_fork N (Z.of_nat t)) = Some true
  | Finished => True
  | _ => False
  end.
Proof.
  intros Hg Hf Hp H.
  destruct (fork_order (Z.of_nat t)) as (_ & _ & H1 & H2); [by eapply thread_id|].
  assert (Hrange : forall f, 0 <= f < N -> nth_mutex (forks s) f <> Some false ->
                             nth_mutex (forks s) f = Some true).
  { intros f Hr Hne. destruct (nth_mutex_in_range (forks s) f) as [[] Hb]; try done.
    rewrite (fi_forks _ Hf). lia. }
  assert (Hmine : forall f, holds N (Z.of_nat t) (at_ p) f ->
                            nth_mutex (forks s) f = Some true).
  { intros f Hh. apply (fi_held _ Hf t). by exists p. }
  unfold step in H. rewrite Hp in H. simpl in H.
  destruct p as [a k]. simpl in *. destruct a; simpl in H.
  - by destruct (k <? C).
  - destruct (acquire L N (waiter s)) eqn:Ha; [done|]. by apply acquire_None.
  - apply Hrange; [lia|]. intros Hfree. unfold mutex_lock in H. by rewrite Hfree in H.
  - apply Hrange; [lia|]. intros Hfree. unfold mutex_lock in H. by rewrite Hfree in H.
  - done.
  - unfold mutex_unlock in H. rewrite (Hmine (left (Z.of_nat t))) in H; [done|by left].
  - unfold mutex_unlock in H. by rewrite (Hmine (right N (Z.of_nat t))) in H.
  - destruct (release L (waiter s)) eqn:Hr; [done|]. apply (release_None L N) in Hr.
    pose proof (gi_waiter _ _ _ _ Hg) as Hw.
    assert (1 <= admitted_count s); [|lia].
    apply (Zsum_ge_term (fun q => if admitted q then 1 else 0) (phils s) t
             (Philosopher LeaveWaiter k)); [|done].
    intros q. destruct (admitted q); lia.
  - done.
Qed.

(** Ordered acquisition: when no thread can run, no fork is locked. The
    holder of a locked fork would wait for a fork of higher index, whose
    holder would wait for yet a higher one, beyond the table. *)
Lemma stuck_no_fork_locked s :
  gate_inv L N C s -> fork_inv s -> stuck (step L N C) s ->
  forall n f, (Z.to_nat (N - f) <= n)%nat -> 0 <= f < N ->
              nth_mutex (forks s) f = Some true -> False.
Proof.
  intros Hg Hf Hstuck. induction n as [|n IH]; intros f Hn Hr Hlocked; [lia|].
  destruct (fi_locked _ Hf f Hlocked) as (t & p & Hp & Hh).
  pose proof (blocked_at s t p Hg Hf Hp (Hstuck t)) as Hb.
  destruct (fork_order (Z.of_nat t)) as (_ & _ & H1 & H2); [by eapply thread_id|].
  destruct p as [a k]. simpl in *. destruct a; simpl in Hh; try done.
  subst f. apply (IH (second_fork N (Z.of_nat t))); [lia|lia|done].
Qed.

(** Deadlock freedom: when no thread can run, every philosopher has returned. *)
Lemma stuck_all_finished s :
  gate_inv L N C s -> fork_inv s -> stuck (step L N C) s -> all_finished s.
Proof.
  intros Hg Hf Hstuck.
  assert (Hfork : forall t p, phils s !! t = Some p ->
                  at_ p <> TakeFirst /\ at_ p <> TakeSecond).
  { intros t p Hp.
    pose proof (blocked_at s t p Hg Hf Hp (Hstuck t)) as Hb.
    destruct (fork_order (Z.of_nat t)) as (_ & _ & H1 & H2); [by eapply thread_id|].
    split; intros Ha; rewrite Ha in Hb.
    - eapply (stuck_no_fork_locked s Hg Hf Hstuck _ (first_fork N (Z.of_nat t)));
        [done|lia|done].
    - eapply (stuck_no_fork_locked s Hg Hf Hstuck _ (second_fork N (Z.of_nat t)));
        [done|lia|done]. }
  assert (Hnone : admitted_count s = 0).
  { apply Zsum_zero. intros p [t Hp]%list_elem_of_lookup.
    pose proof (blocked_at s t p Hg Hf Hp (Hstuck t)) as Hb.
    destruct (Hfork t p Hp) as [H1 H2].
    unfold admitted. by destruct (at_ p). }
  intros t p Hp.
  pose proof (blocked_at s t p Hg Hf Hp (Hstuck t)) as Hb.
  destruct (Hfork t p Hp) as [H1 H2].
  destruct (at_ p); try done.
  pose proof (gi_waiter _ _ _ _ Hg). lia.
Qed.

(** Some thread can run unless every thread is stuck. *)
Lemma stuck_dec s :
  stuck (step L N C) s \/ exists t e s', step L N C s t = Some (e, s').
Proof.
  assert (Hn : forall n, (forall t, (t < n)%nat -> step L N C s t = None) \/
                         exists t e s', step L N C s t = Some (e, s')).
  { induction n as [|n [IH|IH]]; [left; lia| |by right].
    destruct (step L N C s n) as [[e s']|] eqn:Hs; [right; eauto|].
    left. intros t Ht. destruct (decide (t = n)) as [->|]; [done|]. apply IH. lia. }
  destruct (Hn (length (phils s))) as [Hnone|Hsome]; [left|by right].
  intros t. destruct (Nat.lt_ge_cases t (length (phils s))) as [Hlt|Hge]; [by apply Hnone|].
  unfold step. by rewrite (lookup_ge_None_2 _ _ Hge).
Qed.

Lemma progress tr s :
  exec (step L N C) (init L N) tr s ->
  all_finished s \/ exists t e s', step L N C s t = Some (e, s').
Proof.
  intros Hex. destruct (stuck_dec s) as [Hstuck|Hstep]; [left|by right].
  apply stuck_all_finished; [|by eapply fork_inv_exec|done].
  eapply gate_inv_exec; [lia|done..].
Qed.

(** Every run extends to a run at whose end every philosopher has returned. *)
Lemma completes tr s :
  exec (step L N C) (init L N) tr s ->
  exists tr' s', exec (step L N C) (init L N) (tr ++ tr') s' /\ all_finished s'.
Proof.
  intros Hex.
  remember (Z.to_nat (measure C s)) as n eqn:Hn. revert tr s Hex Hn.
  induction n as [n IH] using lt_wf_ind. intros tr s Hex Hn.
  destruct (progress tr s Hex) as [Hfin|(t & e & s' & Hstep)].
  - exists [], s. by rewrite app_nil_r.
  - assert (Hg : gate_inv L N C s) by (eapply gate_inv_exec; [lia|done..]).
    assert (Hg' : gate_inv L N C s') by (eapply gate_inv_step; [lia|done..]).
    pose proof (measure_step L N C HC s t e s' Hg Hstep) as Hm.
    pose proof (measure_nonneg L N C s' Hg') as Hnn.
    destruct (IH (Z.to_nat (measure C s')) ltac:(lia) (tr ++ [(t, e)]) s')
      as (tr' & s'' & Hex' & Hfin); [by eapply exec_step|done|].
    exists ((t, e) :: tr'), s''. split; [|done].
    by rewrite <- app_assoc in Hex'.
Qed.

End Forks.

(** C3. Every philosopher locks the lower-indexed of its two forks before
    the higher-indexed one: in every run of the table, in C and in Go, the
    forks that
    philosopher [id] (with [left = id], [right = (id + 1) % N]) has locked
    so far are, in order, [lo; hi; lo; hi; ...] with [lo] the smaller and
    [hi] the larger of [left] and [right]; for the last philosopher
    [right < left] and the first fork locked is [right]. *)
Theorem lower_fork_locked_first L N C tr s t :
  2 <= N <= INT_MAX -> C <= INT_MAX ->
  exec (step L N C) (init L N) tr s -> (t < Z.to_nat N)%nat ->
  let id := Z.of_nat t in
  let lo := Z.min (left id) (right N id) in
  let hi := Z.max (left id) (right N id) in
  lo < hi /\
  (exists k, locked_by t tr `prefix_of` mjoin (replicate k [lo; hi])) /\
  (id = N - 1 -> right N id < left id /\ first_fork N id = right N id).
Proof.
  intros HN HC Hex Ht id lo hi.
  destruct (fork_order N HN id) as (Hlo & Hhi & Hlt & _); [lia|].
  fold lo in Hlo. fold hi in Hhi. split; [lia|]. split.
  - assert (Hg : gate_inv L N C s) by (eapply gate_inv_exec; [lia|done..]).
    destruct (lookup_lt_is_Some_2 (phils s) t) as [p Hp].
    { rewrite (gi_phils _ _ _ _ Hg). lia. }
    exists (S (Z.to_nat (i p))).
    rewrite (locked_by_history L N C ltac:(lia) HC tr s t p Hex Hp).
    fold id. rewrite Hlo, Hhi, replicate_S_end, join_app. simpl.
    apply prefix_app. destruct (at_ p).
    all: first [ apply prefix_nil | by exists [hi] | by exists [] ].
  - intros Hlast. unfold first_fork. rewrite (right_eq N HN id) by lia.
    unfold left. rewrite (proj2 (Z.eqb_eq (id + 1) N)) by lia.
    destruct (Z.ltb_spec id 0); lia.
Qed.

(** Five philosophers; the last one (4, with [left = 4] and [right = 0])
    runs up to its second lock: it has locked fork 0, then fork 4. *)
Lemma lower_fork_locked_first_witness :
  exists tr s,
    run (step Posix 5 2) [4; 4; 4; 4]%nat (init Posix 5) = Some (tr, s) /\
    locked_by 4 tr = [0; 4] /\
    Z.min (left 4) (right 5 4) < Z.max (left 4) (right 5 4) /\
    (exists k, locked_by 4 tr `prefix_of`
                 mjoin (replicate k [Z.min (left 4) (right 5 4); Z.max (left 4) (right 5 4)])) /\
    (4 = 5 - 1 -> right 5 4 < left 4 /\ first_fork 5 4 = right 5 4).
Proof.
  eexists _, _. split; [vm_compute; reflexivity|]. split; [reflexivity|].
  eapply (lower_fork_locked_first Posix 5 2 _ _ 4%nat).
  - unfold INT_MAX. lia.
  - unfold INT_MAX. lia.
  - apply (run_exec _ [4; 4; 4; 4]%nat). vm_compute. reflexivity.
  - simpl. lia.
Defined.

(** C4. The waiter starts with [N - 1] tickets (in C a semaphore of value
    [N - 1], in Go an empty channel of capacity [N - 1]); a philosopher
    takes a ticket ([sem_wait], the send of Go) when it has none and no
    fork, locks and unlocks forks only with its ticket in hand, and gives
    the ticket back ([sem_post], the receive of Go) only with no fork left
    in hand; the philosophers with a ticket are exactly those between
    taking and giving back, and with the tickets left at the waiter they
    always add up to [N - 1]: at most [N - 1] philosophers are in the
    acquisition phase at once. *)
Theorem waiter_admits_at_most_N_minus_1 L N C tr s :
  1 <= N <= INT_MAX -> C <= INT_MAX ->
  exec (step L N C) (init L N) tr s ->
  (waiter (init Posix N) = N - 1 /\ waiter (init Golang N) = 0 /\
   free_places L N (waiter (init L N)) = N - 1) /\
  (forall t e s', step L N C s t = Some (e, s') ->
     match e with
     | EvSemWait => tickets t tr = 0 /\ forks_in_hand t tr = 0
     | EvLock _ | EvUnlock _ => tickets t tr = 1
     | EvSemPost => tickets t tr = 1 /\ forks_in_hand t tr = 0
     | _ => True
     end) /\
  (forall t p, phils s !! t = Some p -> tickets t tr = if admitted p then 1 else 0) /\
  0 <= free_places L N (waiter s) /\
  free_places L N (waiter s) + Zsum (fun t => tickets t tr) (seq 0 (Z.to_nat N)) = N - 1 /\
  admitted_count s <= N - 1.
Proof.
  intros HN HC Hex.
  assert (Hg : gate_inv L N C s) by (by eapply gate_inv_exec).
  assert (Htk : forall t p, phils s !! t = Some p ->
                            tickets t tr = if admitted p then 1 else 0).
  { intros t p Hp. by eapply tickets_history. }
  destruct Hg as [Hlen Hw Hnn Hi].
  split; [by rewrite free_places_init|]. split; [|split; [done|split; [done|split]]].
  - intros t e s' Hstep. step_inv Hstep p Hp; try done.
    all: rewrite ?(Htk _ _ Hp),
           ?(forks_in_hand_history L N C HN HC tr s t _ Hex Hp); done.
  - rewrite <- Hlen, (Zsum_seq (fun p => if admitted p then 1 else 0)); [done|].
    intros t p Hp. by apply Htk.
  - lia.
Qed.

(** Three philosophers in Go, a channel of capacity two: when
    philosophers 0 and 1 have sent, the channel is full and philosopher 2
    cannot send. *)
Lemma waiter_admits_at_most_N_minus_1_witness :
  exists tr s,
    run (step Golang 3 1) [0; 0; 1; 1; 2]%nat (init Golang 3) = Some (tr, s) /\
    step Golang 3 1 s 2%nat = None /\
    waiter s = 2 /\ admitted_count s = 2 /\
    free_places Golang 3 (waiter s)
      + Zsum (fun t => tickets t tr) (seq 0 (Z.to_nat 3)) = 3 - 1.
Proof.
  eexists _, _. split; [vm_compute; reflexivity|].
  split; [reflexivity|]. split; [reflexivity|]. split; [reflexivity|].
  refine (proj1 (proj2 (proj2 (proj2 (proj2
    (waiter_admits_at_most_N_minus_1 Golang 3 1 _ _ _ _ _)))))).
  - unfold INT_MAX. lia.
  - unfold INT_MAX. lia.
  - apply (run_exec _ [0; 0; 1; 1; 2]%nat). vm_compute. reflexivity.
Defined.

(** C9. Deadlock freedom, in C and in Go, for every table of two
    philosophers or more and every number of cycles: a run has at most [N * (8 * cycles + 1)] steps;
    as long as some philosopher has not returned, some thread can run;
    every run extends to one at whose end all philosophers have returned;
    and a philosopher that has returned has gone through exactly [cycles]
    full cycles. *)
Theorem ring_deadlock_free L N C tr s :
  2 <= N <= INT_MAX -> 1 <= C <= INT_MAX ->
  exec (step L N C) (init L N) tr s ->
  Z.of_nat (length tr) <= N * (8 * C + 1) /\
  (all_finished s \/ exists t e s', step L N C s t = Some (e, s')) /\
  (exists tr' s', exec (step L N C) (init L N) (tr ++ tr') s' /\ all_finished s') /\
  (all_finished s -> forall t, (t < Z.to_nat N)%nat ->
     proj t tr = mjoin (replicate (Z.to_nat C) (cycle_events N (Z.of_nat t))) ++ [EvReturn]).
Proof.
  intros HN HC Hex.
  assert (Hg : gate_inv L N C s) by (eapply gate_inv_exec; [lia|lia|done]).
  split; [|split; [|split]].
  - pose proof (exec_length L N C ltac:(lia) ltac:(lia) tr s Hex) as Hlen.
    pose proof (measure_nonneg L N C s Hg). rewrite measure_init in Hlen by lia. lia.
  - apply (progress L N C HN ltac:(lia) tr s Hex).
  - apply (completes L N C HN ltac:(lia) tr s Hex).
  - intros Hfin t Ht.
    destruct (lookup_lt_is_Some_2 (phils s) t) as [p Hp].
    { rewrite (gi_phils _ _ _ _ Hg). lia. }
    rewrite (ring_proj_history L N C ltac:(lia) ltac:(lia) tr s Hex t p Hp).
    pose proof (gi_i _ _ _ _ Hg t p Hp) as [Hi1 Hi2].
    unfold history. rewrite (Hfin t p Hp) in *. simpl.
    replace (i p) with C by lia. done.
Qed.

(** Two philosophers, one cycle each, one after the other: the run of 18
    steps ends with both returned. *)
Lemma ring_deadlock_free_witness :
  exists tr s,
    run (step Posix 2 1) (replicate 9 0 ++ replicate 9 1)%nat (init Posix 2)
      = Some (tr, s) /\
    Z.of_nat (length tr) = 2 * (8 * 1 + 1) /\
    phils s = [Philosopher Finished 1; Philosopher Finished 1] /\
    (all_finished s \/ exists t e s', step Posix 2 1 s t = Some (e, s')).
Proof.
  eexists _, _. split; [vm_compute; reflexivity|].
  split; [reflexivity|]. split; [reflexivity|].
  refine (proj1 (proj2 (ring_deadlock_free Posix 2 1 _ _ _ _ _))).
  - unfold INT_MAX. lia.
  - unfold INT_MAX. lia.
  - apply (run_exec _ (replicate 9 0 ++ replicate 9 1)%nat). vm_compute. reflexivity.
Defined.

End RingFacts.

(** ** BoundedChannel *)

Module ChannelFacts.
Import CInt CIntFacts Channel.

#[local] Arguments advance : simpl never.
#[local] Arguments store : simpl never.
#[local] Arguments load : simpl never.

(** Inverts [step size rand s t = Some (e, s')] into one goal per statement. *)
Ltac step_inv H th Hth :=
  unfold step in H;
  match type of H with
  | context [threads ?s !! ?t] =>
      destruct (threads s !! t) as [th|] eqn:Hth; simpl in H; [|done]
  end;
  let a := fresh "a" in let k := fresh "k" in let v := fresh "v" in let n := fresh "n" in
  destruct th as [a k v n]; simpl in H; destruct a; simpl in H;
  repeat match type of H with
  | context [?x <? ?y] => destruct (Z.ltb_spec x y); simpl in H
  | context [if mutex_buffer ?s then _ else _] =>
      let Hm := fresh "Hmutex" in destruct (mutex_buffer s) eqn:Hm; simpl in H
  | context [store ?b ?j ?x] =>
      let Hs := fresh "Hstore" in destruct (store b j x) eqn:Hs; simpl in H
  | context [load ?b ?j] =>
      let Hl := fresh "Hload" in destruct (load b j) eqn:Hl; simpl in H
  | context [advance ?m ?j] =>
      let Ha := fresh "Hadvance" in destruct (advance m j) eqn:Ha; simpl in H
  end;
  try discriminate H;
  apply (inj Some) in H; apply pair_equal_spec in H; destruct H as [<- <-].

Section Facts.

Variable buffer_size : Z.
Variable rand : nat -> Z -> Z.
Variables num_producers num_consumers items_per_producer : Z.

Abbreviation start := (init buffer_size num_producers num_consumers items_per_producer).
Abbreviation next := (step buffer_size rand).

Lemma chan_lookup_goto s t th' t' q :
  goto s t th' !! t' = Some q ->
  (t' = t /\ q = th') \/ (t' <> t /\ threads s !! t' = Some q).
Proof.
  unfold goto. intros H. destruct (decide (t' = t)) as [->|Hne].
  - left. split; [done|]. apply list_lookup_insert_Some in H.
    destruct H as [(_ & Heq & _)|[Hne _]]; [by symmetry|by destruct Hne].
  - right. split; [done|]. by rewrite list_lookup_insert_ne in H.
Qed.

Lemma lookup_start t th :
  threads start !! t = Some th ->
  th = Thread CSemWait 0 0 (-1) \/ th = Thread PLoop 0 0 items_per_producer.
Proof.
  simpl. intros [H|[_ H]]%lookup_app_Some; apply lookup_replicate in H as [-> _]; auto.
Qed.

(** *** The semaphores count the free and the filled slots *)

Definition count_inv (s : channel) : Prop :=
  full_slots s + empty_slots s + in_progress_count s = buffer_size.

Definition sem_inv (s : channel) : Prop :=
  0 <= full_slots s /\ 0 <= empty_slots s.

Lemma in_progress_count_goto s t th th' b k1 k2 e f m :
  threads s !! t = Some th ->
  in_progress_count (Chan b k1 k2 e f m (goto s t th')) =
  in_progress_count s - (if in_progress th then 1 else 0) + (if in_progress th' then 1 else 0).
Proof. intros Hp. unfold in_progress_count, goto. simpl. by rewrite (Zsum_insert _ _ _ th). Qed.

Lemma count_inv_init : count_inv start.
Proof.
  unfold count_inv, in_progress_count. simpl.
  rewrite Zsum_app, !Zsum_replicate. simpl. lia.
Qed.

Lemma count_inv_step s t e s' :
  count_inv s -> next s t = Some (e, s') -> count_inv s'.
Proof.
  unfold count_inv. intros Hsum H. step_inv H th Hth.
  all: simpl; rewrite (in_progress_count_goto _ _ _ _ _ _ _ _ _ _ Hth); simpl; lia.
Qed.

Lemma count_inv_exec tr s : exec next start tr s -> count_inv s.
Proof.
  apply (exec_invariant next count_inv); [apply count_inv_init|].
  intros ? ? ? ?. apply count_inv_step.
Qed.

Lemma sem_inv_step s t e s' :
  sem_inv s -> next s t = Some (e, s') -> sem_inv s'.
Proof.
  unfold sem_inv. intros Hs H. step_inv H th Hth; simpl; lia.
Qed.

Lemma sem_inv_exec tr s : 0 <= buffer_size -> exec next start tr s -> sem_inv s.
Proof.
  intros Hsize. apply (exec_invariant next sem_inv); [unfold sem_inv; simpl; lia|].
  intros ? ? ? ?. apply sem_inv_step.
Qed.

Lemma in_progress_count_nonneg s : 0 <= in_progress_count s.
Proof. apply Zsum_nonneg. intros t th _. destruct (in_progress th); lia. Qed.

(** *** Program order *)

Definition history (k : nat) (a : pc) : list event :=
  mjoin (replicate k (turn_of a))
  ++ take (done_in_turn a) (turn_of a)
  ++ (match a with PReturn => [EvReturn] | _ => [] end).

Lemma chan_proj_history tr s :
  exec next start tr s ->
  forall t th, threads s !! t = Some th -> exists k, proj t tr = history k (at_ th).
Proof.
  induction 1 as [|tr s t0 e s' Hex IH Hstep].
  - intros t th [-> | ->]%lookup_start; by exists 0%nat.
  - intros t q Hq. rewrite proj_snoc.
    step_inv Hstep th Hth; simpl in Hq; apply chan_lookup_goto in Hq as [[-> ->]|[Hne Hq]].
    all: try (rewrite decide_False by done; rewrite app_nil_r; by apply IH).
    all: rewrite decide_True by done; destruct (IH _ _ Hth) as [j ->]; simpl.
    all: try (exists j; unfold history; simpl; rewrite <- ?app_assoc; by simpl).
    all: exists (S j); unfold history; rewrite replicate_S_end, join_app; simpl;
      rewrite <- ?app_assoc; by simpl.
Qed.

Lemma pending_history tr s t th :
  exec next start tr s -> threads s !! t = Some th ->
  pending t tr = if in_progress th then 1 else 0.
Proof.
  intros Hex Hth. unfold pending. destruct (chan_proj_history _ _ Hex _ _ Hth) as [k ->].
  unfold history. rewrite !Zsum_app, Zsum_join_replicate.
  destruct th as [a j v n]. unfold in_progress. simpl.
  destruct a; unfold Zsum; simpl; lia.
Qed.

(** *** The mutex and the cursors *)

Definition critical_count (s : channel) : Z :=
  Zsum (fun th => if in_critical_section th then 1 else 0) (threads s).

(** The mutex is held exactly when one thread is between lock and unlock. *)
Definition mutex_inv (s : channel) : Prop :=
  critical_count s = if mutex_buffer s then 1 else 0.

Lemma critical_count_goto s t th th' b k1 k2 e f m :
  threads s !! t = Some th ->
  critical_count (Chan b k1 k2 e f m (goto s t th')) =
  critical_count s - (if in_critical_section th then 1 else 0)
                   + (if in_critical_section th' then 1 else 0).
Proof. intros Hp. unfold critical_count, goto. simpl. by rewrite (Zsum_insert _ _ _ th). Qed.

Lemma mutex_inv_step s t e s' :
  mutex_inv s -> next s t = Some (e, s') -> mutex_inv s'.
Proof.
  unfold mutex_inv. intros Hm H. step_inv H th Hth.
  all: simpl; rewrite (critical_count_goto _ _ _ _ _ _ _ _ _ _ Hth); simpl;
    rewrite ?Hmutex in Hm; lia.
Qed.

Lemma mutex_inv_exec tr s : exec next start tr s -> mutex_inv s.
Proof.
  apply (exec_invariant next mutex_inv).
  - unfold mutex_inv, critical_count. simpl. rewrite Zsum_app, !Zsum_replicate. simpl. lia.
  - intros ? ? ? ?. apply mutex_inv_step.
Qed.

(** A thread between lock and unlock holds the mutex. *)
Lemma critical_holds_mutex s t th :
  mutex_inv s -> threads s !! t = Some th -> in_critical_section th = true ->
  mutex_buffer s = true.
Proof.
  unfold mutex_inv, critical_count. intros Hm Hth Hcs.
  destruct (mutex_buffer s); [done|].
  rewrite <- (list_insert_id _ _ _ Hth), (Zsum_insert _ _ _ _ _ Hth), Hcs in Hm.
  assert (0 <= Zsum (fun th => if in_critical_section th then 1 else 0)
                    (<[t := Thread PLoop 0 0 0]> (threads s))).
  { apply Zsum_nonneg. intros ? q _. destruct (in_critical_section q); lia. }
  rewrite (Zsum_insert _ _ _ _ _ Hth), Hcs in H. simpl in H. lia.
Qed.

Hypothesis Hsize : 1 <= buffer_size <= INT_MAX.

(** The cursors stay inside the buffer. *)
Definition cursor_inv (s : channel) : Prop :=
  length (buffer s) = Z.to_nat buffer_size /\
  0 <= in_ s < buffer_size /\ 0 <= out s < buffer_size.

Lemma advance_Some k k' :
  0 <= k < buffer_size -> advance buffer_size k = Some k' ->
  k' = (k + 1) mod buffer_size /\ 0 <= k' < buffer_size.
Proof.
  intros Hk. unfold advance. destruct (Z.eqb_spec buffer_size 0); [done|].
  intros [= <-]. rewrite rem_succ by lia.
  destruct (Z.eqb_spec (k + 1) buffer_size) as [->|Hne].
  - rewrite Z_mod_same_full. lia.
  - rewrite Z.mod_small; lia.
Qed.

Lemma store_Some b k v b' :
  store b k v = Some b' -> b' = <[Z.to_nat k := v]> b.
Proof. unfold store. destruct (load b k); [|done]. by intros [= <-]. Qed.

Lemma load_Some b k v : load b k = Some v -> b !! Z.to_nat k = Some v.
Proof. unfold load. by destruct (k <? 0). Qed.

Lemma cursor_inv_step s t e s' :
  cursor_inv s -> next s t = Some (e, s') -> cursor_inv s'.
Proof.
  unfold cursor_inv. intros (Hlen & Hin & Hout) H. step_inv H th Hth; simpl; try done.
  - apply store_Some in Hstore. subst. by rewrite length_insert.
  - apply advance_Some in Hadvance as [_ ?]; done.
  - apply advance_Some in Hadvance as [_ ?]; done.
Qed.

Lemma cursor_inv_exec tr s : exec next start tr s -> cursor_inv s.
Proof.
  apply (exec_invariant next cursor_inv).
  - unfold cursor_inv. simpl. rewrite length_replicate. lia.
  - intros ? ? ? ?. apply cursor_inv_step.
Qed.

End Facts.

(** C1. In every run, what a producer has done is a whole number of turns
    [produce; sem_wait(empty_slots); lock; store at in; advance in; unlock;
    sem_post(full_slots); sleep] followed by the first statements of one
    more turn up to where the thread stands, and what a consumer has done
    is the same with the turn [sem_wait(full_slots); lock; load at out;
    advance out; unlock; sem_post(empty_slots); consume]. Each statement
    does what its name says: [sem_wait] passes a positive semaphore and
    decrements it, the store writes the thread's item at [in], the load
    reads the cell at [out], the cursors advance modulo the capacity, all
    four under the mutex, and [sem_post] increments. A thread at its
    [sem_wait] cannot run while the semaphore is 0. *)
Theorem put_take_order size rand np nc ipp tr s :
  1 <= size <= INT_MAX ->
  exec (step size rand) (init size np nc ipp) tr s ->
  (forall t th, threads s !! t = Some th ->
     exists k, proj t tr =
       mjoin (replicate k (turn_of (at_ th)))
       ++ take (done_in_turn (at_ th)) (turn_of (at_ th))
       ++ match at_ th with PReturn => [EvReturn] | _ => [] end) /\
  (forall t e s', step size rand s t = Some (e, s') ->
     match e with
     | EvSemWait EmptySlots => 0 < empty_slots s /\ empty_slots s' = empty_slots s - 1
     | EvSemWait FullSlots => 0 < full_slots s /\ full_slots s' = full_slots s - 1
     | EvLock => mutex_buffer s = false /\ mutex_buffer s' = true
     | EvStore =>
         mutex_buffer s = true /\
         exists th, threads s !! t = Some th /\
                    buffer s' = <[Z.to_nat (in_ s) := item th]> (buffer s)
     | EvAdvanceIn => mutex_buffer s = true /\ in_ s' = (in_ s + 1) mod size
     | EvLoad =>
         mutex_buffer s = true /\
         exists th', threads s' !! t = Some th' /\
                     buffer s !! Z.to_nat (out s) = Some (item th')
     | EvAdvanceOut => mutex_buffer s = true /\ out s' = (out s + 1) mod size
     | EvUnlock => mutex_buffer s = true /\ mutex_buffer s' = false
     | EvSemPost FullSlots => full_slots s' = full_slots s + 1
     | EvSemPost EmptySlots => empty_slots s' = empty_slots s + 1
     | _ => True
     end) /\
  (forall t th, threads s !! t = Some th ->
     (at_ th = PSemWait -> empty_slots s = 0 -> step size rand s t = None) /\
     (at_ th = CSemWait -> full_slots s = 0 -> step size rand s t = None)).
Proof.
  intros Hsize Hex. split; [|split]; cycle 2.
  { intros t th Hth. unfold step. rewrite Hth. simpl.
    split; intros -> ->; done. }
  - intros t th Hth. by eapply chan_proj_history.
  - pose proof (mutex_inv_exec _ _ _ _ _ _ _ Hex) as Hm.
    pose proof (cursor_inv_exec _ _ _ _ _ Hsize _ _ Hex) as (Hlen & Hin & Hout).
    intros t e s' H.
    assert (Hcs : forall th, threads s !! t = Some th -> in_critical_section th = true ->
                             mutex_buffer s = true).
    { intros th. by apply critical_holds_mutex. }
    step_inv H th Hth; simpl; try done; try (split; [lia|done]).
    + split; [by eapply Hcs|]. eexists. split; [done|]. by apply store_Some.
    + split; [by eapply Hcs|]. by eapply advance_Some.
    + split; [by eapply Hcs|]. eexists. split.
      * unfold goto. apply list_lookup_insert_eq. by eapply lookup_lt_Some.
      * by apply load_Some.
    + split; [by eapply Hcs|]. by eapply advance_Some.
Qed.

(** Capacity 1, one consumer (thread 0) and one producer (thread 1) of two
    items: the producer puts, the consumer takes, the producer puts again. *)
Lemma put_take_order_witness :
  exists tr s,
    run (step 1 (fun _ k => 5 + 2 * k))
        [1; 1; 1; 1; 1; 1; 1; 0; 0; 0; 0; 0; 0; 1; 1; 1]%nat (init 1 1 1 2) = Some (tr, s) /\
    proj 1 tr = producer_turn ++ [EvProduce; EvSemWait EmptySlots] /\
    proj 0 tr = take_events /\
    threads s = [Thread CConsume 0 5 (-1); Thread PLock 1 7 2] /\
    forall t th, threads s !! t = Some th ->
     exists k, proj t tr =
       mjoin (replicate k (turn_of (at_ th)))
       ++ take (done_in_turn (at_ th)) (turn_of (at_ th))
       ++ match at_ th with PReturn => [EvReturn] | _ => [] end.
Proof.
  eexists _, _. split; [vm_compute; reflexivity|].
  split; [reflexivity|]. split; [reflexivity|]. split; [reflexivity|].
  refine (proj1 (put_take_order 1 (fun _ k => 5 + 2 * k) 1 1 2 _ _ _ _)).
  - unfold INT_MAX. lia.
  - apply (run_exec _ [1; 1; 1; 1; 1; 1; 1; 0; 0; 0; 0; 0; 0; 1; 1; 1]%nat).
    vm_compute. reflexivity.
Defined.

(** C6, as the program has it. The two semaphores and the calls in progress
    (past their [sem_wait], before their [sem_post]) add up to the
    capacity: [full_slots + empty_slots] is the capacity less the number of
    [put]s and [take]s in progress, never more than the capacity, and equal
    to it exactly when none is in progress. *)
Theorem slots_conservation size rand np nc ipp tr s :
  0 <= size ->
  exec (step size rand) (init size np nc ipp) tr s ->
  full_slots s + empty_slots s + in_progress_count s = size /\
  in_progress_count s = Zsum (fun t => pending t tr) (seq 0 (length (threads s))) /\
  0 <= full_slots s /\ 0 <= empty_slots s /\
  full_slots s + empty_slots s <= size /\
  (full_slots s + empty_slots s = size <-> in_progress_count s = 0).
Proof.
  intros Hsize Hex.
  pose proof (count_inv_exec _ _ _ _ _ _ _ Hex) as Hc. unfold count_inv in Hc.
  pose proof (sem_inv_exec _ _ _ _ _ _ _ Hsize Hex) as [Hf He].
  pose proof (in_progress_count_nonneg s) as Hnn.
  split; [done|]. split; [|lia].
  symmetry. apply Zsum_seq. intros t th Hth. by eapply pending_history.
Qed.

Lemma slots_conservation_witness :
  exists tr s,
    run (step 3 (fun _ _ => 42)) [2; 2; 3; 3; 3]%nat (init 3 2 2 4) = Some (tr, s) /\
    full_slots s = 0 /\ empty_slots s = 1 /\ in_progress_count s = 2 /\
    full_slots s + empty_slots s + in_progress_count s = 3.
Proof.
  eexists _, _. split; [vm_compute; reflexivity|].
  split; [reflexivity|]. split; [reflexivity|]. split; [reflexivity|].
  refine (proj1 (slots_conservation 3 (fun _ _ => 42) 2 2 4 _ _ _ _)).
  - lia.
  - apply (run_exec _ [2; 2; 3; 3; 3]%nat). vm_compute. reflexivity.
Defined.

(** C6 as stated fails: capacity 1, and the producer (thread 1) has passed
    [sem_wait(&empty_slots)] and not yet reached [sem_post(&full_slots)];
    both semaphores are 0. *)
Lemma slots_sum_below_capacity :
  exists tr s,
    exec (step 1 (fun _ _ => 5)) (init 1 1 1 2) tr s /\
    full_slots s = 0 /\ empty_slots s = 0 /\
    full_slots s + empty_slots s <> 1.
Proof.
  eexists _, _. split.
  - apply (run_exec _ [1; 1]%nat). vm_compute. reflexivity.
  - simpl. lia.
Qed.

End ChannelFacts.

(** ** MonitorQueue *)

Module QueueFacts.
Import Queue.

(** *** The linked list *)

Lemma lseg_frame m m' p cells e :
  (forall a, a ∈ cells.*1 -> m' !! a = m !! a) ->
  lseg m p cells e -> lseg m' p cells e.
Proof.
  revert p. induction cells as [|[a v] cells IH]; intros p Hsame; simpl; [done|].
  intros [-> (nx & Ha & Hrest)]. split; [done|]. exists nx. split.
  - rewrite Hsame; [done|]. simpl. left.
  - apply IH; [|done]. intros b Hb. apply Hsame. simpl. by right.
Qed.

Lemma lseg_snoc m p cells a v e :
  lseg m p (cells ++ [(a, v)]) e <->
  lseg m p cells (Some a) /\ m !! a = Some (mkNode v e).
Proof.
  revert p. induction cells as [|[b w] cells IH]; intros p; simpl.
  - split.
    + intros [-> (nx & Ha & ->)]. done.
    + intros [-> Ha]. split; [done|]. by exists e.
  - split.
    + intros [-> (nx & Hb & Hrest)]. apply IH in Hrest as [Hrest Ha].
      split; [|done]. split; [done|]. by exists nx.
    + intros [[-> (nx & Hb & Hrest)] Ha]. split; [done|]. exists nx.
      split; [done|]. apply IH. done.
Qed.

Lemma lseg_allocated m p cells e a :
  lseg m p cells e -> a ∈ cells.*1 -> is_Some (m !! a).
Proof.
  revert p. induction cells as [|[b w] cells IH]; intros p; simpl.
  - intros _ Ha. by apply elem_of_nil in Ha.
  - intros [-> (nx & Hb & Hrest)] [->|Ha]%elem_of_cons; [by eexists|]. by eapply IH.
Qed.

Lemma holds_init : queue_holds queue_init [].
Proof. split; [done|]. split; [done|]. constructor. Qed.

(** [head] is [NULL] exactly when the queue holds nothing, and so is [tail]. *)
Lemma holds_head q cells : queue_holds q cells -> head q = None <-> cells = [].
Proof.
  intros (Hseg & _ & _). destruct cells as [|[a v] cells]; simpl in Hseg.
  - done.
  - destruct Hseg as [-> _]. done.
Qed.

Lemma holds_tail q cells : queue_holds q cells -> tail q = None <-> cells = [].
Proof.
  intros (_ & -> & _). destruct cells as [|c cells _] using rev_ind; [done|].
  rewrite fmap_app. simpl. rewrite last_snoc. split; [done|].
  intros H. by apply app_nil in H as [_ ?].
Qed.

Lemma holds_singleton q a v : queue_holds q [(a, v)] -> head q = Some a /\ tail q = Some a.
Proof. intros ([-> _] & -> & _). done. Qed.

(** Linking a fresh, initialised node appends it. *)
Lemma holds_link q cells p item :
  queue_holds q cells ->
  mem q !! p = Some (mkNode item None) -> p ∉ cells.*1 ->
  exists q', link q p = Ok q' /\ queue_holds q' (cells ++ [(p, item)]) /\
             dom (mem q') = dom (mem q) /\
             (forall a, a ∉ cells.*1 -> mem q' !! a = mem q !! a).
Proof.
  intros (Hseg & Htail & Hnd) Hp Hfresh. unfold link.
  destruct cells as [|[t v] cells _] using rev_ind.
  - simpl in Htail. rewrite Htail. eexists. split; [done|]. simpl in Hseg.
    split; [|done]. split; [|split]; simpl.
    + split; [done|]. by exists None.
    + done.
    + apply NoDup_singleton.
  - rewrite fmap_app in Htail. simpl in Htail. rewrite last_snoc in Htail. rewrite Htail.
    apply lseg_snoc in Hseg as [Hseg Ht]. rewrite Ht. simpl.
    rewrite fmap_app in Hnd, Hfresh. simpl in Hnd, Hfresh.
    apply NoDup_app in Hnd as (Hnd1 & Hnd2 & _).
    assert (Hpt : p <> t).
    { intros ->. apply Hfresh. apply elem_of_app. right. left. }
    eexists. split; [done|]. split; [split; [|split]|split]; simpl.
    + apply lseg_snoc. split.
      * apply lseg_snoc. split.
        -- eapply lseg_frame; [|done]. intros a Ha.
           rewrite lookup_insert_ne; [done|]. intros ->. apply (Hnd2 a Ha). left.
        -- by rewrite lookup_insert_eq.
      * by rewrite lookup_insert_ne.
    + rewrite !fmap_app. simpl. by rewrite last_snoc.
    + rewrite !fmap_app. simpl. rewrite <- app_assoc. simpl.
      apply NoDup_app. split; [done|]. split.
      * intros a Ha [->| ->%list_elem_of_singleton]%elem_of_cons.
        -- apply (Hnd2 t Ha). left.
        -- apply Hfresh. apply elem_of_app. by left.
      * apply NoDup_cons. split; [|apply NoDup_singleton].
        by intros ->%list_elem_of_singleton.
    + apply dom_insert_lookup_L. by eexists.
    + intros a Ha. rewrite lookup_insert_ne; [done|]. intros ->. apply Ha.
      rewrite fmap_app. apply elem_of_app. right. left.
Qed.

(** Unlinking returns the oldest value and leaves the rest. *)
Lemma holds_unlink q h v cells :
  queue_holds q ((h, v) :: cells) ->
  exists q', unlink q = Ok (v, q') /\ queue_holds q' cells /\
             mem q' = delete h (mem q).
Proof.
  intros ([Hh (nx & Hn & Hseg)] & Htail & Hnd). unfold unlink.
  rewrite Hh, Hn. simpl. eexists. split; [done|]. split; [|done].
  simpl in Hnd. apply NoDup_cons in Hnd as [Hnotin Hnd].
  split; [|split]; simpl.
  - eapply lseg_frame; [|done]. intros a Ha. apply lookup_delete_ne. by intros ->.
  - destruct cells as [|[a w] cells]; simpl in Hseg.
    + by rewrite Hseg.
    + destruct Hseg as [-> _]. rewrite Htail. done.
  - done.
Qed.

(** *** Calls of a single client *)

Section Sequential.

Variable malloc : gmap addr Node -> option addr.

(** [malloc] returns [NULL] or a block that is not in use. *)
Hypothesis malloc_fresh : forall m p, malloc m = Some p -> m !! p = None.

Lemma contents_init : contents queue_init [].
Proof. exists []. split; [apply holds_init|]. split; [done|]. simpl. by rewrite dom_empty_L. Qed.

Lemma enqueue_contents q l item :
  contents q l ->
  (enqueue malloc q item = Exits /\ malloc (mem q) = None) \/
  (exists q', enqueue malloc q item = Ok q' /\ contents q' (l ++ [item])).
Proof.
  intros (cells & Hholds & Hl & Hdom). unfold enqueue, new_node.
  destruct (malloc (mem q)) as [p|] eqn:Hm; [right|by left]. simpl.
  apply malloc_fresh in Hm.
  assert (Hp : p ∉ cells.*1).
  { intros Hin. destruct Hholds as (Hseg & _).
    destruct (lseg_allocated _ _ _ _ _ Hseg Hin) as [? ?]. congruence. }
  destruct (holds_link (TSQ (head q) (tail q) (<[p := mkNode item None]> (mem q)))
              cells p item) as (q' & Hlink & Hq' & Hdom' & _); simpl.
  - destruct Hholds as (Hseg & Htail & Hnd). split; [|done]. simpl.
    eapply lseg_frame; [|done]. intros a Ha. apply lookup_insert_ne. by intros ->.
  - apply lookup_insert_eq.
  - done.
  - exists q'. split; [done|]. exists (cells ++ [(p, item)]). split; [done|].
    split; [by rewrite fmap_app, Hl|].
    rewrite Hdom'. simpl. rewrite dom_insert_L, Hdom, fmap_app, list_to_set_app_L. simpl.
    rewrite (union_empty_r_L {[p]}). apply (comm_L (∪)).
Qed.

Lemma dequeue_contents q v l :
  contents q (v :: l) -> exists q', dequeue q = Ok (v, q') /\ contents q' l.
Proof.
  intros (cells & Hholds & Hl & Hdom).
  destruct cells as [|[h w] cells]; [done|]. simpl in Hl. injection Hl as -> Hl.
  destruct (holds_unlink q h v cells Hholds) as (q' & Hunlink & Hq' & Hmem).
  unfold dequeue. destruct Hholds as ([Hh _] & _ & Hnd). rewrite Hh.
  exists q'. split; [done|]. exists cells. split; [done|]. split; [done|].
  rewrite Hmem, dom_delete_L, Hdom. simpl in *.
  apply NoDup_cons in Hnd as [Hnotin _].
  apply set_eq. intros a. rewrite elem_of_difference, elem_of_union, !elem_of_list_to_set.
  rewrite elem_of_singleton. split.
  - intros [[->|Ha] Hne]; done.
  - intros Ha. split; [by right|]. by intros ->.
Qed.

Lemma dequeue_empty q : head q = None -> dequeue q = Waits.
Proof. unfold dequeue. by intros ->. Qed.

Lemma contents_head q l : contents q l -> head q = None <-> l = [].
Proof.
  intros (cells & Hholds & <- & _). rewrite (holds_head _ _ Hholds).
  by destruct cells.
Qed.

Lemma sequence_rep_ok q l : sequence q l -> rep_ok q.
Proof.
  intros (cells & Hholds & Hl). split.
  - by rewrite (holds_head _ _ Hholds), (holds_tail _ _ Hholds).
  - exists l. split; [by exists cells|]. intros Hlen.
    rewrite <- Hl, length_fmap in Hlen.
    destruct cells as [|[a v] [|? ?]]; try done.
    apply holds_singleton in Hholds as [-> ->]. split; [by eexists|done].
Qed.

Lemma contents_sequence q l : contents q l -> sequence q l.
Proof. intros (cells & Hholds & Hl & _). by exists cells. Qed.

Lemma contents_rep_ok q l : contents q l -> rep_ok q.
Proof. intros Hq. eapply sequence_rep_ok, contents_sequence, Hq. Qed.

(** The heap of a single client holds the nodes of the queue and no other. *)
Lemma contents_size q l : contents q l -> size (mem q) = length l.
Proof.
  intros (cells & (_ & _ & Hnd) & <- & Hdom).
  by rewrite <- size_dom, Hdom, size_list_to_set, !length_fmap.
Qed.

Lemma calls_app cs1 cs2 q :
  calls malloc (cs1 ++ cs2) q =
  let* (vs1, q1) := calls malloc cs1 q in
  let* (vs2, q2) := calls malloc cs2 q1 in
  Ok (vs1 ++ vs2, q2).
Proof.
  revert q. induction cs1 as [|[item|] cs1 IH]; intros q; simpl.
  - by destruct (calls malloc cs2 q) as [[? ?]| | |].
  - destruct (enqueue malloc q item); simpl; done.
  - destruct (dequeue q) as [[v q']| | |]; simpl; try done. rewrite IH.
    destruct (calls malloc cs1 q') as [[vs1 q1]| | |]; simpl; try done.
    by destruct (calls malloc cs2 q1) as [[? ?]| | |].
Qed.

(** First in, first out: what was in the queue and what was enqueued is what
    was dequeued and what is left, in this order. *)
Lemma calls_fifo cs : forall q l vs q',
  contents q l -> calls malloc cs q = Ok (vs, q') ->
  exists l', contents q' l' /\ l ++ enqueued cs = vs ++ l'.
Proof.
  induction cs as [|[item|] cs IH]; intros q l vs q' Hq; simpl.
  - intros [= <- <-]. exists l. by rewrite app_nil_r.
  - destruct (enqueue_contents q l item Hq) as [[-> _]|(q1 & -> & Hq1)]; [done|].
    simpl. intros Hcalls. destruct (IH _ _ _ _ Hq1 Hcalls) as (l' & Hl' & Heq).
    exists l'. split; [done|]. by rewrite <- Heq, <- app_assoc.
  - destruct l as [|v l].
    + rewrite (dequeue_empty q); [done|]. by apply (contents_head q []).
    + destruct (dequeue_contents q v l Hq) as (q1 & -> & Hq1). simpl.
      destruct (calls malloc cs q1) as [[vs1 q2]| | |] eqn:Hcalls; simpl; try done.
      intros [= <- <-]. destruct (IH _ _ _ _ Hq1 Hcalls) as (l' & Hl' & Heq).
      exists l'. split; [done|]. simpl. by rewrite Heq.
Qed.

(** A client never runs into undefined behaviour. *)
Lemma calls_defined cs : forall q l,
  contents q l -> calls malloc cs q <> Undefined.
Proof.
  induction cs as [|[item|] cs IH]; intros q l Hq; simpl; [done| |].
  - destruct (enqueue_contents q l item Hq) as [[-> _]|(q1 & -> & Hq1)]; [done|].
    simpl. by eapply IH.
  - destruct l as [|v l].
    + rewrite (dequeue_empty q); [done|]. by apply (contents_head q []).
    + destruct (dequeue_contents q v l Hq) as (q1 & -> & Hq1). simpl.
      specialize (IH q1 l Hq1).
      by destruct (calls malloc cs q1) as [[vs1 q2]| | |].
Qed.

Lemma enqueue_all l : forall q l0,
  contents q l0 ->
  calls malloc (Enq <$> l) q = Exits \/
  exists q', calls malloc (Enq <$> l) q = Ok ([], q') /\ contents q' (l0 ++ l).
Proof.
  induction l as [|item l IH]; intros q l0 Hq.
  - right. exists q. by rewrite app_nil_r.
  - rewrite fmap_cons. cbn [calls].
    destruct (enqueue_contents q l0 item Hq) as [[-> _]|(q1 & -> & Hq1)]; [by left|].
    cbn [bind]. destruct (IH q1 _ Hq1) as [->|(q' & -> & Hq')]; [by left|].
    right. exists q'. split; [done|]. by rewrite <- app_assoc in Hq'.
Qed.

Lemma dequeue_all l : forall q,
  contents q l ->
  exists q', calls malloc (replicate (length l) Deq) q = Ok (l, q') /\ contents q' [].
Proof.
  induction l as [|v l IH]; intros q Hq; simpl.
  - by exists q.
  - destruct (dequeue_contents q v l Hq) as (q1 & -> & Hq1). simpl.
    destruct (IH q1 Hq1) as (q' & -> & Hq'). simpl. by exists q'.
Qed.

Lemma round_trip_fifo l :
  calls malloc (round_trip l) queue_init = Exits \/
  exists q, calls malloc (round_trip l) queue_init = Ok (l, q) /\ contents q [].
Proof.
  unfold round_trip. rewrite calls_app.
  destruct (enqueue_all l queue_init [] contents_init) as [->|(q1 & -> & Hq1)]; [by left|].
  simpl in *. destruct (dequeue_all l q1 Hq1) as (q' & -> & Hq'). simpl.
  right. by exists q'.
Qed.

Lemma calls_no_exit cs : forall q,
  (forall m, is_Some (malloc m)) -> calls malloc cs q <> Exits.
Proof.
  intros q Hmem. revert q. induction cs as [|[item|] cs IH]; intros q; simpl; [done| |].
  - unfold enqueue, new_node. destruct (Hmem (mem q)) as [p ->]. simpl.
    destruct (link _ p) as [q'| | |] eqn:Hlink; simpl; try done.
    unfold link in Hlink. by repeat case_match.
  - unfold dequeue, unlink. destruct (head q) as [h|]; [|done].
    destruct (mem q !! h) as [n|]; [|done]. simpl.
    match goal with |- context [calls malloc cs ?q1] =>
      specialize (IH q1); by destruct (calls malloc cs q1) as [[? ?]| | |] end.
Qed.

End Sequential.

(** *** The Go queue *)

Lemma go_calls_fifo cs : forall q vs q',
  GoQueue.calls cs q = Ok (vs, q') ->
  GoQueue.items q ++ enqueued cs = vs ++ GoQueue.items q'.
Proof.
  induction cs as [|[item|] cs IH]; intros [l] vs q'; simpl.
  - intros [= <- <-]. by rewrite app_nil_r.
  - intros Hcalls. apply IH in Hcalls. simpl in Hcalls.
    by rewrite <- Hcalls, <- app_assoc.
  - unfold GoQueue.Dequeue. simpl. destruct l as [|v l]; [done|]. simpl.
    destruct (GoQueue.calls cs (GoQueue.TSQ l)) as [[vs1 q1]| | |] eqn:Hcalls; simpl; try done.
    intros [= <- <-]. apply IH in Hcalls. simpl in *. by rewrite Hcalls.
Qed.

Lemma go_dequeue_all l :
  GoQueue.calls (replicate (length l) Deq) (GoQueue.TSQ l) = Ok (l, GoQueue.NewQueue).
Proof. induction l as [|v l IH]; simpl; [done|]. by rewrite IH. Qed.

Lemma go_enqueue_all l : forall l0 cs,
  GoQueue.calls ((Enq <$> l) ++ cs) (GoQueue.TSQ l0) = GoQueue.calls cs (GoQueue.TSQ (l0 ++ l)).
Proof.
  induction l as [|item l IH]; intros l0 cs.
  - by rewrite app_nil_r.
  - rewrite fmap_cons. simpl. rewrite IH. by rewrite <- app_assoc.
Qed.

Lemma go_round_trip l :
  GoQueue.calls (round_trip l) GoQueue.NewQueue = Ok (l, GoQueue.NewQueue).
Proof. unfold round_trip, GoQueue.NewQueue. rewrite go_enqueue_all. apply go_dequeue_all. Qed.

(** C7, as the program has it. The queue has no closed state. In every
    state the calls of a client lead to, a [dequeue] on the drained queue
    waits (it returns no empty-result), and an [enqueue] appends its item
    and returns, unless [malloc] fails: then it exits the process. No call
    fails and leaves the queue as it was. *)
Theorem queue_has_no_closed_state (malloc : gmap addr Node -> option addr) cs vs q :
  (forall m p, malloc m = Some p -> m !! p = None) ->
  calls malloc cs queue_init = Ok (vs, q) ->
  (head q = None -> dequeue q = Waits) /\
  (forall item,
     (malloc (mem q) = None /\ enqueue malloc q item = Exits) \/
     (exists l q', contents q l /\ enqueue malloc q item = Ok q' /\
                   contents q' (l ++ [item]) /\ size (mem q') = S (size (mem q)))).
Proof.
  intros Hfresh Hcalls. split; [apply dequeue_empty|].
  destruct (calls_fifo malloc Hfresh cs queue_init [] vs q contents_init Hcalls)
    as (l & Hq & _).
  intros item.
  destruct (enqueue_contents malloc Hfresh q l item Hq) as [[He Hm]|(q' & He & Hq')];
    [by left|right].
  exists l, q'. split; [done|]. split; [done|]. split; [done|].
  rewrite (contents_size q l Hq), (contents_size q' _ Hq'), length_app. simpl. lia.
Qed.

Lemma queue_has_no_closed_state_witness :
  exists q,
    calls (fun m => Some (fresh (dom m))) [Enq 1; Enq 2; Deq; Deq] queue_init
      = Ok ([1; 2], q) /\
    head q = None /\
    (head q = None -> dequeue q = Waits).
Proof.
  eexists. split; [vm_compute; reflexivity|]. split; [reflexivity|].
  refine (proj1 (queue_has_no_closed_state (fun m => Some (fresh (dom m)))
                   [Enq 1; Enq 2; Deq; Deq] [1; 2] _ _ _)).
  - intros m p [= <-]. apply not_elem_of_dom. apply is_fresh.
  - vm_compute. reflexivity.
Defined.

(** C7 as stated fails. With two items enqueued and both dequeued, the
    queue is drained: the next [dequeue] waits, and an [enqueue] of 7
    succeeds and puts 7 in the queue. Whatever the state of the queue,
    [dequeue] waits when [head] is [NULL]. *)
Lemma drained_queue_is_not_closed :
  exists q,
    calls (fun m => Some (fresh (dom m))) [Enq 1; Enq 2; Deq; Deq] queue_init
      = Ok ([1; 2], q) /\
    dequeue q = Waits /\
    (exists q', enqueue (fun m => Some (fresh (dom m))) q 7 = Ok q' /\
                dequeue q' = Ok (7, q)) /\
    (forall q0, head q0 = None -> dequeue q0 = Waits).
Proof.
  eexists. split; [vm_compute; reflexivity|]. split; [reflexivity|]. split.
  - eexists. split; vm_compute; reflexivity.
  - apply dequeue_empty.
Qed.

End QueueFacts.

(** ** MonitorQueue: the threads *)

Module QueueThreadsFacts.
Import Queue QueueFacts QueueThreads.

(** Inverts [step malloc s t = Some (e, s')] into one goal per statement. *)
Ltac step_inv H th Hth :=
  unfold step in H;
  match type of H with
  | context [alive ?s] =>
      let Ha := fresh "Halive" in destruct (alive s) eqn:Ha; [|discriminate H]
  end;
  match type of H with
  | context [threads ?s !! ?t] =>
      destruct (threads s !! t) as [th|] eqn:Hth; simpl in H; [|done]
  end;
  let a := fresh "a" in let cs := fresh "cs" in let x := fresh "x" in
  let nd := fresh "nd" in let r := fresh "r" in
  destruct th as [a cs x nd r]; simpl in H; destruct a; simpl in H;
  repeat match type of H with
  | context [match ?l with [] => _ | _ :: _ => _ end] =>
      is_var l; destruct l as [|[?|] ?]; simpl in H
  | context [new_node ?m ?qq ?y] =>
      let Hm := fresh "Hmalloc" in
      unfold new_node in H; destruct (m (mem qq)) as [?p|] eqn:Hm; simpl in H
  | context [if lock ?s then _ else _] =>
      let Hl := fresh "Hlock" in destruct (lock s) eqn:Hl; simpl in H
  | context [mbind _ ?o] =>
      is_var o; destruct o as [?p|]; simpl in H
  | context [link ?qq ?p] =>
      let Hl := fresh "Hlink" in destruct (link qq p) as [?q| | |] eqn:Hl; simpl in H
  | context [unlink ?qq] =>
      let Hu := fresh "Hunlink" in destruct (unlink qq) as [[?v ?q]| | |] eqn:Hu; simpl in H
  | context [match head ?qq with Some _ => _ | None => _ end] =>
      let Hh := fresh "Hhead" in destruct (head qq) as [?h|] eqn:Hh; simpl in H
  end;
  try discriminate H;
  apply (inj Some) in H; apply pair_equal_spec in H; destruct H as [<- <-].

(** The thread has allocated a node and not yet linked it. *)
Definition pending (th : thread) : bool :=
  match at_ th with
  | ELock | ELink => true
  | _ => false
  end.

Definition critical_count (s : state) : Z :=
  Zsum (fun th => if in_critical_section th then 1 else 0) (threads s).

(** The heap: the queue is a list of cells, what was linked is what was
    unlinked and what the queue holds, and every pending node is
    initialised, outside the queue and owned by one thread. *)
Definition heap_ok (tr : list (nat * event)) (qq : ThreadSafeQueue)
    (ths : list thread) (cells : list (addr * Z)) : Prop :=
  queue_holds qq cells /\
  linked tr = unlinked tr ++ cells.*2 /\
  (forall t th, ths !! t = Some th -> pending th = true ->
     exists p, node th = Some p /\ mem qq !! p = Some (mkNode (item th) None) /\
               p ∉ cells.*1) /\
  (forall t1 t2 th1 th2, ths !! t1 = Some th1 -> ths !! t2 = Some th2 ->
     pending th1 = true -> pending th2 = true -> node th1 = node th2 -> t1 = t2).

Record inv (tr : list (nat * event)) (s : state) : Prop := {
  qi_mutex : critical_count s = if lock s then 1 else 0;
  qi_item : forall t th, threads s !! t = Some th -> at_ th = DUnlink ->
                         is_Some (head (q s));
  qi_heap : exists cells, heap_ok tr (q s) (threads s) cells
}.

Lemma linked_snoc tr t e :
  linked (tr ++ [(t, e)]) = linked tr ++ match e with EvLink v => [v] | _ => [] end.
Proof. unfold linked. rewrite omap_app. simpl. by destruct e. Qed.

Lemma unlinked_snoc tr t e :
  unlinked (tr ++ [(t, e)]) = unlinked tr ++ match e with EvUnlink v => [v] | _ => [] end.
Proof. unfold unlinked. rewrite omap_app. simpl. by destruct e. Qed.

Lemma qt_critical_count_goto s t th th' qq l a :
  threads s !! t = Some th ->
  critical_count (State qq l a (goto s t th')) =
  critical_count s - (if in_critical_section th then 1 else 0)
                   + (if in_critical_section th' then 1 else 0).
Proof. intros Hp. unfold critical_count, goto. simpl. by rewrite (Zsum_insert _ _ _ th). Qed.

(** Mutual exclusion: two threads are never both between lock and unlock. *)
Lemma critical_unique s t1 t2 th1 th2 :
  critical_count s = (if lock s then 1 else 0) ->
  threads s !! t1 = Some th1 -> threads s !! t2 = Some th2 ->
  in_critical_section th1 = true -> in_critical_section th2 = true -> t1 = t2.
Proof.
  unfold critical_count. intros Hm H1 H2 Hc1 Hc2.
  destruct (decide (t1 = t2)) as [|Hne]; [done|].
  pose proof (Zsum_ge_two (fun th => if in_critical_section th then 1 else 0)
                (threads s) t1 t2 th1 th2) as Hge.
  simpl in Hge. rewrite Hc1, Hc2 in Hge.
  assert (1 + 1 <= Zsum (fun th => if in_critical_section th then 1 else 0) (threads s)).
  { apply Hge; try done. intros b. destruct (in_critical_section b); lia. }
  destruct (lock s); lia.
Qed.

Lemma critical_locked s t th :
  critical_count s = (if lock s then 1 else 0) ->
  threads s !! t = Some th -> in_critical_section th = true -> lock s = true.
Proof.
  unfold critical_count. intros Hm Hth Hc.
  pose proof (Zsum_ge_term (fun th => if in_critical_section th then 1 else 0)
                (threads s) t th) as Hge.
  simpl in Hge. rewrite Hc in Hge.
  assert (1 <= Zsum (fun th => if in_critical_section th then 1 else 0) (threads s)).
  { apply Hge; [|done]. intros b. destruct (in_critical_section b); lia. }
  destruct (lock s); [done|lia].
Qed.

Lemma qt_lookup_goto s t th' t' th0 :
  goto s t th' !! t' = Some th0 ->
  (t' = t /\ th0 = th') \/ (t' <> t /\ threads s !! t' = Some th0).
Proof.
  unfold goto. intros H. destruct (decide (t' = t)) as [->|Hne].
  - left. split; [done|]. apply list_lookup_insert_Some in H.
    destruct H as [(_ & Heq & _)|[Hne _]]; [by symmetry|by destruct Hne].
  - right. split; [done|]. by rewrite list_lookup_insert_ne in H.
Qed.

(** A statement that leaves the queue and the pending nodes alone. *)
Lemma heap_ok_skip tr qq s cells t th th' t0 e :
  threads s !! t = Some th ->
  (pending th' = true ->
   pending th = true /\ node th' = node th /\ item th' = item th) ->
  match e with EvLink _ | EvUnlink _ => False | _ => True end ->
  heap_ok tr qq (threads s) cells ->
  heap_ok (tr ++ [(t0, e)]) qq (goto s t th') cells.
Proof.
  intros Hth Hsame He (Hq & Htr & Hpend & Hdist).
  split; [done|]. split; [|split].
  - rewrite linked_snoc, unlinked_snoc. destruct e; try done; by rewrite !app_nil_r.
  - intros t1 th1 [[-> ->]|[Hne H1]]%qt_lookup_goto Hp1.
    + destruct (Hsame Hp1) as (Hp & -> & ->). by eapply Hpend.
    + by eapply Hpend.
  - intros t1 t2 th1 th2 [[-> ->]|[Hne1 H1]]%qt_lookup_goto
      [[-> ->]|[Hne2 H2]]%qt_lookup_goto Hp1 Hp2 Hnode; try done.
    + destruct (Hsame Hp1) as (Hp & Hn & _). rewrite Hn in Hnode.
      by apply (Hdist t t2 th th2).
    + destruct (Hsame Hp2) as (Hp & Hn & _). rewrite Hn in Hnode.
      by apply (Hdist t1 t th1 th).
    + by apply (Hdist t1 t2 th1 th2).
Qed.

(** [malloc] and the initialisation of the node. *)
Lemma heap_ok_malloc tr qq s cells t th th' t0 p :
  threads s !! t = Some th -> pending th = false ->
  mem qq !! p = None -> node th' = Some p ->
  heap_ok tr qq (threads s) cells ->
  heap_ok (tr ++ [(t0, EvMalloc p)])
          (TSQ (head qq) (tail qq) (<[p := mkNode (item th') None]> (mem qq)))
          (goto s t th') cells.
Proof.
  intros Hth Hnp Hfresh Hnode ((Hseg & Htail & Hnd) & Htr & Hpend & Hdist).
  assert (Hp : p ∉ cells.*1).
  { intros Hin. destruct (lseg_allocated _ _ _ _ _ Hseg Hin) as [? ?]. congruence. }
  split; [|split; [|split]].
  - split; [|done]. simpl. eapply lseg_frame; [|done].
    intros a Ha. apply lookup_insert_ne. by intros ->.
  - rewrite linked_snoc, unlinked_snoc. by rewrite !app_nil_r.
  - simpl. intros t1 th1 [[-> ->]|[Hne H1]]%qt_lookup_goto Hp1.
    + exists p. split; [done|]. split; [apply lookup_insert_eq|done].
    + destruct (Hpend _ _ H1 Hp1) as (p1 & Hn1 & Hm1 & Hc1).
      exists p1. split; [done|]. split; [|done].
      rewrite lookup_insert_ne; [done|]. intros ->. congruence.
  - intros t1 t2 th1 th2 [[-> ->]|[Hne1 H1]]%qt_lookup_goto
      [[-> ->]|[Hne2 H2]]%qt_lookup_goto Hp1 Hp2 Hnodes; try done.
    + destruct (Hpend _ _ H2 Hp2) as (p2 & Hn2 & Hm2 & _). congruence.
    + destruct (Hpend _ _ H1 Hp1) as (p1 & Hn1 & Hm1 & _). congruence.
    + by apply (Hdist t1 t2 th1 th2).
Qed.

(** The node of the thread goes into the queue. *)
Lemma heap_ok_link tr qq q' s cells t th th' t0 p :
  threads s !! t = Some th -> pending th = true -> node th = Some p ->
  pending th' = false -> link qq p = Ok q' ->
  heap_ok tr qq (threads s) cells ->
  heap_ok (tr ++ [(t0, EvLink (item th))]) q' (goto s t th') (cells ++ [(p, item th)]).
Proof.
  intros Hth Hpth Hnode Hnp Hlink (Hq & Htr & Hpend & Hdist).
  destruct (Hpend _ _ Hth Hpth) as (p0 & Hn0 & Hm0 & Hc0).
  assert (p0 = p) as -> by congruence.
  destruct (holds_link qq cells p (item th) Hq Hm0 Hc0) as (q1 & Hl1 & Hq1 & _ & Hframe).
  assert (q1 = q') as -> by congruence.
  split; [done|]. split; [|split].
  - rewrite linked_snoc, unlinked_snoc, Htr, fmap_app, app_nil_r. simpl.
    by rewrite <- app_assoc.
  - intros t1 th1 [[-> ->]|[Hne H1]]%qt_lookup_goto Hp1; [congruence|].
    destruct (Hpend _ _ H1 Hp1) as (p1 & Hn1 & Hm1 & Hc1).
    exists p1. split; [done|]. split; [by rewrite Hframe|].
    rewrite fmap_app. simpl. intros [Hin| ->%list_elem_of_singleton]%elem_of_app; [done|].
    apply Hne. apply (Hdist t1 t th1 th); congruence.
  - intros t1 t2 th1 th2 [[-> ->]|[Hne1 H1]]%qt_lookup_goto
      [[-> ->]|[Hne2 H2]]%qt_lookup_goto Hp1 Hp2 Hnodes; try congruence.
    by apply (Hdist t1 t2 th1 th2).
Qed.

(** The oldest node leaves the queue. *)
Lemma heap_ok_unlink tr qq q' s cells t th th' t0 v :
  threads s !! t = Some th -> pending th = false -> pending th' = false ->
  unlink qq = Ok (v, q') ->
  heap_ok tr qq (threads s) cells ->
  exists h rest, cells = (h, v) :: rest /\
                 heap_ok (tr ++ [(t0, EvUnlink v)]) q' (goto s t th') rest.
Proof.
  intros Hth Hnp Hnp' Hunlink (Hq & Htr & Hpend & Hdist).
  destruct cells as [|[h w] rest].
  { apply holds_head in Hq as [_ Hh]. unfold unlink in Hunlink.
    by rewrite (Hh eq_refl) in Hunlink. }
  destruct (holds_unlink qq h w rest Hq) as (q1 & Hu1 & Hq1 & Hmem).
  rewrite Hunlink in Hu1. injection Hu1 as <- <-.
  exists h, rest. split; [done|]. split; [done|]. split; [|split].
  - rewrite linked_snoc, unlinked_snoc, Htr, app_nil_r. simpl.
    by rewrite <- app_assoc.
  - intros t1 th1 [[-> ->]|[Hne H1]]%qt_lookup_goto Hp1; [congruence|].
    destruct (Hpend _ _ H1 Hp1) as (p1 & Hn1 & Hm1 & Hc1).
    exists p1. split; [done|]. simpl in Hc1. apply not_elem_of_cons in Hc1 as [Hne1 Hc1].
    split; [|done]. rewrite Hmem. by rewrite lookup_delete_ne.
  - intros t1 t2 th1 th2 [[-> ->]|[Hne1 H1]]%qt_lookup_goto
      [[-> ->]|[Hne2 H2]]%qt_lookup_goto Hp1 Hp2 Hnodes; try congruence.
    by apply (Hdist t1 t2 th1 th2).
Qed.

Section Threads.

Variable malloc : gmap addr Node -> option addr.
Hypothesis malloc_fresh : forall m p, malloc m = Some p -> m !! p = None.

Lemma inv_init scripts : inv [] (init scripts).
Proof.
  split.
  - unfold critical_count. simpl. apply Zsum_zero.
    by intros th (cs & -> & _)%list_elem_of_fmap.
  - simpl. intros t th Hth Hat. apply list_lookup_fmap_Some in Hth as (cs & -> & _). done.
  - exists []. split; [apply holds_init|]. split; [done|]. simpl. split.
    + intros t th Hth Hp. apply list_lookup_fmap_Some in Hth as (cs & -> & _). done.
    + intros t1 t2 th1 th2 Hth Hth2 Hp. apply list_lookup_fmap_Some in Hth as (cs & -> & _). done.
Qed.

Lemma inv_step tr s t e s' :
  inv tr s -> step malloc s t = Some (e, s') -> inv (tr ++ [(t, e)]) s'.
Proof.
  intros [Hmutex Hitem [cells Hheap]] H.
  assert (Hexcl : forall th t' th', threads s !! t = Some th -> in_critical_section th = true ->
            threads s !! t' = Some th' -> at_ th' = DUnlink -> t' = t).
  { intros th t' th' Hth Hc Hth' Hat. apply (critical_unique s t' t th' th); try done.
    unfold in_critical_section. by rewrite Hat. }
  step_inv H th Hth.
  all: split;
    [ simpl; rewrite (qt_critical_count_goto _ _ _ _ _ _ _ Hth); simpl;
      rewrite ?Hlock in Hmutex; lia
    | simpl; intros t' th' [[-> ->]|[Hne Hth']]%qt_lookup_goto Hat; simpl in Hat;
      first [ discriminate Hat
            | exact (Hitem _ _ Hth' Hat)
            | by eexists
            | destruct Hne; exact (Hexcl _ t' th' eq_refl eq_refl Hth' Hat) ]
    | simpl ].
  all: try (exists cells; eapply (heap_ok_skip _ _ _ _ _ _ _ _ _ Hth); [|done|done];
            simpl; by intros [=]).
  - exists cells. apply malloc_fresh in Hmalloc.
    by apply (heap_ok_malloc tr (q s) s cells t _
                (Thread ELock cs x (Some p) r) t p Hth).
  - exists (cells ++ [(p, x)]).
    by apply (heap_ok_link tr (q s) q0 s cells t _ _ t p Hth).
  - destruct (heap_ok_unlink tr (q s) q0 s cells t _
                (Thread DUnlock cs x nd v) t v Hth eq_refl eq_refl Hunlink Hheap)
      as (h & rest & _ & Hok).
    by exists rest.
Qed.

Lemma inv_exec scripts tr s : exec (step malloc) (init scripts) tr s -> inv tr s.
Proof.
  induction 1 as [|tr s t e s' Hex IH Hstep]; [apply inv_init|]. by eapply inv_step.
Qed.

Lemma inv_sequence tr s :
  inv tr s ->
  exists l, sequence (q s) l /\ linked tr = unlinked tr ++ l /\
            (head (q s) = None <-> l = []).
Proof.
  intros [_ _ (cells & Hq & Htr & _)]. exists cells.*2.
  split; [by exists cells|]. split; [done|].
  rewrite (holds_head _ _ Hq). by destruct cells.
Qed.

Lemma goto_self s t th th' :
  threads s !! t = Some th -> goto s t th' !! t = Some th'.
Proof. intros Hth%lookup_lt_Some. unfold goto. by rewrite list_lookup_insert_eq. Qed.

(** What a thread unlinked is what its [dequeue]s returned, and the value
    it is about to return. *)
Lemma returned_unlinked scripts tr s :
  exec (step malloc) (init scripts) tr s ->
  forall t th, threads s !! t = Some th ->
    unlinked_by t tr =
    returned t tr ++ match at_ th with DUnlock => [result th] | _ => [] end.
Proof.
  induction 1 as [|tr s t0 e s' Hex IH Hstep].
  - intros t th Hth. apply list_lookup_fmap_Some in Hth as (cs & -> & _). done.
  - intros t th' Hth'. unfold unlinked_by, returned in *. rewrite proj_snoc, !omap_app.
    step_inv Hstep th Hth; simpl in Hth'; apply qt_lookup_goto in Hth' as [[-> ->]|[Hne Hth']].
    all: try (rewrite decide_False by done; simpl; rewrite !app_nil_r; by apply IH).
    all: rewrite decide_True by done; simpl; rewrite (IH _ _ Hth); simpl;
      by rewrite ?app_nil_r.
Qed.

End Threads.

(** When one thread only dequeues, what was unlinked was unlinked by it. *)
Lemma unlinked_single c tr :
  (forall t v, (t, EvUnlink v) ∈ tr -> t = c) -> unlinked tr = unlinked_by c tr.
Proof.
  induction tr as [|[t e] tr IH] using rev_ind; intros Honly; [done|].
  unfold unlinked_by in *. rewrite unlinked_snoc, proj_snoc, omap_app, <- IH.
  - f_equal. destruct (decide (t = c)) as [->|Hne]; [by destruct e|].
    destruct e; try done. destruct Hne. apply (Honly t v).
    apply elem_of_app. right. left.
  - intros t' v Hin. apply (Honly t' v). apply elem_of_app. by left.
Qed.

(** C5. [dequeue] waits while the queue is empty and tests again after
    every wake-up. In every run of any number of threads calling [enqueue]
    and [dequeue]: the test of the loop sends the thread to
    [pthread_cond_wait] (releasing the mutex) exactly when the queue holds
    nothing, and past the loop exactly when it holds an item; a thread in
    [pthread_cond_wait] that is woken up (by a signal, a broadcast or
    spuriously) takes the mutex back and is at the test again; a thread
    past the loop holds the mutex and the queue holds an item; it then
    removes the oldest value of the queue, and that is the value [dequeue]
    returns. Over all threads, the values removed are the values linked,
    in the same order. *)
Theorem dequeue_waits_while_empty (malloc : gmap addr Node -> option addr) scripts tr s :
  (forall m p, malloc m = Some p -> m !! p = None) ->
  exec (step malloc) (init scripts) tr s ->
  (forall t, where_ s t = Some DUnlink ->
             lock s = true /\ exists v l, sequence (q s) (v :: l)) /\
  (forall t e s', step malloc s t = Some (e, s') ->
     match e with
     | EvWait =>
         where_ s t = Some DTest /\ sequence (q s) [] /\
         where_ s' t = Some DWait /\ lock s' = false
     | EvWake => where_ s t = Some DWait /\ where_ s' t = Some DWake
     | EvLock => where_ s t = Some DWake -> where_ s' t = Some DTest
     | EvProceed =>
         where_ s t = Some DTest /\ (exists v l, sequence (q s) (v :: l)) /\
         where_ s' t = Some DUnlink
     | EvUnlink v =>
         where_ s t = Some DUnlink /\
         (exists l, sequence (q s) (v :: l) /\ sequence (q s') l) /\
         where_ s' t = Some DUnlock /\ result <$> threads s' !! t = Some v
     | EvReturn v =>
         where_ s t = Some DUnlock /\ result <$> threads s !! t = Some v
     | _ => True
     end) /\
  (exists l, sequence (q s) l /\ linked tr = unlinked tr ++ l).
Proof.
  intros Hfresh Hex. pose proof (inv_exec malloc Hfresh scripts tr s Hex) as Hinv.
  destruct (inv_sequence tr s Hinv) as (l & Hseq & Htr & Hempty).
  assert (Hitem : is_Some (head (q s)) -> exists v l', sequence (q s) (v :: l')).
  { intros [h Hh]. destruct l as [|v l']; [|by exists v, l'].
    rewrite (proj2 Hempty eq_refl) in Hh. done. }
  split; [|split].
  - intros t Ht. unfold where_ in Ht.
    destruct (threads s !! t) as [th|] eqn:Hth; [|done]. simpl in Ht. injection Ht as Hat.
    split.
    + apply (critical_locked s t th); [by destruct Hinv|done|].
      unfold in_critical_section. by rewrite Hat.
    + apply Hitem. by eapply (qi_item _ _ Hinv).
  - intros t e s' Hstep.
    pose proof (inv_step malloc Hfresh tr s t e s' Hinv Hstep) as Hinv'.
    destruct Hinv as [Hmutex Hit [cells Hheap]].
    step_inv Hstep th Hth; try done.
    all: unfold where_; simpl; rewrite ?Hth, ?(goto_self _ _ _ _ Hth); simpl.
    all: try done.
    all: try (split; [done|]; split; [|done]).
    all: try (apply Hitem; by eexists).
    all: try (by rewrite (proj1 Hempty eq_refl) in Hseq).
    destruct (heap_ok_unlink tr (q s) q0 s cells t _
                (Thread DUnlock cs x nd v) t v Hth eq_refl eq_refl Hunlink Hheap)
      as (h & rest & -> & (Hq' & _)).
    exists rest.*2. split; [|by exists rest].
    destruct Hheap as (Hq & _). by exists ((h, v) :: rest).
  - by exists l.
Qed.

(** A consumer (thread 1) finds the queue empty and waits; it is woken up
    while the queue is still empty and waits again; the producer (thread 0)
    enqueues 5; woken up once more, the consumer leaves the loop and
    returns 5. *)
Lemma dequeue_waits_while_empty_witness :
  exists tr s,
    run (step (fun m => Some (fresh (dom m))))
        [1; 1; 1; 1; 1; 1; 0; 0; 0; 0; 0; 0; 1; 1; 1; 1; 1]%nat
        (init [[Enq 5]; [Deq]]) = Some (tr, s) /\
    proj 1 tr = [EvCall Deq; EvLock; EvWait; EvWake; EvLock; EvWait;
                 EvWake; EvLock; EvProceed; EvUnlink 5; EvReturn 5] /\
    exists l, sequence (q s) l /\ linked tr = unlinked tr ++ l.
Proof.
  eexists _, _. split; [vm_compute; reflexivity|]. split; [reflexivity|].
  refine (proj2 (proj2 (dequeue_waits_while_empty (fun m => Some (fresh (dom m)))
                          [[Enq 5]; [Deq]] _ _ _ _))).
  - intros m p [= <-]. apply not_elem_of_dom. apply is_fresh.
  - apply (run_exec _ [1; 1; 1; 1; 1; 1; 0; 0; 0; 0; 0; 0; 1; 1; 1; 1; 1]%nat).
    vm_compute. reflexivity.
Defined.

(** C2. First in, first out, for a single client of the queue. Enqueueing
    the items of a list and dequeueing as many times returns the list, in
    order, and leaves the queue empty (unless [malloc] fails, in which case
    [enqueue] exits the process; with a [malloc] that never fails the calls
    do return). Whatever calls the client makes, the values its [dequeue]s
    return are the first of the values it passed to [enqueue], in the same
    order. The same holds of the Go queue. With any number of threads
    calling [enqueue] and one thread only calling [dequeue], the values
    this thread's [dequeue]s have returned are the first of the values
    linked into the queue, in the order in which they were linked. *)
Theorem fifo_order (malloc : gmap addr Node -> option addr) :
  (forall m p, malloc m = Some p -> m !! p = None) ->
  (forall l, calls malloc (round_trip l) queue_init = Exits \/
             exists q, calls malloc (round_trip l) queue_init = Ok (l, q) /\
                       head q = None /\ tail q = None) /\
  (forall l, (forall m, is_Some (malloc m)) ->
             exists q, calls malloc (round_trip l) queue_init = Ok (l, q)) /\
  (forall cs vs q, calls malloc cs queue_init = Ok (vs, q) ->
                   vs `prefix_of` enqueued cs) /\
  (forall l, GoQueue.calls (round_trip l) GoQueue.NewQueue = Ok (l, GoQueue.NewQueue)) /\
  (forall cs vs q, GoQueue.calls cs GoQueue.NewQueue = Ok (vs, q) ->
                   vs `prefix_of` enqueued cs) /\
  (forall scripts tr s c,
     exec (step malloc) (init scripts) tr s ->
     (forall t v, (t, EvUnlink v) ∈ tr -> t = c) ->
     returned c tr `prefix_of` linked tr).
Proof.
  intros Hfresh. split; [|split; [|split; [|split; [|split]]]].
  - intros l. destruct (round_trip_fifo malloc Hfresh l) as [->|(q & -> & Hq)]; [by left|].
    right. exists q. split; [done|].
    pose proof (contents_rep_ok q [] Hq) as [Hiff _].
    assert (head q = None) as Hh by (by apply (contents_head q [])).
    split; [done|]. by apply Hiff.
  - intros l Hmem. destruct (round_trip_fifo malloc Hfresh l) as [Hexit|(q & -> & Hq)].
    + by destruct (calls_no_exit malloc (round_trip l) queue_init Hmem).
    + by exists q.
  - intros cs vs q Hcalls.
    destruct (calls_fifo malloc Hfresh cs queue_init [] vs q contents_init Hcalls)
      as (l' & _ & Heq).
    exists l'. done.
  - apply go_round_trip.
  - intros cs vs q Hcalls. apply go_calls_fifo in Hcalls. by eexists.
  - intros scripts tr s c Hex Honly.
    destruct (inv_sequence tr s (inv_exec malloc Hfresh scripts tr s Hex))
      as (l & _ & Htr & _).
    rewrite Htr, (unlinked_single c tr Honly).
    destruct (threads s !! c) as [th|] eqn:Hth.
    + rewrite (returned_unlinked malloc scripts tr s Hex c th Hth), <- app_assoc.
      by eexists.
    + assert (proj c tr = []) as Hnone.
      { clear Htr Honly. induction Hex as [|tr s t e s' Hex IH Hstep]; [done|].
        rewrite proj_snoc.
        assert (threads s !! c = None) as Hc.
        { step_inv Hstep th0 Hth0; simpl in Hth; unfold goto in Hth;
            apply lookup_ge_None in Hth; rewrite length_insert in Hth;
            by apply lookup_ge_None. }
        rewrite (IH Hc). destruct (decide (t = c)) as [->|]; [|done].
        unfold step in Hstep. rewrite Hc in Hstep. by destruct (alive s). }
      unfold returned, unlinked_by. rewrite Hnone. by eexists.
Qed.

(** With a [malloc] that hands out the first free address, the items 5, 7
    and 9 come back as 5, 7 and 9. *)
Lemma fifo_order_witness :
  calls (fun m => Some (fresh (dom m))) (round_trip [5; 7; 9]) queue_init
    = Ok ([5; 7; 9], queue_init) /\
  exists q, calls (fun m => Some (fresh (dom m))) (round_trip [5; 7; 9]) queue_init
    = Ok ([5; 7; 9], q).
Proof.
  split; [vm_compute; reflexivity|].
  refine (proj1 (proj2 (fifo_order (fun m => Some (fresh (dom m))) _)) [5; 7; 9] _).
  - intros m p [= <-]. apply not_elem_of_dom. apply is_fresh.
  - intros m. by eexists.
Defined.

(** C10. [head] is [NULL] exactly when [tail] is [NULL], and [head == tail]
    when the queue has exactly one node: after [queue_init], and after every
    [enqueue] and every [dequeue] that returns, in every state a client's
    calls lead to (there the heap holds as many nodes as the queue holds
    values), and in every state of every run of threads calling [enqueue]
    and [dequeue]. *)
Theorem head_null_iff_tail_null (malloc : gmap addr Node -> option addr) :
  (forall m p, malloc m = Some p -> m !! p = None) ->
  rep_ok queue_init /\
  (forall cs vs q, calls malloc cs queue_init = Ok (vs, q) ->
     rep_ok q /\
     (size (mem q) = 1%nat -> is_Some (head q) /\ head q = tail q) /\
     (forall item q', enqueue malloc q item = Ok q' -> rep_ok q') /\
     (forall v q', dequeue q = Ok (v, q') -> rep_ok q')) /\
  (forall scripts tr s, exec (step malloc) (init scripts) tr s -> rep_ok (q s)).
Proof.
  intros Hfresh. split; [by eapply contents_rep_ok, contents_init|]. split; cycle 1.
  { intros scripts tr s Hex.
    destruct (inv_sequence tr s (inv_exec malloc Hfresh scripts tr s Hex))
      as (l & Hseq & _).
    by eapply sequence_rep_ok. }
  intros cs vs q Hcalls.
  destruct (calls_fifo malloc Hfresh cs queue_init [] vs q contents_init Hcalls)
    as (l & Hq & _).
  split; [by eapply contents_rep_ok|]. split.
  { intros Hsize. rewrite (contents_size q l Hq) in Hsize.
    destruct Hq as (cells & Hholds & Hl & _). rewrite <- Hl, length_fmap in Hsize.
    destruct cells as [|[a v] [|? ?]]; try done.
    apply holds_singleton in Hholds as [-> ->]. split; [by eexists|done]. }
  split.
  - intros item q' Henq.
    destruct (enqueue_contents malloc Hfresh q l item Hq) as [[Hex _]|(q1 & Hq1 & Hc)].
    + congruence.
    + rewrite Henq in Hq1. injection Hq1 as <-. by eapply contents_rep_ok.
  - intros v q' Hdeq. destruct l as [|w l].
    + rewrite dequeue_empty in Hdeq; [done|]. by apply (contents_head q []).
    + destruct (dequeue_contents q w l Hq) as (q1 & Hq1 & Hc).
      rewrite Hdeq in Hq1. injection Hq1 as <- <-. by eapply contents_rep_ok.
Qed.

(** After [enqueue 5; enqueue 7; dequeue] one node is left, and [head] and
    [tail] both point to it. *)
Lemma head_null_iff_tail_null_witness :
  exists q,
    calls (fun m => Some (fresh (dom m))) [Enq 5; Enq 7; Deq] queue_init = Ok ([5], q) /\
    head q = Some 2%positive /\ tail q = Some 2%positive /\ size (mem q) = 1%nat /\
    rep_ok q.
Proof.
  eexists. split; [vm_compute; reflexivity|].
  split; [reflexivity|]. split; [reflexivity|]. split; [reflexivity|].
  refine (proj1 (proj1 (proj2 (head_null_iff_tail_null (fun m => Some (fresh (dom m))) _))
                       [Enq 5; Enq 7; Deq] [5] _ _)).
  - intros m p [= <-]. apply not_elem_of_dom. apply is_fresh.
  - vm_compute. reflexivity.
Defined.

End QueueThreadsFacts.

(** ** Configuration *)

Module ConfigFacts.

(** C8, as the programs have it. The configuration is not validated.
    [main] of [dining_philosophers.c] exits exactly when [argc] is not 3,
    [main] of [producer_consumer.c] exactly when [argc] is not 5 or
    [malloc] fails, and [main] of [producer_consumer.go] exactly when there
    are not four arguments or the buffer size is negative ([make] panics).
    With the right number of arguments and positive numbers of threads, the
    threads are created whatever the cycle count, the item count and (in C)
    the buffer size. *)
Theorem configuration_is_not_validated :
  (forall n c argc a, Ring.main n c argc a = Exits <-> argc <> 3) /\
  (forall n c, 0 < n ->
     Ring.main n c 3 true = Ok (n, c, Ring.init Ring.Posix n) /\
     length (Ring.phils (Ring.init Ring.Posix n)) = Z.to_nat n) /\
  (forall size argc np nc ipp a,
     Channel.main size argc np nc ipp a = Exits <-> argc <> 5 \/ a = false) /\
  (forall size np nc ipp, 0 < np -> 0 < nc ->
     Channel.main size 5 np nc ipp true = Ok (size, Channel.init size np nc ipp) /\
     length (Channel.threads (Channel.init size np nc ipp))
       = (Z.to_nat nc + Z.to_nat np)%nat) /\
  (forall nargs np nc size ipp,
     GoChannel.main nargs np nc size ipp = Exits <-> nargs <> 5 \/ size < 0) /\
  (forall np nc size ipp, 0 <= size ->
     GoChannel.main 5 np nc size ipp
       = Ok (GoChannel.Started (Z.to_nat nc) (Z.to_nat np))).
Proof.
  split; [|split; [|split; [|split; [|split]]]].
  - intros n c argc a. unfold Ring.main.
    destruct (Z.eqb_spec argc 3); [|done].
    destruct ((0 <? n) && a); split; done.
  - intros n c Hn. unfold Ring.main. simpl.
    rewrite (proj2 (Z.ltb_lt 0 n) Hn). simpl. by rewrite length_replicate.
  - intros size argc np nc ipp a. unfold Channel.main.
    destruct (Z.eqb_spec argc 5); [|split; [by left|done]].
    destruct a; [|split; [by right|done]].
    destruct ((0 <? np) && (0 <? nc)); split; try done; by intros [|].
  - intros size np nc ipp Hnp Hnc. unfold Channel.main. simpl.
    rewrite (proj2 (Z.ltb_lt 0 np) Hnp), (proj2 (Z.ltb_lt 0 nc) Hnc). simpl.
    by rewrite length_app, !length_replicate.
  - intros nargs np nc size ipp. unfold GoChannel.main.
    destruct (Z.eqb_spec nargs 5); [|split; [by left|done]].
    destruct (Z.ltb_spec size 0); split; try done; [by right|]. intros [|]; [done|lia].
  - intros np nc size ipp Hsize. unfold GoChannel.main. simpl.
    destruct (Z.ltb_spec size 0); [lia|done].
Qed.

(** C8 as stated fails. Five philosophers and a cycle count of 0: [main]
    creates the five threads, and thread 0 runs (it leaves its loop at
    once). [producer_consumer.c] with 0 items per producer and
    [producer_consumer.go] with a buffer of size 0 start their threads as
    well. *)
Lemma threads_start_under_invalid_configuration :
  Ring.main 5 0 3 true = Ok (5, 0, Ring.init Ring.Posix 5) /\
  length (Ring.phils (Ring.init Ring.Posix 5)) = 5%nat /\
  (exists s', Ring.step Ring.Posix 5 0 (Ring.init Ring.Posix 5) 0
                = Some (Ring.EvReturn, s')) /\
  Channel.main 3 5 2 2 0 true = Ok (3, Channel.init 3 2 2 0) /\
  GoChannel.main 5 2 2 0 4 = Ok (GoChannel.Started 2 2).
Proof.
  split; [reflexivity|]. split; [reflexivity|]. split; [by eexists|].
  split; reflexivity.
Qed.

End ConfigFacts.

(** ** ResourceRing: the forks and the end of the meal *)

Module RingSafety.
Import CInt CIntFacts Ring RingFacts RingHands.

Section Table.
Variable L : language.
Variables N C : Z.
Hypothesis HN : 2 <= N <= INT_MAX.
Hypothesis HC : C <= INT_MAX.

Lemma cycle_balance f id : 0 <= id < N -> Zsum (fork_balance f) (cycle_events N id) = 0.
Proof.
  intros Hid. destruct (left_right N HN id Hid) as (Hne & _ & _ & [[H1 H2]|[H1 H2]]).
  all: unfold cycle_events, Zsum; simpl; rewrite H1, H2.
  all: destruct (Z.eqb_spec (left id) f); destruct (Z.eqb_spec (right N id) f); lia.
Qed.

(** A thread has a fork in hand exactly between its lock and its unlock of
    this fork. *)
Lemma in_hand_holds tr s t p f :
  exec (step L N C) (init L N) tr s -> phils s !! t = Some p ->
  (in_hand t f tr = 0 \/ in_hand t f tr = 1) /\
  (in_hand t f tr = 1 <-> holds N (Z.of_nat t) (at_ p) f).
Proof.
  intros Hex Hp.
  assert (Hg : gate_inv L N C s) by (eapply gate_inv_exec; [lia|done..]).
  assert (Hid : 0 <= Z.of_nat t < N) by (by eapply thread_id).
  unfold in_hand. rewrite (ring_proj_history L N C ltac:(lia) HC tr s Hex t p Hp).
  unfold history. rewrite !Zsum_app, Zsum_join_replicate, cycle_balance by done.
  destruct (left_right N HN (Z.of_nat t) Hid) as (Hne & _ & _ & [[H1 H2]|[H1 H2]]).
  all: destruct p as [a k]; simpl; destruct a; unfold Zsum; simpl; rewrite ?H1, ?H2.
  all: destruct (Z.eqb_spec (left (Z.of_nat t)) f);
       destruct (Z.eqb_spec (right N (Z.of_nat t)) f); split; try lia.
  all: try (split; [lia|intros Hh]); try (split; [intros _|lia]); intuition (try lia; try congruence).
Qed.

End Table.
Lemma ring_proj_none L N C tr s t :
  exec (step L N C) (init L N) tr s -> phils s !! t = None -> proj t tr = [].
Proof.
  induction 1 as [|tr s t0 e s' Hex IH Hstep]; [done|]. intros Hnone.
  assert (phils s !! t = None) as Hold.
  { apply lookup_ge_None. apply lookup_ge_None in Hnone.
    step_inv Hstep p Hp; simpl in Hnone; unfold goto in Hnone;
      by rewrite length_insert in Hnone. }
  rewrite proj_snoc, (IH Hold). destruct (decide (t0 = t)) as [->|]; [|done].
  unfold step in Hstep. by rewrite Hold in Hstep.
Qed.

Theorem forks_are_exclusive L N C tr s :
  2 <= N <= INT_MAX -> C <= INT_MAX ->
  exec (step L N C) (init L N) tr s ->
  (forall t f, in_hand t f tr = 0 \/ in_hand t f tr = 1) /\
  (forall t1 t2 f, in_hand t1 f tr = 1 -> in_hand t2 f tr = 1 -> t1 = t2) /\
  (forall f, nth_mutex (forks s) f = Some true <-> exists t, in_hand t f tr = 1) /\
  (forall t p, phils s !! t = Some p -> at_ p = Eating ->
     in_hand t (left (Z.of_nat t)) tr = 1 /\ in_hand t (right N (Z.of_nat t)) tr = 1) /\
  (forall t1 t2 p1 p2, phils s !! t1 = Some p1 -> phils s !! t2 = Some p2 ->
     at_ p1 = Eating -> at_ p2 = Eating -> t1 <> t2 ->
     Z.of_nat t2 <> right N (Z.of_nat t1) /\ Z.of_nat t1 <> right N (Z.of_nat t2)).
Proof.
  intros HN HC Hex.
  pose proof (fork_inv_exec L N C HN HC tr s Hex) as [Hlen Hlocked Hheld Hexcl].
  assert (Hnone : forall t f, phils s !! t = None -> in_hand t f tr = 0).
  { intros t f Ht. unfold in_hand. by rewrite (ring_proj_none L N C tr s t Hex Ht). }
  assert (Hiff : forall t f, in_hand t f tr = 1 <-> holding N s t f).
  { intros t f. destruct (phils s !! t) as [p|] eqn:Hp.
    - destruct (in_hand_holds L N C HN HC tr s t p f Hex Hp) as [_ ->].
      split; [by exists p|]. intros (p' & Hp' & Hh). congruence.
    - rewrite (Hnone t f Hp). split; [lia|]. intros (p' & Hp' & _). congruence. }
  assert (Heat : forall t p, phils s !! t = Some p -> at_ p = Eating ->
     in_hand t (left (Z.of_nat t)) tr = 1 /\ in_hand t (right N (Z.of_nat t)) tr = 1).
  { intros t p Hp Hat. split; apply Hiff; exists p; (split; [done|]); rewrite Hat; simpl; auto. }
  split; [|split; [|split; [|split]]].
  - intros t f. destruct (phils s !! t) as [p|] eqn:Hp.
    + by destruct (in_hand_holds L N C HN HC tr s t p f Hex Hp).
    + left. by apply Hnone.
  - intros t1 t2 f H1%Hiff H2%Hiff. by eapply Hexcl.
  - intros f. split.
    + intros [t Ht]%Hlocked. exists t. by apply Hiff.
    + intros [t Ht%Hiff]. by eapply Hheld.
  - done.
  - intros t1 t2 p1 p2 Hp1 Hp2 Ha1 Ha2 Hne.
    destruct (Heat t1 p1 Hp1 Ha1) as [Hl1 Hr1]. destruct (Heat t2 p2 Hp2 Ha2) as [Hl2 Hr2].
    unfold left in *. split; intros Heq.
    + rewrite <- Heq in Hr1. apply Hne. apply Hiff in Hr1, Hl2. by eapply Hexcl.
    + rewrite <- Heq in Hr2. apply Hne. apply Hiff in Hr2, Hl1. symmetry. by eapply Hexcl.
Qed.

(** Five philosophers: 0 and 2 eat at the same time; philosopher 1, between
    them, cannot lock its first fork. *)
Lemma forks_are_exclusive_witness :
  exists tr s,
    run (step Posix 5 1) [0; 0; 0; 0; 2; 2; 2; 2; 1; 1]%nat (init Posix 5) = Some (tr, s) /\
    forks s = [true; true; true; true; false] /\
    step Posix 5 1 s 1%nat = None /\
    in_hand 0 1 tr = 1 /\ in_hand 2 2 tr = 1 /\ in_hand 1 1 tr = 0 /\
    (forall t1 t2 f, in_hand t1 f tr = 1 -> in_hand t2 f tr = 1 -> t1 = t2).
Proof.
  eexists _, _. split; [vm_compute; reflexivity|].
  split; [reflexivity|]. split; [reflexivity|].
  split; [reflexivity|]. split; [reflexivity|]. split; [reflexivity|].
  refine (proj1 (proj2 (forks_are_exclusive Posix 5 1 _ _ _ _ _))).
  - unfold INT_MAX. lia.
  - unfold INT_MAX. lia.
  - apply (run_exec _ [0; 0; 0; 0; 2; 2; 2; 2; 1; 1]%nat). vm_compute. reflexivity.
Defined.

(** A table for one: the only philosopher asks the waiter, who has no
    place to give ([sem_init(&waiter, 0, 0)]; in Go a channel without
    buffer and nobody to receive), and waits for ever. *)
Theorem lone_philosopher_never_eats L C tr s :
  1 <= C ->
  exec (step L 1 C) (init L 1) tr s ->
  (tr = [] /\ s = init L 1) \/
  (tr = [(0%nat, EvThink)] /\ phils s = [Philosopher AskWaiter 0] /\
   stuck (step L 1 C) s /\ ~ all_finished s).
Proof.
  intros HC. induction 1 as [|tr s t e s' Hex IH Hstep]; [by left|]. right.
  destruct IH as [[-> ->]|(-> & Hph & Hstuck & _)]; [|by rewrite Hstuck in Hstep].
  destruct t as [|t]; [|done]. unfold step in Hstep. simpl in Hstep.
  destruct (Z.ltb_spec 0 C); [|lia]. injection Hstep as <- <-.
  split; [done|]. split; [by destruct L|]. split.
  - intros [|t]; [|done]. by destruct L.
  - intros Hfin. by specialize (Hfin 0%nat _ eq_refl).
Qed.

Lemma lone_philosopher_never_eats_witness :
  exists tr s,
    run (step Golang 1 3) [0]%nat (init Golang 1) = Some (tr, s) /\
    ((tr = [] /\ s = init Golang 1) \/
     (tr = [(0%nat, EvThink)] /\ phils s = [Philosopher AskWaiter 0] /\
      stuck (step Golang 1 3) s /\ ~ all_finished s)).
Proof.
  eexists _, _. split; [vm_compute; reflexivity|].
  apply (lone_philosopher_never_eats Golang 3); [lia|].
  apply (run_exec _ [0]%nat). vm_compute. reflexivity.
Defined.

(** When every philosopher has returned, the table is as [main] set it:
    every fork is free and the waiter has its [N - 1] places; the run took
    [8 * cycles + 1] statements of each philosopher. *)
Theorem table_is_left_clean L N C tr s :
  2 <= N <= INT_MAX -> C <= INT_MAX ->
  exec (step L N C) (init L N) tr s -> all_finished s ->
  forks s = forks (init L N) /\ waiter s = waiter (init L N) /\
  Z.of_nat (length tr) = N * (8 * Z.max 0 C + 1).
Proof.
  intros HN HC Hex Hfin.
  assert (Hg : gate_inv L N C s) by (eapply gate_inv_exec; [lia|done..]).
  pose proof (fork_inv_exec L N C HN HC tr s Hex) as [Hlen Hlocked _ _].
  split; [|split].
  - simpl. apply list_eq_same_length with (Z.to_nat N); [by rewrite length_replicate|done|].
    intros k b b' Hk Hb [-> _]%lookup_replicate. destruct b; [|done].
    destruct (Hlocked (Z.of_nat k)) as (t & p & Hp & Hh).
    { unfold nth_mutex. destruct (Z.ltb_spec (Z.of_nat k) 0); [lia|]. by rewrite Nat2Z.id. }
    rewrite (Hfin t p Hp) in Hh. done.
  - assert (admitted_count s = 0) as Hnone.
    { apply Zsum_zero. intros p [t Hp]%list_elem_of_lookup. unfold admitted.
      by rewrite (Hfin t p Hp). }
    pose proof (gi_waiter _ _ _ _ Hg) as Hw. rewrite Hnone in Hw.
    pose proof (free_places_init L N) as Hi.
    unfold free_places in *. destruct L; lia.
  - pose proof (exec_length L N C ltac:(lia) HC tr s Hex) as Hl.
    rewrite measure_init in Hl by lia.
    assert (measure C s = 0) as Hm; [|lia].
    apply Zsum_zero. intros p [t Hp]%list_elem_of_lookup. unfold remaining.
    by rewrite (Hfin t p Hp).
Qed.

Lemma table_is_left_clean_witness :
  exists tr s,
    run (step Golang 2 1) (replicate 9 0 ++ replicate 9 1)%nat (init Golang 2) = Some (tr, s) /\
    all_finished s /\
    forks s = forks (init Golang 2) /\ waiter s = waiter (init Golang 2) /\
    Z.of_nat (length tr) = 2 * (8 * Z.max 0 1 + 1).
Proof.
  eexists _, _. split; [vm_compute; reflexivity|].
  assert (Hfin : all_finished (Ring [false; false] 0
                   [Philosopher Finished 1; Philosopher Finished 1])).
  { intros [|[|t]] p; simpl; by intros [= <-]. }
  split; [exact Hfin|].
  apply (table_is_left_clean Golang 2 1).
  - unfold INT_MAX. lia.
  - unfold INT_MAX. lia.
  - apply (run_exec _ (replicate 9 0 ++ replicate 9 1)%nat). vm_compute. reflexivity.
  - exact Hfin.
Defined.

End RingSafety.

(** ** BoundedChannel: safety *)

Module ChannelSafety.
Import CInt CIntFacts Channel ChannelFacts ChannelCounts.

#[local] Arguments advance : simpl never.
#[local] Arguments store : simpl never.
#[local] Arguments load : simpl never.

Lemma stores_snoc tr t e :
  stores (tr ++ [(t, e)]) = stores tr + match e with EvStore => 1 | _ => 0 end.
Proof. unfold stores. rewrite Zsum_app. unfold Zsum. simpl. lia. Qed.

Lemma loads_snoc tr t e :
  loads (tr ++ [(t, e)]) = loads tr + match e with EvLoad => 1 | _ => 0 end.
Proof. unfold loads. rewrite Zsum_app. unfold Zsum. simpl. lia. Qed.

Section Facts.

Variable buffer_size : Z.
Variable rand : nat -> Z -> Z.
Variables num_producers num_consumers items_per_producer : Z.

Abbreviation start := (init buffer_size num_producers num_consumers items_per_producer).
Abbreviation next := (step buffer_size rand).

Definition items_held (s : channel) : Z :=
  Zsum (fun th => if holds_item th then 1 else 0) (threads s).
Definition slots_held (s : channel) : Z :=
  Zsum (fun th => if holds_slot th then 1 else 0) (threads s).

Lemma items_held_goto s t th th' b k1 k2 e f m :
  threads s !! t = Some th ->
  items_held (Chan b k1 k2 e f m (goto s t th')) =
  items_held s - (if holds_item th then 1 else 0) + (if holds_item th' then 1 else 0).
Proof. intros Hp. unfold items_held, goto. simpl. by rewrite (Zsum_insert _ _ _ th). Qed.

Lemma held_in_progress s : items_held s + slots_held s = in_progress_count s.
Proof.
  unfold items_held, slots_held, in_progress_count. rewrite Zsum_plus.
  apply Zsum_ext. intros [a ? ? ?]. unfold holds_item, holds_slot, in_progress. simpl.
  by destruct a.
Qed.

Lemma items_held_nonneg s : 0 <= items_held s.
Proof. apply Zsum_nonneg. intros t th _. destruct (holds_item th); lia. Qed.

Lemma slots_held_nonneg s : 0 <= slots_held s.
Proof. apply Zsum_nonneg. intros t th _. destruct (holds_slot th); lia. Qed.

(** What is in the buffer: the items [full_slots] counts and those held. *)
Lemma occupancy tr s :
  exec next start tr s -> stores tr - loads tr = full_slots s + items_held s.
Proof.
  induction 1 as [|tr s t e s' Hex IH Hstep].
  - unfold items_held. simpl. rewrite Zsum_app, !Zsum_replicate. simpl. unfold stores, loads, Zsum. simpl. lia.
  - rewrite stores_snoc, loads_snoc. step_inv Hstep th Hth.
    all: simpl; rewrite (items_held_goto _ _ _ _ _ _ _ _ _ _ Hth); simpl; lia.
Qed.

Lemma slots_free tr s :
  exec next start tr s ->
  buffer_size - (stores tr - loads tr) = empty_slots s + slots_held s.
Proof.
  intros Hex. pose proof (count_inv_exec _ _ _ _ _ _ _ Hex) as Hc. unfold count_inv in Hc.
  rewrite (occupancy _ _ Hex). rewrite <- held_in_progress in Hc. lia.
Qed.

(** A held mutex is held by a thread between its lock and its unlock. *)
Lemma mutex_holder s :
  mutex_inv s -> mutex_buffer s = true ->
  exists t th, threads s !! t = Some th /\ in_critical_section th = true.
Proof.
  unfold mutex_inv, critical_count. intros Hm Hheld. rewrite Hheld in Hm.
  destruct (Zsum_pos_elem (fun th => if in_critical_section th then 1 else 0) (threads s))
    as (th & [t Hth]%list_elem_of_lookup & Hc); [lia|].
  exists t, th. split; [done|]. by destruct (in_critical_section th).
Qed.

Hypothesis Hsize : 1 <= buffer_size <= INT_MAX.

Lemma load_defined b k : 0 <= k < Z.of_nat (length b) -> is_Some (load b k).
Proof.
  intros Hk. unfold load. destruct (Z.ltb_spec k 0); [lia|].
  apply lookup_lt_is_Some. lia.
Qed.

(** A thread that cannot run waits for a semaphore or for the mutex, or
    has returned. *)
Lemma blocked_iff tr s t th :
  exec next start tr s -> threads s !! t = Some th ->
  next s t = None <-> waits s th.
Proof.
  intros Hex Hth.
  assert (H0 : 0 <= buffer_size) by lia.
  pose proof (sem_inv_exec _ _ _ _ _ _ _ H0 Hex) as [Hf He].
  pose proof (mutex_inv_exec _ _ _ _ _ _ _ Hex) as Hm.
  pose proof (cursor_inv_exec _ _ _ _ _ Hsize _ _ Hex) as (Hlen & Hin & Hout).
  assert (Hcs : in_critical_section th = true -> mutex_buffer s = true).
  { by apply (critical_holds_mutex s t th). }
  assert (Hadv : forall k, is_Some (advance buffer_size k)).
  { intros k. unfold advance. destruct (Z.eqb_spec buffer_size 0); [lia|by eexists]. }
  unfold step, waits. rewrite Hth. simpl.
  destruct th as [a k v n]. unfold in_critical_section in Hcs. simpl in *.
  destruct a; simpl.
  - by destruct (k <? n).
  - destruct (Z.ltb_spec 0 (empty_slots s)); split; try done; lia.
  - by destruct (mutex_buffer s).
  - unfold store. destruct (load_defined (buffer s) (in_ s)) as [w ->]; [rewrite Hlen; lia|]. done.
  - by destruct (Hadv (in_ s)) as [w ->].
  - by rewrite Hcs.
  - done.
  - done.
  - done.
  - destruct (Z.ltb_spec 0 (full_slots s)); split; try done; lia.
  - by destruct (mutex_buffer s).
  - destruct (load_defined (buffer s) (out s)) as [w ->]; [rewrite Hlen; lia|]. done.
  - by destruct (Hadv (out s)) as [w ->].
  - by rewrite Hcs.
  - done.
  - done.
Qed.

End Facts.

(** The buffer never holds more items than it has cells, nor fewer than
    none. *)
Theorem buffer_occupancy size rand np nc ipp tr s :
  0 <= size ->
  exec (step size rand) (init size np nc ipp) tr s ->
  stores tr - loads tr = full_slots s + items_held s /\
  size - (stores tr - loads tr) = empty_slots s + slots_held s /\
  0 <= stores tr - loads tr <= size.
Proof.
  intros Hsize Hex.
  pose proof (occupancy _ _ _ _ _ _ _ Hex) as Hocc.
  pose proof (slots_free _ _ _ _ _ _ _ Hex) as Hfree.
  pose proof (sem_inv_exec _ _ _ _ _ _ _ Hsize Hex) as [Hf He].
  pose proof (items_held_nonneg s). pose proof (slots_held_nonneg s).
  split; [done|]. split; [done|]. lia.
Qed.

Lemma buffer_occupancy_witness :
  exists tr s,
    run (step 2 (fun _ _ => 42)) (replicate 6 1 ++ replicate 6 2)%nat (init 2 2 1 3) = Some (tr, s) /\
    stores tr = 2 /\ loads tr = 0 /\ empty_slots s = 0 /\ full_slots s = 0 /\
    items_held s = 2 /\
    0 <= stores tr - loads tr <= 2.
Proof.
  eexists _, _. split; [vm_compute; reflexivity|].
  split; [reflexivity|]. split; [reflexivity|]. split; [reflexivity|].
  split; [reflexivity|]. split; [reflexivity|].
  refine (proj2 (proj2 (buffer_occupancy 2 (fun _ _ => 42) 2 1 3 _ _ _ _))).
  - lia.
  - apply (run_exec _ (replicate 6 1 ++ replicate 6 2)%nat). vm_compute. reflexivity.
Defined.

(** Mutual exclusion: the mutex is held exactly while one thread is between
    its lock and its unlock, and no two threads are. *)
Theorem one_thread_in_the_buffer size rand np nc ipp tr s :
  exec (step size rand) (init size np nc ipp) tr s ->
  (forall t1 t2 th1 th2,
     threads s !! t1 = Some th1 -> threads s !! t2 = Some th2 ->
     in_critical_section th1 = true -> in_critical_section th2 = true -> t1 = t2) /\
  (mutex_buffer s = true <->
   exists t th, threads s !! t = Some th /\ in_critical_section th = true).
Proof.
  intros Hex. pose proof (mutex_inv_exec _ _ _ _ _ _ _ Hex) as Hm. split.
  - unfold mutex_inv, critical_count in Hm.
    intros t1 t2 th1 th2 H1 H2 Hc1 Hc2.
    destruct (decide (t1 = t2)) as [|Hne]; [done|].
    pose proof (Zsum_ge_two (fun th => if in_critical_section th then 1 else 0)
                  (threads s) t1 t2 th1 th2) as Hge.
    simpl in Hge. rewrite Hc1, Hc2 in Hge.
    assert (1 + 1 <= Zsum (fun th => if in_critical_section th then 1 else 0) (threads s)).
    { apply Hge; try done. intros b. destruct (in_critical_section b); lia. }
    destruct (mutex_buffer s); lia.
  - split; [by apply mutex_holder|].
    intros (t & th & Hth & Hc). by eapply critical_holds_mutex.
Qed.

Lemma one_thread_in_the_buffer_witness :
  exists tr s,
    run (step 2 (fun _ _ => 42)) [1; 1; 1; 2; 2]%nat (init 2 2 1 3) = Some (tr, s) /\
    at_ <$> threads s = [CSemWait; PStore; PLock] /\
    step 2 (fun _ _ => 42) s 2%nat = None /\
    (mutex_buffer s = true <->
     exists t th, threads s !! t = Some th /\ in_critical_section th = true).
Proof.
  eexists _, _. split; [vm_compute; reflexivity|].
  split; [reflexivity|]. split; [reflexivity|].
  refine (proj2 (one_thread_in_the_buffer 2 (fun _ _ => 42) 2 1 3 _ _ _)).
  apply (run_exec _ [1; 1; 1; 2; 2]%nat). vm_compute. reflexivity.
Defined.

(** No statement of a thread runs into undefined behaviour: a thread that
    cannot run is at [sem_wait] with the semaphore at 0, at
    [pthread_mutex_lock] with the mutex held, or has returned. *)
Theorem threads_wait_for_semaphores_and_mutex_only size rand np nc ipp tr s t th :
  1 <= size <= INT_MAX ->
  exec (step size rand) (init size np nc ipp) tr s ->
  threads s !! t = Some th ->
  step size rand s t = None <-> waits s th.
Proof. intros Hsize Hex Hth. by eapply blocked_iff. Qed.

(** Capacity 2: producer 1 is about to store and holds the mutex;
    producer 2, at its [pthread_mutex_lock], cannot run. *)
Lemma threads_wait_for_semaphores_and_mutex_only_witness :
  exists tr s th,
    run (step 2 (fun _ _ => 42)) [1; 1; 1; 2; 2]%nat (init 2 2 1 3) = Some (tr, s) /\
    threads s !! 2%nat = Some th /\ at_ th = PLock /\ mutex_buffer s = true /\
    (step 2 (fun _ _ => 42) s 2%nat = None <-> waits s th).
Proof.
  eexists _, _, _. split; [vm_compute; reflexivity|].
  split; [reflexivity|]. split; [reflexivity|]. split; [reflexivity|].
  eapply (threads_wait_for_semaphores_and_mutex_only 2 (fun _ _ => 42) 2 1 3).
  - unfold INT_MAX. lia.
  - apply (run_exec _ [1; 1; 1; 2; 2]%nat). vm_compute. reflexivity.
  - reflexivity.
Defined.

End ChannelSafety.

(** ** BoundedChannel: first in, first out *)

Module ChannelFlowFacts.
Import CInt CIntFacts Channel ChannelFacts ChannelCounts ChannelSafety ChannelFlow.

#[local] Arguments advance : simpl never.
#[local] Arguments store : simpl never.
#[local] Arguments load : simpl never.

Lemma mod_apart k n size :
  0 <= k < n -> n - k < size -> Z.to_nat (k mod size) <> Z.to_nat (n mod size).
Proof.
  intros Hk Hn Heq.
  assert (0 < size) as Hs by lia.
  pose proof (Z.mod_pos_bound k size Hs). pose proof (Z.mod_pos_bound n size Hs).
  assert (k mod size = n mod size) as Hmod by lia.
  assert ((n - k) mod size = 0) as Hz.
  { rewrite Zminus_mod, Hmod, Z.sub_diag. by apply Z.mod_0_l, Z.neq_sym, Z.lt_neq. }
  rewrite Z.mod_small in Hz; lia.
Qed.

Section Facts.

Variable buffer_size : Z.
Variable rand : nat -> Z -> Z.
Variables num_producers num_consumers items_per_producer : Z.
Hypothesis Hsize : 1 <= buffer_size <= INT_MAX.

Abbreviation start := (Channel.init buffer_size num_producers num_consumers items_per_producer).
Abbreviation next := (Channel.step buffer_size rand).
Abbreviation wstart := (ChannelFlow.init buffer_size num_producers num_consumers items_per_producer).
Abbreviation wnext := (ChannelFlow.step buffer_size rand).

Lemma watched_step w t e w' :
  wnext w t = Some (e, w') -> next (chan w) t = Some (e, chan w').
Proof.
  unfold ChannelFlow.step. destruct (next (chan w) t) as [[e0 s']|]; [|done].
  destruct e0; simpl; try (by intros [= <- <-]).
  - destruct (threads (chan w) !! t); [|done]. by intros [= <- <-].
  - destruct (threads s' !! t); [|done]. by intros [= <- <-].
Qed.

Lemma watched_exec tr w : exec wnext wstart tr w -> exec next start tr (chan w).
Proof.
  induction 1 as [|tr w t e w' Hex IH Hstep]; [constructor|].
  apply watched_step in Hstep. by eapply exec_step.
Qed.

(** Every run of the channel is a watched run. *)
Lemma exec_watched tr s :
  exec next start tr s -> exists w, exec wnext wstart tr w /\ chan w = s.
Proof.
  induction 1 as [|tr s t e s' Hex (w & Hw & <-) Hstep].
  - exists wstart. split; [constructor|done].
  - assert (exists w', wnext w t = Some (e, w') /\ chan w' = s') as (w' & Hs & Hc).
    { unfold ChannelFlow.step. rewrite Hstep.
      assert (is_Some (threads (chan w) !! t)) as [th Hth].
      { unfold Channel.step in Hstep. by destruct (threads (chan w) !! t); [eexists|]. }
      assert (is_Some (threads s' !! t)) as [th' Hth'].
      { apply lookup_lt_is_Some. apply lookup_lt_Some in Hth.
        step_inv Hstep th0 Hth0; simpl; unfold goto; by rewrite length_insert. }
      destruct e; rewrite ?Hth, ?Hth'; simpl; by eexists. }
    exists w'. split; [by eapply exec_step|done].
Qed.

Lemma chan_goto_self s t th th' :
  threads s !! t = Some th -> goto s t th' !! t = Some th'.
Proof. intros Hth%lookup_lt_Some. unfold goto. by rewrite list_lookup_insert_eq. Qed.

Lemma advance_in_goto s t th th' b k1 k2 e f m :
  threads s !! t = Some th ->
  at_advance_in (Chan b k1 k2 e f m (goto s t th')) =
  at_advance_in s - (match at_ th with PAdvance => 1 | _ => 0 end)
                  + (match at_ th' with PAdvance => 1 | _ => 0 end).
Proof. intros Hp. unfold at_advance_in, goto. simpl. by rewrite (Zsum_insert _ _ _ th). Qed.

Lemma advance_out_goto s t th th' b k1 k2 e f m :
  threads s !! t = Some th ->
  at_advance_out (Chan b k1 k2 e f m (goto s t th')) =
  at_advance_out s - (match at_ th with CAdvance => 1 | _ => 0 end)
                   + (match at_ th' with CAdvance => 1 | _ => 0 end).
Proof. intros Hp. unfold at_advance_out, goto. simpl. by rewrite (Zsum_insert _ _ _ th). Qed.

(** With one thread between lock and unlock, no other thread is about to
    move a cursor. *)
Lemma alone_in_buffer s t th :
  mutex_inv s -> threads s !! t = Some th -> in_critical_section th = true ->
  at_advance_in s = (match at_ th with PAdvance => 1 | _ => 0 end) /\
  at_advance_out s = (match at_ th with CAdvance => 1 | _ => 0 end).
Proof.
  intros Hm Hth Hc. pose proof (critical_holds_mutex s t th Hm Hth Hc) as Hheld.
  unfold mutex_inv, critical_count in Hm. rewrite Hheld in Hm.
  set (idle := Thread PLoop 0 0 0).
  pose proof (Zsum_insert (fun th => if in_critical_section th then 1 else 0)
                (threads s) t th idle Hth) as Hcs.
  rewrite Hm, Hc in Hcs. simpl in Hcs.
  pose proof (Zsum_insert (fun th => match at_ th with PAdvance => 1 | _ => 0 end)
                (threads s) t th idle Hth) as Hin.
  pose proof (Zsum_insert (fun th => match at_ th with CAdvance => 1 | _ => 0 end)
                (threads s) t th idle Hth) as Hout.
  simpl in Hin, Hout.
  pose proof (Zsum_le (fun th => match at_ th with PAdvance => 1 | _ => 0 end)
                (fun th => if in_critical_section th then 1 else 0)
                (<[t := idle]> (threads s))) as Hle1.
  pose proof (Zsum_le (fun th => match at_ th with CAdvance => 1 | _ => 0 end)
                (fun th => if in_critical_section th then 1 else 0)
                (<[t := idle]> (threads s))) as Hle2.
  pose proof (Zsum_nonneg (fun th => match at_ th with PAdvance => 1 | _ => 0 end)
                (<[t := idle]> (threads s))) as Hnn1.
  pose proof (Zsum_nonneg (fun th => match at_ th with CAdvance => 1 | _ => 0 end)
                (<[t := idle]> (threads s))) as Hnn2.
  unfold at_advance_in, at_advance_out.
  assert (forall a : thread, match at_ a with PAdvance => 1 | _ => 0 end
                             <= if in_critical_section a then 1 else 0) as H1.
  { intros [a ? ? ?]. unfold in_critical_section. simpl. destruct a; lia. }
  assert (forall a : thread, match at_ a with CAdvance => 1 | _ => 0 end
                             <= if in_critical_section a then 1 else 0) as H2.
  { intros [a ? ? ?]. unfold in_critical_section. simpl. destruct a; lia. }
  specialize (Hle1 H1). specialize (Hle2 H2).
  assert (0 <= Zsum (fun th => match at_ th with PAdvance => 1 | _ => 0 end)
                    (<[t := idle]> (threads s))).
  { apply Hnn1. intros ? [a ? ? ?] _. simpl. destruct a; lia. }
  assert (0 <= Zsum (fun th => match at_ th with CAdvance => 1 | _ => 0 end)
                    (<[t := idle]> (threads s))).
  { apply Hnn2. intros ? [a ? ? ?] _. simpl. destruct a; lia. }
  lia.
Qed.

(** The cursors count the stores and the loads; the cells from the oldest
    item not yet loaded to the last one stored hold these items; what was
    loaded is the beginning of what was stored. *)
Record flow_inv (tr : list (nat * event)) (w : watched) : Prop := {
  fl_stored : Z.of_nat (length (stored w)) = stores tr;
  fl_loaded : Z.of_nat (length (loaded w)) = loads tr;
  fl_in : in_ (chan w) = (stores tr - at_advance_in (chan w)) mod buffer_size;
  fl_out : out (chan w) = (loads tr - at_advance_out (chan w)) mod buffer_size;
  fl_cells : forall k, (length (loaded w) <= k < length (stored w))%nat ->
               buffer (chan w) !! Z.to_nat (Z.of_nat k mod buffer_size) = stored w !! k;
  fl_prefix : loaded w = take (length (loaded w)) (stored w)
}.

Lemma flow_inv_init : flow_inv [] wstart.
Proof.
  split; simpl; try done.
  - unfold at_advance_in. simpl. rewrite Zsum_app, !Zsum_replicate. simpl.
    unfold stores, Zsum. simpl. rewrite !Z.mul_0_r. by rewrite Z.mod_0_l by lia.
  - unfold at_advance_out. simpl. rewrite Zsum_app, !Zsum_replicate. simpl.
    unfold loads, Zsum. simpl. rewrite !Z.mul_0_r. by rewrite Z.mod_0_l by lia.
  - intros k. lia.
Qed.

Lemma flow_inv_step tr w t e w' :
  exec wnext wstart tr w -> flow_inv tr w -> wnext w t = Some (e, w') ->
  flow_inv (tr ++ [(t, e)]) w'.
Proof.
  intros Hex [Hs Hl Hin Hout Hcells Hpre] Hstep.
  apply watched_exec in Hex.
  pose proof (mutex_inv_exec _ _ _ _ _ _ _ Hex) as Hm.
  pose proof (cursor_inv_exec _ _ _ _ _ Hsize _ _ Hex) as (Hlen & Hi & Ho).
  pose proof (occupancy _ _ _ _ _ _ _ Hex) as Hocc.
  pose proof (slots_free _ _ _ _ _ _ _ Hex) as Hfree.
  assert (H0 : 0 <= buffer_size) by lia.
  pose proof (sem_inv_exec _ _ _ _ _ _ _ H0 Hex) as [Hf He].
  unfold ChannelFlow.step in Hstep.
  destruct (next (chan w) t) as [[e0 s']|] eqn:Hn; [|done].
  step_inv Hn th Hth; simpl in Hstep; rewrite ?Hth, ?(chan_goto_self _ _ _ _ Hth) in Hstep;
    simpl in Hstep; injection Hstep as <- <-.
  all: split; simpl; rewrite ?stores_snoc, ?loads_snoc, ?length_app; simpl;
    rewrite ?(advance_in_goto _ _ _ _ _ _ _ _ _ _ Hth),
            ?(advance_out_goto _ _ _ _ _ _ _ _ _ _ Hth); simpl;
    rewrite ?Z.add_0_r, ?Z.sub_0_r; try done; try lia.
  all: try (rewrite Hin; f_equal; lia).
  all: try (rewrite Hout; f_equal; lia).
  - (* the store *)
    destruct (alone_in_buffer _ _ _ Hm Hth eq_refl) as [Hnone _]. simpl in Hnone.
    rewrite Hnone, Z.sub_0_r, <- Hs in Hin.
    apply store_Some in Hstore as ->.
    assert (1 <= slots_held (chan w)) as Hslot.
    { apply (Zsum_ge_term (fun th => if holds_slot th then 1 else 0) (threads (chan w)) t
               (Thread PStore k v n)); [|done]. intros b. destruct (holds_slot b); lia. }
    intros j Hj. destruct (decide (j = length (stored w))) as [->|Hne].
    + rewrite list_lookup_middle by done. rewrite <- Hin.
      apply list_lookup_insert_eq. lia.
    + rewrite lookup_app_l by lia. rewrite Hin, list_lookup_insert_ne.
      * apply Hcells. lia.
      * apply not_eq_sym, mod_apart; lia.
  - pose proof (items_held_nonneg (chan w)). rewrite take_app_le by lia. done.
  - apply (advance_Some _ Hsize) in Hadvance as [-> _]; [|done].
    rewrite Hin, Zplus_mod_idemp_l. f_equal. lia.
  - intros j Hj. apply Hcells. lia.
  - (* the load *)
    destruct (alone_in_buffer _ _ _ Hm Hth eq_refl) as [_ Hnone]. simpl in Hnone.
    rewrite Hnone, Z.sub_0_r, <- Hl in Hout.
    apply load_Some in Hload. rewrite Hout in Hload.
    assert (1 <= items_held (chan w)) as Hitem.
    { apply (Zsum_ge_term (fun th => if holds_item th then 1 else 0) (threads (chan w)) t
               (Thread CLoad k v n)); [|done]. intros b. destruct (holds_item b); lia. }
    rewrite Hcells in Hload by lia.
    rewrite Nat.add_1_r, (take_S_r _ _ _ Hload). by rewrite <- Hpre.
  - apply (advance_Some _ Hsize) in Hadvance as [-> _]; [|done].
    rewrite Hout, Zplus_mod_idemp_l. f_equal. lia.
Qed.

Lemma flow_inv_exec tr w : exec wnext wstart tr w -> flow_inv tr w.
Proof.
  induction 1 as [|tr w t e w' Hex IH Hstep]; [apply flow_inv_init|].
  by eapply flow_inv_step.
Qed.

End Facts.

(** First in, first out: the values the consumers have loaded are the
    first of the values the producers have stored, in the same order; the
    values stored and not yet loaded are at most [buffer_size] and sit in
    the cells of the buffer, at their rank modulo [buffer_size]: no item is
    overwritten before it is read, none is read twice. *)
Theorem items_leave_in_the_order_they_entered size rand np nc ipp tr w :
  1 <= size <= INT_MAX ->
  exec (ChannelFlow.step size rand) (ChannelFlow.init size np nc ipp) tr w ->
  exec (Channel.step size rand) (Channel.init size np nc ipp) tr (chan w) /\
  loaded w `prefix_of` stored w /\
  (length (loaded w) <= length (stored w) <= length (loaded w) + Z.to_nat size)%nat /\
  (forall k, (length (loaded w) <= k < length (stored w))%nat ->
     buffer (chan w) !! Z.to_nat (Z.of_nat k mod size) = stored w !! k) /\
  (forall tr' s', exec (Channel.step size rand) (Channel.init size np nc ipp) tr' s' ->
     exists w', exec (ChannelFlow.step size rand) (ChannelFlow.init size np nc ipp) tr' w' /\
                chan w' = s').
Proof.
  intros Hsize Hex.
  pose proof (flow_inv_exec _ _ _ _ _ Hsize _ _ Hex) as [Hs Hl _ _ Hcells Hpre].
  pose proof (watched_exec _ _ _ _ _ _ _ Hex) as Hex'.
  assert (H0 : 0 <= size) by lia.
  destruct (buffer_occupancy size rand np nc ipp tr (chan w) H0 Hex') as (_ & _ & Hocc).
  split; [done|]. split; [|split; [lia|split; [done|]]].
  - rewrite Hpre. apply prefix_take.
  - intros tr' s'. apply exec_watched.
Qed.

(** Capacity 1, one consumer (thread 0) and one producer (thread 1) of the
    items 5 and 7: the consumer gets 5, then 7. *)
Lemma items_leave_in_the_order_they_entered_witness :
  exists tr w,
    run (ChannelFlow.step 1 (fun _ k => 5 + 2 * k))
        (replicate 8 1 ++ replicate 7 0 ++ replicate 8 1 ++ replicate 7 0)%nat
        (ChannelFlow.init 1 1 1 2) = Some (tr, w) /\
    stored w = [5; 7] /\ loaded w = [5; 7] /\
    loaded w `prefix_of` stored w.
Proof.
  eexists _, _. split; [vm_compute; reflexivity|].
  split; [reflexivity|]. split; [reflexivity|].
  refine (proj1 (proj2 (items_leave_in_the_order_they_entered 1 (fun _ k => 5 + 2 * k)
                          1 1 2 _ _ _ _))).
  - unfold INT_MAX. lia.
  - apply (run_exec _ (replicate 8 1 ++ replicate 7 0 ++ replicate 8 1 ++ replicate 7 0)%nat).
    vm_compute. reflexivity.
Defined.

End ChannelFlowFacts.

(** ** BoundedChannel: the end of a run *)

Module ChannelLiveness.
Import CInt CIntFacts Channel ChannelFacts ChannelCounts ChannelSafety ChannelWork.

#[local] Arguments advance : simpl never.
#[local] Arguments store : simpl never.
#[local] Arguments load : simpl never.

Lemma consumes_snoc tr t e :
  consumes (tr ++ [(t, e)]) = consumes tr + match e with EvConsume => 1 | _ => 0 end.
Proof. unfold consumes. rewrite Zsum_app. unfold Zsum. simpl. lia. Qed.

Section Facts.

Variable buffer_size : Z.
Variable rand : nat -> Z -> Z.
Variables num_producers num_consumers items_per_producer : Z.
Hypothesis Hitems : items_per_producer <= INT_MAX.

Abbreviation start := (init buffer_size num_producers num_consumers items_per_producer).
Abbreviation next := (step buffer_size rand).
Abbreviation total := (Z.of_nat (Z.to_nat num_producers) * Z.max 0 items_per_producer).

(** The loop of a producer. *)
Definition loop_ok (th : thread) : Prop :=
  is_producer (at_ th) = true ->
  items_to_produce th = items_per_producer /\
  0 <= i th <= Z.max 0 items_per_producer /\
  match at_ th with
  | PLoop => True
  | PReturn => items_per_producer <= i th
  | _ => i th < items_per_producer
  end.

Record work_inv (tr : list (nat * event)) (s : channel) : Prop := {
  wi_loop : forall t th, threads s !! t = Some th -> loop_ok th;
  wi_producers :
    Zsum (fun th => if is_producer (at_ th) then 1 else 0) (threads s)
    = Z.of_nat (Z.to_nat num_producers);
  wi_consumers :
    Zsum (fun th => if is_producer (at_ th) then 0 else 1) (threads s)
    = Z.of_nat (Z.to_nat num_consumers);
  wi_stores : stores tr = Zsum produced (threads s);
  wi_taken : loads tr - consumes tr = Zsum taken (threads s);
  wi_length : Z.of_nat (length tr) + work_left total tr s
              = Z.of_nat (Z.to_nat num_producers) * (8 * Z.max 0 items_per_producer + 1)
                + 7 * total
}.

Lemma work_inv_init : work_inv [] start.
Proof.
  split; simpl.
  - intros t th Hth.
    apply (lookup_start buffer_size num_producers num_consumers items_per_producer)
      in Hth as [-> | ->]; unfold loop_ok; simpl; [done|]. lia.
  - rewrite Zsum_app, !Zsum_replicate. simpl. lia.
  - rewrite Zsum_app, !Zsum_replicate. simpl. lia.
  - rewrite Zsum_app, !Zsum_replicate. unfold stores, Zsum, produced. simpl. lia.
  - rewrite Zsum_app, !Zsum_replicate. unfold loads, consumes, Zsum, taken. simpl. lia.
  - unfold work_left. simpl. rewrite Zsum_app, !Zsum_replicate.
    unfold consumes, Zsum, remaining. simpl. lia.
Qed.

Lemma work_inv_step tr s t e s' :
  work_inv tr s -> next s t = Some (e, s') -> work_inv (tr ++ [(t, e)]) s'.
Proof.
  intros [Hloop Hnp Hnc Hst Htk Hlen] H. unfold work_left in Hlen.
  step_inv H th Hth; pose proof (Hloop _ _ Hth) as Hl; unfold loop_ok in Hl; simpl in Hl.
  all: try (destruct (Hl eq_refl) as (Hl1 & Hl2 & Hl3); subst n).
  all: split; unfold work_left; simpl;
    rewrite ?stores_snoc, ?loads_snoc, ?consumes_snoc, ?length_app;
    [ intros t' th' [[-> ->]|[_ Hth']]%chan_lookup_goto; [|by eapply Hloop];
      unfold loop_ok; simpl; intros Hp; try discriminate Hp; try lia
    | unfold goto; rewrite (Zsum_insert _ _ _ _ _ Hth); simpl; lia
    | unfold goto; rewrite (Zsum_insert _ _ _ _ _ Hth); simpl; lia
    | unfold goto; rewrite (Zsum_insert _ _ _ _ _ Hth);
      unfold produced at 2 3; simpl; try lia
    | unfold goto; rewrite (Zsum_insert _ _ _ _ _ Hth);
      unfold taken at 2 3; simpl; lia
    | unfold goto; rewrite (Zsum_insert _ _ _ _ _ Hth);
      unfold remaining at 2 3; simpl; try lia ].
  all: rewrite (succ_small k items_per_producer) by lia; lia.
Qed.

Lemma work_inv_exec tr s : exec next start tr s -> work_inv tr s.
Proof.
  induction 1 as [|tr s t e s' Hex IH Hstep]; [apply work_inv_init|].
  by eapply work_inv_step.
Qed.

Lemma stores_bound tr s : work_inv tr s -> stores tr <= total.
Proof.
  intros [Hloop Hnp _ Hst _ _]. rewrite Hst, <- Hnp, Z.mul_comm, <- Zsum_scale.
  apply Zsum_le_in. intros th [t Hth]%list_elem_of_lookup.
  specialize (Hloop t th Hth). unfold loop_ok in Hloop. unfold produced.
  destruct th as [a k v n]. simpl in *. destruct a; simpl in *; lia.
Qed.

Hypothesis Hsize : 0 <= buffer_size.

Lemma work_left_nonneg tr s : exec next start tr s -> 0 <= work_left total tr s.
Proof.
  intros Hex. pose proof (work_inv_exec tr s Hex) as Hinv.
  pose proof (stores_bound tr s Hinv) as Hbound.
  destruct Hinv as [Hloop _ _ _ Htk _].
  pose proof (occupancy _ _ _ _ _ _ _ Hex) as Hocc.
  pose proof (sem_inv_exec _ _ _ _ _ _ _ Hsize Hex) as [Hf _].
  assert (Zsum waited (threads s) <= Zsum taken (threads s) + items_held s) as Hw.
  { unfold items_held. rewrite Zsum_plus. apply Zsum_le_in.
    intros [a ? ? ?] _. unfold waited, taken, holds_item. simpl. destruct a; lia. }
  assert (Zsum (fun th => -7 * waited th) (threads s) <= Zsum remaining (threads s)) as Hr.
  { apply Zsum_le_in. intros th [t Hth]%list_elem_of_lookup.
    specialize (Hloop t th Hth). unfold loop_ok in Hloop. unfold waited, remaining.
    destruct th as [a k v n]. simpl in *. destruct a; simpl in *; lia. }
  rewrite Zsum_scale in Hr. unfold work_left. lia.
Qed.

Lemma exec_bound tr s :
  exec next start tr s ->
  Z.of_nat (length tr)
  <= Z.of_nat (Z.to_nat num_producers) * (8 * Z.max 0 items_per_producer + 1) + 7 * total.
Proof.
  intros Hex. pose proof (work_left_nonneg tr s Hex).
  pose proof (wi_length _ _ (work_inv_exec tr s Hex)). lia.
Qed.

End Facts.

Section Drain.

Variable buffer_size : Z.
Variable rand : nat -> Z -> Z.
Variables num_producers num_consumers items_per_producer : Z.
Hypothesis Hitems : items_per_producer <= INT_MAX.
Hypothesis Hsize : 1 <= buffer_size <= INT_MAX.
Hypothesis Hconsumers : 1 <= num_consumers.

Abbreviation start := (init buffer_size num_producers num_consumers items_per_producer).
Abbreviation next := (step buffer_size rand).
Abbreviation total := (Z.of_nat (Z.to_nat num_producers) * Z.max 0 items_per_producer).

(** No deadlock: when no thread can run, every producer has returned and
    every item stored has been loaded. *)
Lemma stuck_drained tr s :
  exec next start tr s -> stuck next s ->
  drained s /\ empty_slots s = buffer_size /\ stores tr = total /\ loads tr = total.
Proof.
  intros Hex Hstuck.
  assert (Hw : forall t th, threads s !! t = Some th -> waits s th).
  { intros t th Hth. by apply (blocked_iff _ rand _ _ _ Hsize tr s t th Hex Hth). }
  pose proof (mutex_inv_exec _ _ _ _ _ _ _ Hex) as Hm.
  pose proof (count_inv_exec _ _ _ _ _ _ _ Hex) as Hc. unfold count_inv in Hc.
  pose proof (occupancy _ _ _ _ _ _ _ Hex) as Hocc.
  destruct (work_inv_exec _ rand _ _ _ Hitems tr s Hex) as [Hloop Hnp Hnc Hst _ _].
  assert (Hfree : mutex_buffer s = false).
  { destruct (mutex_buffer s) eqn:Hheld; [|done].
    destruct (mutex_holder s Hm Hheld) as (t & th & Hth & Hcs).
    specialize (Hw t th Hth). unfold waits in Hw. unfold in_critical_section in Hcs.
    by destruct (at_ th). }
  assert (Hat : forall t th, threads s !! t = Some th ->
            (at_ th = PSemWait /\ empty_slots s = 0) \/
            (at_ th = CSemWait /\ full_slots s = 0) \/ at_ th = PReturn).
  { intros t th Hth. specialize (Hw t th Hth). unfold waits in Hw.
    destruct (at_ th); try done; try congruence; auto. }
  assert (Hnone : in_progress_count s = 0).
  { apply Zsum_zero. intros th [t Hth]%list_elem_of_lookup. unfold in_progress.
    by destruct (Hat t th Hth) as [[-> _]|[[-> _]| ->]]. }
  assert (Hfull : full_slots s = 0).
  { destruct (Zsum_pos_elem (fun th => if is_producer (at_ th) then 0 else 1) (threads s))
      as (th & [t Hth]%list_elem_of_lookup & Hcons); [lia|].
    destruct (Hat t th Hth) as [[Ha _]|[[_ ?]|Ha]]; [|done|]; by rewrite Ha in Hcons. }
  assert (Hdrained : forall t th, threads s !! t = Some th ->
            at_ th = PReturn \/ at_ th = CSemWait).
  { intros t th Hth. destruct (Hat t th Hth) as [[_ ?]|[[? _]|?]]; [lia|auto..]. }
  assert (Hheld : items_held s = 0).
  { apply Zsum_zero. intros th [t Hth]%list_elem_of_lookup. unfold holds_item.
    by destruct (Hdrained t th Hth) as [-> | ->]. }
  assert (Hall : stores tr = total).
  { rewrite Hst, <- Hnp, Z.mul_comm, <- Zsum_scale. apply Zsum_ext_in.
    intros th [t Hth]%list_elem_of_lookup. specialize (Hloop t th Hth).
    unfold loop_ok in Hloop. unfold produced.
    destruct (Hdrained t th Hth) as [Ha|Ha]; rewrite Ha in *; simpl in *; lia. }
  split; [by split|]. split; [lia|]. split; [done|lia].
Qed.

(** Some thread can run unless every thread is stuck. *)
Lemma chan_stuck_dec s :
  stuck next s \/ exists t e s', next s t = Some (e, s').
Proof.
  assert (Hn : forall n, (forall t, (t < n)%nat -> next s t = None) \/
                         exists t e s', next s t = Some (e, s')).
  { induction n as [|n [IH|IH]]; [left; lia| |by right].
    destruct (next s n) as [[e s']|] eqn:Hs; [right; eauto|].
    left. intros t Ht. destruct (decide (t = n)) as [->|]; [done|]. apply IH. lia. }
  destruct (Hn (length (threads s))) as [Hnone|Hsome]; [left|by right].
  intros t. destruct (Nat.lt_ge_cases t (length (threads s))) as [Hlt|Hge]; [by apply Hnone|].
  unfold step. by rewrite (lookup_ge_None_2 _ _ Hge).
Qed.

(** Every run extends to a run at whose end no thread can run. *)
Lemma chan_completes tr s :
  exec next start tr s ->
  exists tr' s', exec next start (tr ++ tr') s' /\ stuck next s'.
Proof.
  intros Hex.
  remember (Z.to_nat (work_left total tr s)) as n eqn:Hn. revert tr s Hex Hn.
  induction n as [n IH] using lt_wf_ind. intros tr s Hex Hn.
  destruct (chan_stuck_dec s) as [Hstuck|(t & e & s' & Hstep)].
  - exists [], s. by rewrite app_nil_r.
  - assert (Hex' : exec next start (tr ++ [(t, e)]) s') by (by eapply exec_step).
    assert (H0 : 0 <= buffer_size) by lia.
    pose proof (work_left_nonneg _ rand _ _ _ Hitems H0 _ _ Hex).
    pose proof (work_left_nonneg _ rand _ _ _ Hitems H0 _ _ Hex').
    pose proof (wi_length _ _ _ _ _ (work_inv_exec _ rand _ _ _ Hitems _ _ Hex)) as Hl.
    pose proof (wi_length _ _ _ _ _ (work_inv_exec _ rand _ _ _ Hitems _ _ Hex')) as Hl'.
    rewrite length_app in Hl'. simpl in Hl'.
    destruct (IH (Z.to_nat (work_left total (tr ++ [(t, e)]) s')) ltac:(lia)
                (tr ++ [(t, e)]) s' Hex' eq_refl) as (tr' & s'' & Hex'' & Hstuck).
    exists ((t, e) :: tr'), s''. split; [|done].
    by rewrite <- app_assoc in Hex''.
Qed.

End Drain.

(** The channel runs to its end and stops there: a run has at most
    [np * (8 * ipp + 1)] statements of producers and [7 * np * ipp] of
    consumers; when no thread can run any more, every producer has returned,
    every consumer waits at [sem_wait(&full_slots)], and all [np * ipp]
    items have been stored and loaded; and every run extends to such an
    end. *)
Theorem channel_runs_until_drained size rand np nc ipp tr s :
  1 <= size <= INT_MAX -> 1 <= nc -> 0 <= np -> ipp <= INT_MAX ->
  exec (step size rand) (init size np nc ipp) tr s ->
  Z.of_nat (length tr) <= np * (8 * Z.max 0 ipp + 1) + 7 * (np * Z.max 0 ipp) /\
  stores tr <= np * Z.max 0 ipp /\
  (stuck (step size rand) s ->
     drained s /\ empty_slots s = size /\
     stores tr = np * Z.max 0 ipp /\ loads tr = np * Z.max 0 ipp) /\
  (exists tr' s', exec (step size rand) (init size np nc ipp) (tr ++ tr') s' /\
                  stuck (step size rand) s').
Proof.
  intros Hsize Hnc Hnp Hipp Hex.
  assert (H0 : 0 <= size) by lia.
  pose proof (exec_bound size rand np nc ipp Hipp H0 tr s Hex) as Hlen.
  assert (stores tr <= Z.of_nat (Z.to_nat np) * Z.max 0 ipp) as Hst.
  { eapply stores_bound, work_inv_exec; eauto. }
  rewrite Z2Nat.id in Hlen, Hst by done.
  split; [done|]. split; [done|]. split.
  - intros Hstuck.
    pose proof (stuck_drained size rand np nc ipp Hipp Hsize Hnc tr s Hex Hstuck) as Hd.
    by rewrite Z2Nat.id in Hd.
  - by apply (chan_completes size rand np nc ipp Hipp Hsize tr s).
Qed.

(** Capacity 1, one producer of one item and one consumer: after 16
    statements nothing can run. *)
Lemma channel_runs_until_drained_witness :
  exists tr s,
    run (step 1 (fun _ _ => 5)) (replicate 8 1 ++ replicate 7 0 ++ [1])%nat (init 1 1 1 1)
      = Some (tr, s) /\
    at_ <$> threads s = [CSemWait; PReturn] /\
    Z.of_nat (length tr) = 16 /\
    Z.of_nat (length tr) <= 1 * (8 * Z.max 0 1 + 1) + 7 * (1 * Z.max 0 1).
Proof.
  eexists _, _. split; [vm_compute; reflexivity|].
  split; [reflexivity|]. split; [reflexivity|].
  refine (proj1 (channel_runs_until_drained 1 (fun _ _ => 5) 1 1 1 _ _ _ _ _ _ _)).
  - unfold INT_MAX. lia.
  - lia.
  - lia.
  - unfold INT_MAX. lia.
  - apply (run_exec _ (replicate 8 1 ++ replicate 7 0 ++ [1])%nat). vm_compute. reflexivity.
Defined.

(** A buffer of no cell: [sem_init(&empty_slots, 0, 0)]. No thread gets
    past its first [sem_wait]; a producer runs [produce_item] once and waits
    for ever, and nothing is ever stored. *)
Theorem no_item_passes_a_buffer_of_size_0 rand np nc ipp tr s :
  exec (step 0 rand) (init 0 np nc ipp) tr s ->
  Forall (fun te => te.2 = EvProduce \/ te.2 = EvReturn) tr /\
  stores tr = 0 /\
  (length tr <= Z.to_nat np)%nat /\
  (forall t th, threads s !! t = Some th ->
     match at_ th with
     | PLoop | PReturn => True
     | PSemWait | CSemWait => step 0 rand s t = None
     | _ => False
     end).
Proof.
  intros Hex.
  assert (Hinv :
    Forall (fun te => te.2 = EvProduce \/ te.2 = EvReturn) tr /\
    Z.of_nat (length tr)
      + Zsum (fun th => match at_ th with PLoop => 1 | _ => 0 end) (threads s)
      = Z.of_nat (Z.to_nat np) /\
    forall t th, threads s !! t = Some th ->
      match at_ th with PLoop | PReturn | PSemWait | CSemWait => True | _ => False end).
  { induction Hex as [|tr s t e s' Hex (IH1 & IH2 & IH3) Hstep].
    - split; [constructor|]. split.
      + simpl. rewrite Zsum_app, !Zsum_replicate. simpl. lia.
      + intros t th Hth. by apply (lookup_start 0 np nc ipp) in Hth as [-> | ->].
    - destruct (slots_conservation 0 rand np nc ipp tr s ltac:(lia) Hex)
        as (_ & _ & Hf & He & Hsum & _).
      rewrite Forall_app, Forall_singleton, length_app. simpl.
      step_inv Hstep th Hth; pose proof (IH3 _ _ Hth) as Hh; simpl in Hh; try done; try lia.
      all: split; [split; [done|auto]|]; simpl; split;
        [ unfold goto; rewrite (Zsum_insert _ _ _ _ _ Hth); simpl; lia
        | intros t' th' [[-> ->]|[_ Hth']]%chan_lookup_goto; [done|by eapply IH3] ]. }
  destruct Hinv as (Hev & Hlen & Hat).
  destruct (slots_conservation 0 rand np nc ipp tr s ltac:(lia) Hex)
    as (_ & _ & Hf & He & Hsum & _).
  split; [done|]. split; [|split].
  - unfold stores. apply Zsum_zero. intros [t e] Hin.
    rewrite Forall_forall in Hev. by destruct (Hev _ Hin) as [-> | ->].
  - assert (0 <= Zsum (fun th => match at_ th with PLoop => 1 | _ => 0 end) (threads s)).
    { apply Zsum_nonneg. intros ? [a ? ? ?] _. simpl. destruct a; lia. }
    lia.
  - intros t th Hth. specialize (Hat t th Hth). unfold step. rewrite Hth. simpl.
    destruct (at_ th); try done.
    + destruct (Z.ltb_spec 0 (empty_slots s)); [lia|done].
    + destruct (Z.ltb_spec 0 (full_slots s)); [lia|done].
Qed.

Lemma no_item_passes_a_buffer_of_size_0_witness :
  exists tr s,
    run (step 0 (fun _ _ => 5)) [1; 2]%nat (init 0 2 1 3) = Some (tr, s) /\
    at_ <$> threads s = [CSemWait; PSemWait; PSemWait] /\
    stores tr = 0 /\ (length tr <= Z.to_nat 2)%nat.
Proof.
  eexists _, _. split; [vm_compute; reflexivity|]. split; [reflexivity|].
  refine (let H := no_item_passes_a_buffer_of_size_0 (fun _ _ => 5) 2 1 3 _ _ _ in
          conj (proj1 (proj2 H)) (proj1 (proj2 (proj2 H)))).
  apply (run_exec _ [1; 2]%nat). vm_compute. reflexivity.
Defined.

End ChannelLiveness.

(** ** MonitorQueue: the heap, and the two queues side by side *)

Module QueueHeap.
Import Queue QueueFacts QueueThreads QueueThreadsFacts.

(** Threads between [malloc] and the linking of their node. *)
Definition pending_count (s : state) : Z :=
  Zsum (fun th => if pending th then 1 else 0) (threads s).

(** The heap holds the nodes of the queue and the nodes of the threads
    that have not linked theirs yet. *)
Definition heap_count (tr : list (nat * event)) (s : state) : Prop :=
  exists cells, heap_ok tr (q s) (threads s) cells /\
    Z.of_nat (size (mem (q s))) = Z.of_nat (length cells) + pending_count s.

Lemma pending_count_goto s t th th' qq l a :
  threads s !! t = Some th ->
  pending_count (State qq l a (goto s t th')) =
  pending_count s - (if pending th then 1 else 0) + (if pending th' then 1 else 0).
Proof. intros Hp. unfold pending_count, goto. simpl. by rewrite (Zsum_insert _ _ _ th). Qed.

Section Threads.

Variable malloc : gmap addr Node -> option addr.
Hypothesis malloc_fresh : forall m p, malloc m = Some p -> m !! p = None.

Lemma heap_count_step tr s t e s' :
  heap_count tr s -> step malloc s t = Some (e, s') -> heap_count (tr ++ [(t, e)]) s'.
Proof.
  intros (cells & Hheap & Hsize) H. step_inv H th Hth.
  all: try (exists cells; split;
            [ eapply (heap_ok_skip _ _ _ _ _ _ _ _ _ Hth); [|done|done]; simpl; by intros [=]
            | simpl; rewrite (pending_count_goto _ _ _ _ _ _ _ Hth); simpl; lia ]).
  - exists cells. apply malloc_fresh in Hmalloc. split.
    + by apply (heap_ok_malloc tr (q s) s cells t _ (Thread ELock cs x (Some p) r) t p Hth).
    + simpl. rewrite (pending_count_goto _ _ _ _ _ _ _ Hth). simpl.
      rewrite map_size_insert_None by done. lia.
  - exists (cells ++ [(p, x)]). split.
    + by apply (heap_ok_link tr (q s) q0 s cells t _ _ t p Hth).
    + simpl. rewrite (pending_count_goto _ _ _ _ _ _ _ Hth). simpl.
      destruct Hheap as (Hq & _ & Hpend & _).
      destruct (Hpend _ _ Hth eq_refl) as (p0 & [= <-] & Hm0 & Hc0). simpl in Hm0.
      destruct (holds_link (q s) cells p x Hq Hm0 Hc0) as (q1 & Hl1 & _ & Hdom & _).
      assert (q1 = q0) as -> by congruence.
      rewrite <- size_dom, Hdom, size_dom, length_app. simpl. lia.
  - destruct (heap_ok_unlink tr (q s) q0 s cells t _
                (Thread DUnlock cs x nd v) t v Hth eq_refl eq_refl Hunlink Hheap)
      as (h & rest & -> & Hok).
    exists rest. split; [done|].
    simpl. rewrite (pending_count_goto _ _ _ _ _ _ _ Hth). simpl.
    destruct Hheap as (Hq & _).
    destruct (holds_unlink (q s) h v rest Hq) as (q1 & Hu1 & _ & Hmem).
    assert (q1 = q0) as -> by congruence.
    destruct Hq as ([_ (nx & Hh & _)] & _).
    rewrite Hmem, map_size_delete_Some by (by eexists). simpl in Hsize.
    assert (size (mem (q s)) <> 0%nat).
    { intros Hz. apply map_size_empty_inv in Hz. by rewrite Hz in Hh. }
    lia.
Qed.

Lemma heap_count_exec scripts tr s :
  exec (step malloc) (init scripts) tr s -> heap_count tr s.
Proof.
  induction 1 as [|tr s t e s' Hex IH Hstep]; [|by eapply heap_count_step].
  destruct (inv_init scripts) as [_ _ (cells & Hheap)].
  exists cells. split; [done|]. simpl.
  destruct Hheap as (Hq & _). apply holds_head in Hq. rewrite (proj1 Hq eq_refl).
  unfold pending_count. simpl. rewrite Zsum_zero; [done|].
  by intros th (cs & -> & _)%list_elem_of_fmap.
Qed.

End Threads.

(** No node leaks, none is freed twice: the heap holds as many nodes as
    were linked and not yet unlinked, and one per thread between its
    [malloc] and the linking of its node. When every node linked has been
    unlinked and no thread is in between, the heap is empty. *)
Theorem heap_holds_the_queue_and_no_more (malloc : gmap addr Node -> option addr)
    scripts tr s :
  (forall m p, malloc m = Some p -> m !! p = None) ->
  exec (step malloc) (init scripts) tr s ->
  Z.of_nat (size (mem (q s)))
    = Z.of_nat (length (linked tr)) - Z.of_nat (length (unlinked tr)) + pending_count s /\
  (length (unlinked tr) <= length (linked tr))%nat /\
  0 <= pending_count s /\
  (length (linked tr) = length (unlinked tr) -> pending_count s = 0 -> mem (q s) = ∅).
Proof.
  intros Hfresh Hex.
  destruct (heap_count_exec malloc Hfresh scripts tr s Hex) as (cells & (_ & Htr & _) & Hsize).
  assert (0 <= pending_count s) as Hnn.
  { apply Zsum_nonneg. intros t th _. destruct (pending th); lia. }
  assert (length (linked tr) = (length (unlinked tr) + length cells)%nat) as Hlen.
  { by rewrite Htr, length_app, length_fmap. }
  split; [lia|]. split; [lia|]. split; [done|].
  intros Hall Hnone. apply map_size_empty_inv. lia.
Qed.

(** Two producers and a consumer: when both nodes are allocated and one is
    linked, the heap holds two nodes; when both items are dequeued, none. *)
Lemma heap_holds_the_queue_and_no_more_witness :
  exists tr s,
    run (step (fun m => Some (fresh (dom m))))
        ([0; 0; 1; 1; 0; 0; 0; 0] ++ replicate 5 2)%nat
        (init [[Enq 5]; [Enq 7]; [Deq; Deq]]) = Some (tr, s) /\
    linked tr = [5] /\ unlinked tr = [5] /\ pending_count s = 1 /\ size (mem (q s)) = 1%nat /\
    Z.of_nat (size (mem (q s)))
      = Z.of_nat (length (linked tr)) - Z.of_nat (length (unlinked tr)) + pending_count s.
Proof.
  eexists _, _. split; [vm_compute; reflexivity|].
  split; [reflexivity|]. split; [reflexivity|]. split; [reflexivity|]. split; [reflexivity|].
  refine (proj1 (heap_holds_the_queue_and_no_more (fun m => Some (fresh (dom m)))
                   [[Enq 5]; [Enq 7]; [Deq; Deq]] _ _ _ _)).
  - intros m p [= <-]. apply not_elem_of_dom. apply is_fresh.
  - apply (run_exec _ ([0; 0; 1; 1; 0; 0; 0; 0] ++ replicate 5 2)%nat). vm_compute. reflexivity.
Defined.

(** The queue of [tsqueue.c] and the queue of [tsqueue.go] answer a client
    alike, as long as [malloc] does not fail: the same calls return the
    same values and leave the same items in the queue, and a [dequeue]
    waits in one exactly when it waits in the other. *)
Theorem c_and_go_queues_agree (malloc : gmap addr Node -> option addr) cs :
  (forall m p, malloc m = Some p -> m !! p = None) ->
  (forall m, is_Some (malloc m)) ->
  match calls malloc cs queue_init, GoQueue.calls cs GoQueue.NewQueue with
  | Ok (vs, qc), Ok (vs', qg) => vs = vs' /\ contents qc (GoQueue.items qg)
  | Waits, Waits => True
  | _, _ => False
  end.
Proof.
  intros Hfresh Hmem.
  assert (Hgen : forall cs qc l, contents qc l ->
    match calls malloc cs qc, GoQueue.calls cs (GoQueue.TSQ l) with
    | Ok (vs, qc'), Ok (vs', qg) => vs = vs' /\ contents qc' (GoQueue.items qg)
    | Waits, Waits => True
    | _, _ => False
    end).
  { clear cs. induction cs as [|[item|] cs IH]; intros qc l Hq; simpl.
    - done.
    - destruct (enqueue_contents malloc Hfresh qc l item Hq) as [[_ Hnull]|(q1 & -> & Hq1)].
      + destruct (Hmem (mem qc)) as [? ?]. congruence.
      + simpl. by apply IH.
    - destruct l as [|v l].
      + rewrite (dequeue_empty qc); [done|]. by apply (contents_head qc []).
      + destruct (dequeue_contents qc v l Hq) as (q1 & -> & Hq1). simpl.
        specialize (IH q1 l Hq1).
        destruct (calls malloc cs q1) as [[vs1 q2]| | |];
          destruct (GoQueue.calls cs (GoQueue.TSQ l)) as [[vs2 q3]| | |]; simpl; try done.
        destruct IH as [-> ?]. done. }
  apply Hgen, contents_init.
Qed.

Lemma c_and_go_queues_agree_witness :
  exists qc,
    calls (fun m => Some (fresh (dom m))) [Enq 5; Enq 7; Deq; Enq 9] queue_init
      = Ok ([5], qc) /\
    GoQueue.calls [Enq 5; Enq 7; Deq; Enq 9] GoQueue.NewQueue = Ok ([5], GoQueue.TSQ [7; 9]) /\
    match calls (fun m => Some (fresh (dom m))) [Enq 5; Enq 7; Deq; Enq 9] queue_init,
          GoQueue.calls [Enq 5; Enq 7; Deq; Enq 9] GoQueue.NewQueue with
    | Ok (vs, qc), Ok (vs', qg) => vs = vs' /\ contents qc (GoQueue.items qg)
    | Waits, Waits => True
    | _, _ => False
    end.
Proof.
  eexists. split; [vm_compute; reflexivity|]. split; [reflexivity|].
  apply (c_and_go_queues_agree (fun m => Some (fresh (dom m))) [Enq 5; Enq 7; Deq; Enq 9]).
  - intros m p [= <-]. apply not_elem_of_dom. apply is_fresh.
  - intros m. by eexists.
Defined.

End QueueHeap.

(** ** MonitorQueue: the program of [tsqueue.c] *)

Module ProgramFacts.
Import CInt CIntFacts Queue QueueFacts QueueThreads QueueThreadsFacts Program.

(** The values the calls of [dequeue] have returned, over all threads. *)
Definition returns (ptr : list (nat * QueueThreads.event)) : list Z :=
  omap (fun te => match te.2 with QueueThreads.EvReturn v => Some v | _ => None end) ptr.

(** Calls of [enqueue] a thread has not yet linked a node for. *)
Definition enq_left (th : thread) : Z :=
  Z.of_nat (length (enqueued (todo th)))
  + match at_ th with EMalloc | ELock | ELink => 1 | _ => 0 end.

(** Values unlinked and not yet returned. *)
Definition unreturned (th : thread) : Z :=
  match at_ th with DUnlock => 1 | _ => 0 end.

Lemma returns_snoc ptr t e :
  returns (ptr ++ [(t, e)])
  = returns ptr ++ match e with QueueThreads.EvReturn v => [v] | _ => [] end.
Proof. unfold returns. rewrite omap_app. simpl. by destruct e. Qed.

Section Pool.

Variable malloc : gmap addr Node -> option addr.
Hypothesis malloc_fresh : forall m p, malloc m = Some p -> m !! p = None.

(** [enqueues]: the calls of [enqueue] the threads were created to make. *)
Variable enqueues : Z.

Record pool_inv (ptr : list (nat * QueueThreads.event)) (p : state) : Prop := {
  pl_inv : inv ptr p;
  pl_returns :
    Z.of_nat (length (unlinked ptr))
    = Z.of_nat (length (returns ptr)) + Zsum unreturned (threads p);
  pl_links : Z.of_nat (length (linked ptr)) + Zsum enq_left (threads p) <= enqueues;
  pl_all : alive p = true ->
           Z.of_nat (length (linked ptr)) + Zsum enq_left (threads p) = enqueues
}.

Lemma pool_inv_step ptr p t e p' :
  pool_inv ptr p -> QueueThreads.step malloc p t = Some (e, p') ->
  pool_inv (ptr ++ [(t, e)]) p'.
Proof.
  intros [Hinv Hret Hlinks Hall] H.
  pose proof (inv_step malloc malloc_fresh ptr p t e p' Hinv H) as Hinv'.
  split; [done| | |].
  - rewrite unlinked_snoc, returns_snoc, !length_app.
    QueueThreadsFacts.step_inv H th Hth; simpl;
      unfold goto; rewrite (Zsum_insert _ _ _ _ _ Hth); unfold unreturned at 2 3; simpl; lia.
  - rewrite linked_snoc, length_app.
    QueueThreadsFacts.step_inv H th Hth; simpl;
      unfold goto; rewrite (Zsum_insert _ _ _ _ _ Hth); unfold enq_left at 2 3; simpl; lia.
  - rewrite linked_snoc, length_app.
    QueueThreadsFacts.step_inv H th Hth; specialize (Hall eq_refl); simpl; try done;
      intros _; unfold goto; rewrite (Zsum_insert _ _ _ _ _ Hth); unfold enq_left at 2 3;
      simpl; lia.
Qed.

(** The call of [dequeue] by a thread that is in no call. *)
Lemma pool_inv_call ptr p t th :
  pool_inv ptr p -> threads p !! t = Some th -> at_ th = Idle -> enqueued (todo th) = [] ->
  pool_inv ptr (call_dequeue p t).
Proof.
  intros [[Hmutex Hitem (cells & Hq & Htr & Hpend & Hdist)] Hret Hlinks Hall] Hth Hat Hno.
  unfold call_dequeue. rewrite Hth.
  set (th' := Thread Idle [Deq] (item th) (node th) (result th)).
  change (<[t := th']> (threads p)) with (goto p t th').
  assert (Hnp : pending th = false) by (unfold pending; by rewrite Hat).
  split; [split|..]; simpl.
  - rewrite (qt_critical_count_goto _ _ _ _ _ _ _ Hth). unfold in_critical_section.
    rewrite Hat. simpl. lia.
  - intros t' th0 [[-> ->]|[_ Hth0]]%qt_lookup_goto Ha; [done|]. by eapply Hitem.
  - exists cells. split; [done|]. split; [done|]. split.
    + intros t1 th1 [[-> ->]|[_ H1]]%qt_lookup_goto Hp1; [done|]. by eapply Hpend.
    + intros t1 t2 th1 th2 [[-> ->]|[_ H1]]%qt_lookup_goto
        [[-> ->]|[_ H2]]%qt_lookup_goto Hp1 Hp2 Hnode; try done.
      by apply (Hdist t1 t2 th1 th2).
  - unfold goto. rewrite (Zsum_insert _ _ _ _ _ Hth). unfold unreturned at 2 3.
    rewrite Hat. simpl. lia.
  - unfold goto. rewrite (Zsum_insert _ _ _ _ _ Hth). unfold enq_left at 2 3.
    rewrite Hat, Hno. simpl. lia.
  - intros Halive. specialize (Hall Halive).
    unfold goto. rewrite (Zsum_insert _ _ _ _ _ Hth). unfold enq_left at 2 3.
    rewrite Hat, Hno. simpl. lia.
Qed.

End Pool.

(** What the place of a thread in its thread function says of where it is
    in the queue: a producer calls [enqueue] only; a consumer is in the
    queue only while it is in [dequeue]. *)
Definition agrees (a : place) (th : thread) : Prop :=
  match a with
  | InProducer =>
      (forall c, c ∈ todo th -> c <> Deq) /\
      match at_ th with
      | Idle | EMalloc | ELock | ELink | ESignal | EUnlock | Exited => True
      | _ => False
      end
  | CDequeue =>
      (at_ th = Idle /\ todo th = [Deq]) \/
      (todo th = [] /\
       match at_ th with
       | DLock | DTest | DWait | DWake | DUnlink | DUnlock => True
       | _ => False
       end)
  | _ => at_ th = Idle /\ todo th = []
  end.

(** A consumer back from [dequeue] that has not counted its item yet. *)
Definition uncounted (a : place) : Z :=
  match a with CLockAgain | CCount => 1 | _ => 0 end.

Lemma queue_trace_snoc tr t e :
  queue_trace (tr ++ [(t, e)])
  = queue_trace tr ++ match e with EvQueue e' => [(t, e')] | _ => [] end.
Proof. unfold queue_trace. rewrite omap_app. simpl. by destruct e. Qed.

Lemma dequeued_snoc tr t e :
  dequeued (tr ++ [(t, e)])
  = dequeued tr ++ match e with EvQueue (QueueThreads.EvReturn v) => [v] | _ => [] end.
Proof. unfold dequeued. rewrite omap_app. simpl. destruct e as [[]| | | | | |]; done. Qed.

Lemma dequeued_returns tr : dequeued tr = returns (queue_trace tr).
Proof.
  induction tr as [|[t e] tr IH] using rev_ind; [done|].
  rewrite dequeued_snoc, queue_trace_snoc, IH.
  destruct e as [e'| | | | | |]; rewrite ?app_nil_r; try done.
  by rewrite returns_snoc.
Qed.

(** Inverts [Program.step malloc s t = Some (e, s')] into one goal per
    statement of the thread functions; [Hp] names a step inside the queue. *)
Ltac prog_step_inv H a Ha e0 p' Hp :=
  unfold Program.step in H;
  match type of H with
  | context [alive (pool ?s)] =>
      let Hal := fresh "Halive" in destruct (alive (pool s)) eqn:Hal; [|discriminate H]
  end;
  match type of H with
  | context [places ?s !! ?t] =>
      destruct (places s !! t) as [a|] eqn:Ha; simpl in H; [|done]
  end;
  destruct a; simpl in H;
  repeat match type of H with
  | context [QueueThreads.step ?m ?p ?t] =>
      destruct (QueueThreads.step m p t) as [[e0 p']|] eqn:Hp; simpl in H
  | context [if count_lock ?s then _ else _] =>
      let Hl := fresh "Hcount_lock" in destruct (count_lock s) eqn:Hl; simpl in H
  | context [?x <=? ?y] => destruct (Z.leb_spec x y); simpl in H
  end;
  try discriminate H;
  apply (inj Some) in H; apply pair_equal_spec in H; destruct H as [<- <-].

Section Threads.

Variable malloc : gmap addr Node -> option addr.
Hypothesis malloc_fresh : forall m p, malloc m = Some p -> m !! p = None.
Variable enqueues : Z.
Hypothesis Henqueues : enqueues <= INT_MAX.

Record prog_inv (tr : list (nat * event)) (s : program) : Prop := {
  pi_pool : pool_inv enqueues (queue_trace tr) (pool s);
  pi_place : forall t a, places s !! t = Some a ->
               exists th, threads (pool s) !! t = Some th /\ agrees a th;
  pi_count : consumed_count s + Zsum uncounted (places s) = Z.of_nat (length (dequeued tr));
  pi_nonneg : 0 <= consumed_count s;
  pi_exit : forall t a, places s !! t = Some a -> a = CBreak \/ a = CReturned ->
              total_items s <= consumed_count s
}.

(** What was counted was returned by [dequeue], what was returned was
    unlinked, what was unlinked was linked, and what was linked was passed
    to [enqueue]. *)
Lemma counts_chain tr s :
  prog_inv tr s ->
  consumed_count s + Zsum uncounted (places s) = Z.of_nat (length (dequeued tr)) /\
  (length (dequeued tr) <= length (unlinked (queue_trace tr)))%nat /\
  (length (unlinked (queue_trace tr)) <= length (linked (queue_trace tr)))%nat /\
  Z.of_nat (length (linked (queue_trace tr))) <= enqueues.
Proof.
  intros [[Hinv Hret Hlinks _] _ Hcount _ _].
  destruct (inv_sequence _ _ Hinv) as (l & _ & Hl & _).
  assert (0 <= Zsum unreturned (threads (pool s))).
  { apply Zsum_nonneg. intros ? [a ? ? ? ?] _. unfold unreturned. simpl. destruct a; lia. }
  assert (0 <= Zsum enq_left (threads (pool s))).
  { apply Zsum_nonneg. intros ? [a ? ? ? ?] _. unfold enq_left. simpl. destruct a; lia. }
  assert (length (linked (queue_trace tr))
          = (length (unlinked (queue_trace tr)) + length l)%nat) as Hlen.
  { by rewrite Hl, length_app. }
  rewrite dequeued_returns in *. split; [done|]. lia.
Qed.

Lemma prog_inv_step tr s t e s' :
  prog_inv tr s -> Program.step malloc s t = Some (e, s') -> prog_inv (tr ++ [(t, e)]) s'.
Proof.
  intros Hinv H. pose proof (counts_chain tr s Hinv) as (_ & Hc1 & Hc2 & Hc3).
  destruct Hinv as [Hpool Hplace Hcount Hnn Hexit].
  prog_step_inv H a Ha e0 p' Hp.
  all: try (split; simpl; rewrite ?queue_trace_snoc, ?dequeued_snoc, ?app_nil_r;
    [ done
    | intros t' a' [(-> & <- & _)|[_ Hl]]%list_lookup_insert_Some; [|by apply Hplace];
      destruct (Hplace _ _ Ha) as (th & Hth & Hag); by exists th
    | rewrite (Zsum_insert _ _ _ _ _ Ha); simpl; lia
    | done
    | intros t' a' [(-> & <- & _)|[_ Hl]]%list_lookup_insert_Some Hor;
      [|by eapply Hexit];
      first [ by destruct Hor | lia | eapply Hexit; [exact Ha|by left] ] ]).
  - pose proof (pool_inv_step malloc malloc_fresh enqueues _ _ _ _ _ Hpool Hp) as Hpool'.
    destruct (Hplace _ _ Ha) as (th0 & Hth0 & Hno & Hat).
    QueueThreadsFacts.step_inv Hp th Hth; injection Hth0 as <-; simpl in Hno, Hat; try done.
    all: try (by destruct (Hno Deq); [left|]).
    all: split; simpl; rewrite ?queue_trace_snoc, ?dequeued_snoc, ?app_nil_r; try done.
    all: intros t0 a0 Ha0; destruct (decide (t0 = t)) as [->|Hne];
      [ rewrite Ha in Ha0; injection Ha0 as <-; eexists;
        (split; [by eapply goto_self|]); simpl; (split; [|done]);
        intros c Hc; apply Hno; first [by right|done]
      | destruct (Hplace _ _ Ha0) as (th1 & Hth1 & Hag1); exists th1; (split; [|done]);
        simpl; unfold goto; by rewrite list_lookup_insert_ne ].
  - (* the call of [dequeue] *)
    destruct (Hplace _ _ Ha) as (th & Hth & Hat & Htodo).
    split; simpl; rewrite ?queue_trace_snoc, ?dequeued_snoc, ?app_nil_r; try done.
    + apply (pool_inv_call enqueues _ _ _ th); try done. by rewrite Htodo.
    + intros t0 a0 [(-> & <- & _)|[Hne Ha0]]%list_lookup_insert_Some; rewrite Hth.
      * eexists. split; [by eapply goto_self|]. simpl. by left.
      * destruct (Hplace _ _ Ha0) as (th1 & Hth1 & Hag1). exists th1. split; [|done].
        by rewrite list_lookup_insert_ne.
    + rewrite (Zsum_insert _ _ _ _ _ Ha). simpl. lia.
    + intros t' a' [(-> & <- & _)|[_ Hl]]%list_lookup_insert_Some Hor;
        [by destruct Hor|by eapply Hexit].
  - (* a statement of [dequeue] *)
    pose proof (pool_inv_step malloc malloc_fresh enqueues _ _ _ _ _ Hpool Hp) as Hpool'.
    destruct (Hplace _ _ Ha) as (th0 & Hth0 & Hag).
    QueueThreadsFacts.step_inv Hp th Hth; injection Hth0 as <-; simpl in Hag;
      destruct Hag as [[Hat Htodo]|[Htodo Hat]]; try done; simplify_eq.
    all: split; simpl; rewrite ?queue_trace_snoc, ?dequeued_snoc, ?app_nil_r, ?length_app;
      simpl; try done.
    all: try (intros t0 a0 Ha0; destruct (decide (t0 = t)) as [->|Hne];
      [ rewrite Ha in Ha0; injection Ha0 as <-; eexists;
        (split; [by eapply goto_self|]); simpl; by right
      | destruct (Hplace _ _ Ha0) as (th1 & Hth1 & Hag1); exists th1; (split; [|done]);
        simpl; unfold goto; by rewrite list_lookup_insert_ne ]).
    + intros t0 a0 [(-> & <- & _)|[Hne Ha0]]%list_lookup_insert_Some.
      * eexists. split; [by eapply goto_self|]. done.
      * destruct (Hplace _ _ Ha0) as (th1 & Hth1 & Hag1). exists th1. split; [|done].
        simpl. unfold goto. by rewrite list_lookup_insert_ne.
    + rewrite (Zsum_insert _ _ _ _ _ Ha). simpl. lia.
    + intros t' a' [(-> & <- & _)|[_ Hl]]%list_lookup_insert_Some Hor;
        [by destruct Hor|by eapply Hexit].
  - (* the item is counted *)
    assert (1 <= Zsum uncounted (places s)) as Hone.
    { apply (Zsum_ge_term uncounted (places s) t CCount); [|done]. intros []; simpl; lia. }
    rewrite add_small by (unfold in_range, INT_MIN; lia).
    split; simpl; rewrite ?queue_trace_snoc, ?dequeued_snoc, ?app_nil_r; try done.
    + intros t' a' [(-> & <- & _)|[_ Hl]]%list_lookup_insert_Some; [|by apply Hplace].
      destruct (Hplace _ _ Ha) as (th & Hth & Hag). by exists th.
    + rewrite (Zsum_insert _ _ _ _ _ Ha). simpl. lia.
    + lia.
    + intros t' a' [(-> & <- & _)|[_ Hl]]%list_lookup_insert_Some Hor; [by destruct Hor|].
      pose proof (Hexit _ _ Hl Hor). lia.
Qed.

End Threads.

Lemma enqueued_producer_calls id n :
  enqueued (producer_calls id n) = (fun k => item_of id (Z.of_nat k)) <$> seq 0 (Z.to_nat n).
Proof.
  unfold producer_calls, enqueued. induction (seq 0 (Z.to_nat n)) as [|k l IH]; [done|].
  rewrite !fmap_cons. cbn [omap list_omap]. by rewrite <- IH.
Qed.

Lemma enq_left_init np nc ipp :
  Zsum enq_left (threads (pool (Program.init np nc ipp)))
  = Z.of_nat (Z.to_nat np) * Z.of_nat (Z.to_nat ipp).
Proof.
  simpl. rewrite Zsum_fmap, Zsum_app, Zsum_fmap, Zsum_replicate.
  rewrite (Zsum_const _ (Z.of_nat (Z.to_nat ipp))).
  - rewrite length_seq. unfold enq_left. simpl. lia.
  - intros id _. unfold enq_left. simpl.
    rewrite enqueued_producer_calls, length_fmap, length_seq. lia.
Qed.

Lemma prog_inv_init (malloc : gmap addr Node -> option addr) np nc ipp :
  prog_inv (Z.of_nat (Z.to_nat np) * Z.of_nat (Z.to_nat ipp)) [] (Program.init np nc ipp).
Proof.
  split; simpl.
  - split.
    + apply inv_init.
    + simpl. rewrite Zsum_fmap. symmetry. by apply Zsum_zero.
    + pose proof (enq_left_init np nc ipp) as He. simpl in He. simpl. rewrite He. lia.
    + intros _. pose proof (enq_left_init np nc ipp) as He. simpl in He. simpl.
      rewrite He. lia.
  - intros t a [Ha|[Hlen Ha]]%lookup_app_Some.
    + apply lookup_replicate in Ha as [-> Ht].
      eexists. split.
      * rewrite list_lookup_fmap, lookup_app_l by (by rewrite length_fmap, length_seq).
        rewrite list_lookup_fmap, lookup_seq_lt by done. done.
      * simpl. split; [|done]. unfold producer_calls.
        intros c (k & -> & _)%list_elem_of_fmap. done.
    + apply lookup_replicate in Ha as [-> Ht]. rewrite length_replicate in *.
      eexists. split.
      * rewrite list_lookup_fmap, lookup_app_r by (by rewrite length_fmap, length_seq).
        rewrite length_fmap, length_seq, lookup_replicate_2 by done. done.
      * done.
  - rewrite Zsum_app, !Zsum_replicate. simpl. lia.
  - done.
  - intros t a [Ha|[_ Ha]]%lookup_app_Some Hor;
      apply lookup_replicate in Ha as [-> _]; by destruct Hor.
Qed.

Lemma total_items_exec (malloc : gmap addr Node -> option addr) np nc ipp tr s :
  exec (Program.step malloc) (Program.init np nc ipp) tr s ->
  total_items s = mul np ipp.
Proof.
  induction 1 as [|tr s t e s' Hex IH Hstep]; [done|].
  prog_step_inv Hstep a Ha e0 p' Hp; done.
Qed.

(** Nothing is in the queue and nothing will be: no thread has an
    [enqueue] to call, nor a node to link. *)
Definition starved (s : program) : Prop :=
  head (q (pool s)) = None /\
  forall t th, threads (pool s) !! t = Some th ->
    enqueued (todo th) = [] /\
    match at_ th with EMalloc | ELock | ELink | DUnlink => False | _ => True end.

(** Thread [t] is in [dequeue] and has taken no item. *)
Definition waiting (s : program) (t : nat) : Prop :=
  places s !! t = Some CDequeue /\
  exists th, threads (pool s) !! t = Some th /\
    match at_ th with Idle | DLock | DTest | DWait | DWake => True | _ => False end.

Lemma waiting_eq s s2 t :
  places s2 !! t = places s !! t ->
  threads (pool s2) !! t = threads (pool s) !! t ->
  waiting s t -> waiting s2 t.
Proof. unfold waiting. by intros -> ->. Qed.

Lemma starved_step (malloc : gmap addr Node -> option addr) s t e s' :
  starved s -> Program.step malloc s t = Some (e, s') ->
  starved s' /\
  match e with EvQueue (QueueThreads.EvUnlink _) => False | _ => True end /\
  forall t', waiting s t' -> waiting s' t'.
Proof.
  intros [Hhead Hths] H.
  prog_step_inv H a Ha e0 p' Hp.
  all: try (split; [done|split; [done|]]; intros t' Hw;
            destruct (decide (t' = t)) as [->|Hne];
            [ destruct Hw as [Hw _]; congruence
            | apply (waiting_eq s); simpl; [by rewrite list_lookup_insert_ne|done|done] ]).
  - (* a statement of [enqueue] *)
    QueueThreadsFacts.step_inv Hp th Hth; destruct (Hths _ _ Hth) as [Hno Hat];
      simpl in Hno, Hat; try done.
    all: split; [split; [done|]|split; [done|]].
    all: try (intros t' th' [[-> ->]|[_ Hth']]%qt_lookup_goto; [done|by eapply Hths]).
    all: intros t' Hw; destruct (decide (t' = t)) as [->|Hne];
      [ destruct Hw as [Hw _]; congruence
      | apply (waiting_eq s); simpl; [done|unfold goto; by rewrite list_lookup_insert_ne|done] ].
  - (* the call of [dequeue] *)
    split; [|split; [done|]].
    + split; [done|]. simpl. intros t' th'.
      destruct (threads (pool s) !! t) as [th|] eqn:Hth; [|by apply Hths].
      intros [(-> & <- & _)|[_ Hth']]%list_lookup_insert_Some; [done|by eapply Hths].
    + intros t' Hw. destruct (decide (t' = t)) as [->|Hne];
        [destruct Hw as [Hw _]; congruence|].
      apply (waiting_eq s); simpl; [by rewrite list_lookup_insert_ne| |done].
      destruct (threads (pool s) !! t); [by rewrite list_lookup_insert_ne|done].
  - (* a statement of [dequeue] *)
    QueueThreadsFacts.step_inv Hp th Hth; destruct (Hths _ _ Hth) as [Hno Hat];
      simpl in Hno, Hat; try done; try congruence.
    all: split; [split; [done|]|split; [done|]].
    all: try (intros t' th' [[-> ->]|[_ Hth']]%qt_lookup_goto; [done|by eapply Hths]).
    all: intros t' Hw; destruct (decide (t' = t)) as [->|Hne];
      [ destruct Hw as (Hw & th' & Hth' & Hat'); rewrite Hth in Hth'; injection Hth' as <-;
        simpl in Hat';
        first [ done | split; [done|]; eexists; (split; [by eapply goto_self|done]) ]
      | apply (waiting_eq s); simpl;
        [ try done; by rewrite list_lookup_insert_ne
        | unfold goto; by rewrite list_lookup_insert_ne | done] ].
Qed.

(** The item of a producer tells the producer and the turn of its loop, up
    to 1000 items per producer; the 1001st item of a producer is the first
    of the next one. *)
Theorem items_tell_producer_and_turn :
  (forall id n, enqueued (producer_calls id n)
                = (fun k => item_of id (Z.of_nat k)) <$> seq 0 (Z.to_nat n)) /\
  (forall id1 id2 i1 i2,
     0 <= id1 <= 2147482 -> 0 <= id2 <= 2147482 -> 0 <= i1 < 1000 -> 0 <= i2 < 1000 ->
     item_of id1 i1 = id1 * 1000 + i1 /\
     (item_of id1 i1 = item_of id2 i2 -> id1 = id2 /\ i1 = i2)) /\
  (forall id, 0 <= id <= 2147481 -> item_of id 1000 = item_of (id + 1) 0).
Proof.
  assert (Hitem : forall id k, 0 <= id <= 2147482 -> 0 <= k <= 1000 ->
                    item_of id k = id * 1000 + k).
  { intros id k Hid Hk. unfold item_of, mul.
    rewrite (wrap_id (id * 1000)) by (unfold in_range, INT_MIN, INT_MAX; lia).
    apply add_small. unfold in_range, INT_MIN, INT_MAX. lia. }
  split; [apply enqueued_producer_calls|]. split.
  - intros id1 id2 i1 i2 H1 H2 Hi1 Hi2. rewrite !Hitem by lia. split; [done|]. lia.
  - intros id Hid. rewrite !Hitem by lia. lia.
Qed.

(** The consumers count what [dequeue] returned: [consumed_count] never
    exceeds the number of values returned, which never exceeds the number
    unlinked, the number linked, and [total_items]; a consumer returns only
    when all [total_items] items have been dequeued and counted. *)
Theorem consumers_count_what_was_dequeued (malloc : gmap addr Node -> option addr)
    np nc ipp tr s :
  (forall m p, malloc m = Some p -> m !! p = None) ->
  0 <= np -> 0 <= ipp -> np * ipp <= INT_MAX ->
  exec (Program.step malloc) (Program.init np nc ipp) tr s ->
  total_items s = np * ipp /\
  0 <= consumed_count s <= Z.of_nat (length (dequeued tr)) /\
  (length (dequeued tr) <= length (unlinked (queue_trace tr)))%nat /\
  (length (unlinked (queue_trace tr)) <= length (linked (queue_trace tr)))%nat /\
  Z.of_nat (length (linked (queue_trace tr))) <= np * ipp /\
  (forall t, places s !! t = Some CReturned ->
     consumed_count s = np * ipp /\ Z.of_nat (length (dequeued tr)) = np * ipp).
Proof.
  intros Hfresh Hnp Hipp Hmax Hex.
  assert (Hinv : prog_inv (np * ipp) tr s).
  { replace (np * ipp) with (Z.of_nat (Z.to_nat np) * Z.of_nat (Z.to_nat ipp)) in * by lia.
    clear Hnp Hipp.
    induction Hex as [|tr s t e s' Hex IH Hstep]; [by apply prog_inv_init|].
    by eapply prog_inv_step. }
  pose proof (total_items_exec malloc np nc ipp tr s Hex) as Htotal.
  unfold mul in Htotal. rewrite wrap_id in Htotal by (unfold in_range, INT_MIN; lia).
  destruct (counts_chain _ tr s Hinv) as (Hc0 & Hc1 & Hc2 & Hc3).
  assert (0 <= Zsum uncounted (places s)) as Hnn.
  { apply Zsum_nonneg. intros ? [] _; simpl; lia. }
  pose proof (pi_nonneg _ _ _ Hinv) as Hpos.
  split; [done|]. split; [lia|]. split; [done|]. split; [done|]. split; [done|].
  intros t Ht. pose proof (pi_exit _ _ _ Hinv t _ Ht (or_intror eq_refl)). lia.
Qed.

(** One producer of one item (thread 0) and two consumers: both consumers
    enter [dequeue]; consumer 1 gets the item, counts it and returns. *)
Lemma consumers_count_what_was_dequeued_witness :
  exists tr s,
    run (Program.step (fun m => Some (fresh (dom m))))
        (replicate 3 1 ++ replicate 3 2 ++ replicate 3 1 ++ replicate 3 2
         ++ replicate 6 0 ++ replicate 12 1)%nat
        (Program.init 1 2 1) = Some (tr, s) /\
    places s = [InProducer; CReturned; CDequeue] /\
    dequeued tr = [0] /\
    total_items s = 1 * 1 /\
    0 <= consumed_count s <= Z.of_nat (length (dequeued tr)).
Proof.
  eexists _, _. split; [vm_compute; reflexivity|].
  split; [reflexivity|]. split; [reflexivity|].
  refine (let H := consumers_count_what_was_dequeued (fun m => Some (fresh (dom m)))
                     1 2 1 _ _ _ _ _ _ _ in conj (proj1 H) (proj1 (proj2 H))).
  - intros m p [= <-]. apply not_elem_of_dom. apply is_fresh.
  - lia.
  - lia.
  - unfold INT_MAX. lia.
  - apply (run_exec _ (replicate 3 1 ++ replicate 3 2 ++ replicate 3 1 ++ replicate 3 2
                        ++ replicate 6 0 ++ replicate 12 1)%nat).
    vm_compute. reflexivity.
Defined.

(** The test of [consumed_count] and the call of [dequeue] are apart: a
    consumer can pass the test and be in [dequeue] when the last item goes
    to another consumer. Once the queue is empty and no thread has an
    [enqueue] to run, nothing is unlinked any more, and a thread that is in
    [dequeue] without an item stays there whatever runs: woken up by a
    signal, by the broadcast of [main] or spuriously, it finds the queue
    empty and waits again. *)
Theorem a_consumer_in_dequeue_can_wait_for_ever (malloc : gmap addr Node -> option addr)
    s tr s' :
  starved s ->
  exec (Program.step malloc) s tr s' ->
  starved s' /\
  unlinked (queue_trace tr) = [] /\
  forall t, waiting s t -> waiting s' t.
Proof.
  intros Hs. induction 1 as [|tr s' t e s'' Hex (IH1 & IH2 & IH3) Hstep]; [done|].
  destruct (starved_step malloc s' t e s'' IH1 Hstep) as (Hs' & He & Hw).
  split; [done|]. split; [|by auto].
  rewrite queue_trace_snoc. destruct e as [e'| | | | | |]; rewrite ?app_nil_r; try done.
  rewrite unlinked_snoc, IH2. by destruct e'.
Qed.

(** One producer of one item and two consumers, as above: consumer 1 has
    counted the item and returned, [consumed_count] is [total_items], and
    consumer 2 is in [pthread_cond_wait]; woken up, it waits again. *)
Lemma a_consumer_in_dequeue_can_wait_for_ever_witness :
  exists tr0 s tr s',
    run (Program.step (fun m => Some (fresh (dom m))))
        (replicate 3 1 ++ replicate 3 2 ++ replicate 3 1 ++ replicate 3 2
         ++ replicate 6 0 ++ replicate 12 1)%nat
        (Program.init 1 2 1) = Some (tr0, s) /\
    places s = [InProducer; CReturned; CDequeue] /\
    consumed_count s = total_items s /\
    run (Program.step (fun m => Some (fresh (dom m)))) [2; 2; 2]%nat s = Some (tr, s') /\
    tr.*2 = [EvQueue EvWake; EvQueue QueueThreads.EvLock; EvQueue EvWait] /\
    waiting s' 2.
Proof.
  eexists _, _, _, _. split; [vm_compute; reflexivity|].
  split; [reflexivity|]. split; [reflexivity|].
  match goal with
  | |- run _ _ ?s = _ /\ _ => assert (Hstarved : starved s /\ waiting s 2)
  end.
  { split.
    - split; [reflexivity|]. intros [|[|[|t]]] th; simpl; intros [= <-]; done.
    - split; [reflexivity|]. eexists. split; [reflexivity|]. done. }
  split; [vm_compute; reflexivity|]. split; [reflexivity|].
  refine (proj2 (proj2 (a_consumer_in_dequeue_can_wait_for_ever
                          (fun m => Some (fresh (dom m))) _ _ _ (proj1 Hstarved) _))
                2%nat (proj2 Hstarved)).
  apply (run_exec _ [2; 2; 2]%nat). vm_compute. reflexivity.
Defined.

(** *** One consumer *)

(** The thread runs [consumer_thread]. *)
Definition consumer (a : place) : Z :=
  match a with InProducer => 0 | _ => 1 end.

Lemma pool_length (malloc : gmap addr Node -> option addr) p t e p' :
  QueueThreads.step malloc p t = Some (e, p') -> length (threads p') = length (threads p).
Proof.
  intros H. QueueThreadsFacts.step_inv H th Hth; simpl; unfold goto; by rewrite length_insert.
Qed.

Lemma places_length (malloc : gmap addr Node -> option addr) np nc ipp tr s :
  exec (Program.step malloc) (Program.init np nc ipp) tr s ->
  length (places s) = length (threads (pool s)).
Proof.
  induction 1 as [|tr s t e s' Hex IH Hstep].
  - simpl. by rewrite length_fmap, !length_app, length_fmap, length_seq, !length_replicate.
  - prog_step_inv Hstep a Ha e0 p' Hp; simpl; rewrite ?length_insert;
      rewrite ?(pool_length _ _ _ _ _ Hp); try done.
    + destruct (threads (pool s) !! t); by rewrite ?length_insert.
    + destruct e0; by rewrite ?length_insert.
Qed.

Section OneConsumer.

Variable malloc : gmap addr Node -> option addr.
Variables num_producers items_per_producer : Z.

Abbreviation start1 := (Program.init num_producers 1 items_per_producer).

(** There is one consumer; while it is between its test of
    [consumed_count] and its return from [dequeue], the count is below
    [total_items]. *)
Definition hungry_inv (s : program) : Prop :=
  Zsum consumer (places s) = 1 /\
  forall t a, places s !! t = Some a -> a = CUnlock \/ a = CDequeue ->
    consumed_count s < total_items s.

Lemma hungry_exec tr s : exec (Program.step malloc) start1 tr s -> hungry_inv s.
Proof.
  induction 1 as [|tr s t e s' Hex [IH1 IH2] Hstep].
  - split; simpl.
    + rewrite Zsum_app, !Zsum_replicate. simpl. lia.
    + intros t a [Ha|[_ Ha]]%lookup_app_Some Hor.
      * apply lookup_replicate in Ha as [-> _]. by destruct Hor.
      * apply list_elem_of_lookup_2, list_elem_of_singleton in Ha as ->. by destruct Hor.
  - assert (Hother : forall t' a', t' <> t -> places s !! t = Some CCount ->
              places s !! t' = Some a' -> a' = CUnlock \/ a' = CDequeue -> False).
    { intros t' a' Hne Ht Ht' Hor.
      pose proof (Zsum_ge_two consumer (places s) t t' CCount a') as Hge.
      assert (consumer CCount + consumer a' <= Zsum consumer (places s)).
      { apply Hge; try done. intros []; simpl; lia. }
      destruct Hor as [-> | ->]; simpl in *; lia. }
    prog_step_inv Hstep a Ha e0 p' Hp.
    all: try (split; simpl;
      [ rewrite (Zsum_insert _ _ _ _ _ Ha); simpl; lia
      | intros t' a' [(-> & <- & _)|[Hne Hl]]%list_lookup_insert_Some Hor;
        first [ by destruct Hor | lia | by eapply IH2
              | by destruct (Hother t' a')
              | eapply IH2; [exact Ha|by left] ] ]).
    + done.
    + destruct e0; split; simpl; try done.
      * rewrite (Zsum_insert _ _ _ _ _ Ha). simpl. lia.
      * intros t' a' [(-> & <- & _)|[Hne Hl]]%list_lookup_insert_Some Hor;
          [by destruct Hor|by eapply IH2].
Qed.

End OneConsumer.

(** With a single consumer the wait in [dequeue] always ends: while the
    consumer is in [dequeue] without an item (and the process has not
    exited on a failed [malloc]), the queue holds an item or some producer
    still has one to link. *)
Theorem a_single_consumer_is_always_served (malloc : gmap addr Node -> option addr)
    np ipp tr s t :
  (forall m p, malloc m = Some p -> m !! p = None) ->
  0 <= np -> 0 <= ipp -> np * ipp <= INT_MAX ->
  exec (Program.step malloc) (Program.init np 1 ipp) tr s ->
  alive (pool s) = true -> waiting s t ->
  consumed_count s < total_items s /\
  (is_Some (head (q (pool s))) \/
   exists t' th, threads (pool s) !! t' = Some th /\ 0 < enq_left th) /\
  ~ starved s.
Proof.
  intros Hfresh Hnp Hipp Hmax Hex Halive (Hpl & th & Hth & Hat).
  assert (Hinv : prog_inv (np * ipp) tr s).
  { replace (np * ipp) with (Z.of_nat (Z.to_nat np) * Z.of_nat (Z.to_nat ipp)) in * by lia.
    clear Hnp Hipp Hpl Hth Halive.
    induction Hex as [|tr s t0 e s' Hex IH Hstep]; [by apply prog_inv_init|].
    by eapply prog_inv_step. }
  destruct (hungry_exec malloc np ipp tr s Hex) as [Hone Hhungry].
  pose proof (Hhungry t _ Hpl (or_intror eq_refl)) as Hlt.
  pose proof (total_items_exec malloc np 1 ipp tr s Hex) as Htotal.
  unfold mul in Htotal. rewrite wrap_id in Htotal by (unfold in_range, INT_MIN; lia).
  pose proof (places_length malloc np 1 ipp tr s Hex) as Hlen.
  destruct Hinv as [[Hqinv Hret _ Hall] Hplace Hcount _ _].
  assert (Hunc : Zsum uncounted (places s) = 0).
  { rewrite (Zsum_only uncounted consumer (places s) t CDequeue); try done.
    intros []; simpl; lia. }
  assert (Hunret : Zsum unreturned (threads (pool s)) = 0).
  { apply Zsum_zero. intros th' [t' Hth']%list_elem_of_lookup.
    destruct (lookup_lt_is_Some_2 (places s) t') as [a' Ha'].
    { rewrite Hlen. by eapply lookup_lt_Some. }
    destruct (Hplace _ _ Ha') as (th2 & Hth2 & Hag). rewrite Hth' in Hth2.
    injection Hth2 as <-. unfold unreturned.
    destruct a'; simpl in Hag; try (by destruct Hag as [-> _]).
    - destruct Hag as [_ Hag]. by destruct (at_ th').
    - destruct (decide (t' = t)) as [->|Hne].
      + rewrite Hth in Hth'. injection Hth' as <-. by destruct (at_ th).
      + pose proof (Zsum_ge_two consumer (places s) t' t CDequeue CDequeue) as Hge.
        assert (consumer CDequeue + consumer CDequeue <= Zsum consumer (places s)).
        { apply Hge; try done. intros []; simpl; lia. }
        simpl in *. lia. }
  destruct (inv_sequence _ _ Hqinv) as (l & _ & Hl & Hempty).
  specialize (Hall Halive). rewrite dequeued_returns in Hcount.
  assert (Hsome : is_Some (head (q (pool s))) \/
            exists t' th, threads (pool s) !! t' = Some th /\ 0 < enq_left th).
  { destruct (head (q (pool s))) as [h|] eqn:Hhead; [left; by eexists|right].
    rewrite (proj1 Hempty eq_refl), app_nil_r in Hl. rewrite Hl in Hall.
    destruct (Zsum_pos_elem enq_left (threads (pool s)))
      as (th' & [t' Hth']%list_elem_of_lookup & Hpos); [lia|].
    exists t', th'. split; [done|].
    assert (0 <= enq_left th'); [|lia].
    unfold enq_left. destruct (at_ th'); lia. }
  split; [done|]. split; [done|].
  intros [Hhead Hths]. destruct Hsome as [[h Hh]|(t' & th' & Hth' & Hpos)]; [congruence|].
  destruct (Hths _ _ Hth') as [Hno Hats]. unfold enq_left in Hpos. rewrite Hno in Hpos.
  destruct (at_ th'); simpl in *; done || lia.
Qed.

(** One producer of two items and one consumer: the consumer enters
    [dequeue] first and waits; the first item is not linked yet. *)
Lemma a_single_consumer_is_always_served_witness :
  exists tr s,
    run (Program.step (fun m => Some (fresh (dom m)))) (replicate 6 1 ++ [0; 0])%nat
        (Program.init 1 1 2) = Some (tr, s) /\
    places s = [InProducer; CDequeue] /\
    at_ <$> threads (pool s) = [ELock; DWait] /\
    head (q (pool s)) = None /\
    ~ starved s.
Proof.
  eexists _, _. split; [vm_compute; reflexivity|].
  split; [reflexivity|]. split; [reflexivity|]. split; [reflexivity|].
  refine (proj2 (proj2 (a_single_consumer_is_always_served (fun m => Some (fresh (dom m)))
                          1 2 _ _ 1%nat _ _ _ _ _ _ _))).
  - intros m p [= <-]. apply not_elem_of_dom. apply is_fresh.
  - lia.
  - lia.
  - unfold INT_MAX. lia.
  - apply (run_exec _ (replicate 6 1 ++ [0; 0])%nat). vm_compute. reflexivity.
  - reflexivity.
  - split; [reflexivity|]. eexists. split; [reflexivity|]. done.
Defined.

(** *** Nothing to produce *)

(** The thread holds [count_lock], in a run where no consumer gets past
    its first test. *)
Definition holder (a : place) : Z :=
  match a with CTest | CBreak => 1 | _ => 0 end.

(** Statements a consumer that finds nothing to consume has yet to run. *)
Definition to_run (a : place) : Z :=
  match a with CLock => 3 | CTest => 2 | CBreak => 1 | _ => 0 end.

(** With [items_per_producer = 0], [total_items] is 0: the producers return
    at once, every consumer locks [count_lock], finds [consumed_count >=
    total_items], unlocks and returns; no thread enters the queue, and the
    run ends, after three statements of each consumer, with every consumer
    returned. *)
Theorem consumers_return_when_there_is_nothing_to_produce
    (malloc : gmap addr Node -> option addr) np nc tr s :
  exec (Program.step malloc) (Program.init np nc 0) tr s ->
  Forall (fun te => match te.2 with
                    | EvLockCount | EvEnough | EvUnlockCount => True
                    | _ => False
                    end) tr /\
  consumed_count s = 0 /\ total_items s = 0 /\
  Z.of_nat (length tr) + Zsum to_run (places s) = 3 * Z.of_nat (Z.to_nat nc) /\
  (stuck (Program.step malloc) s ->
   forall t a, places s !! t = Some a -> a = InProducer \/ a = CReturned).
Proof.
  intros Hex.
  assert (Hinv :
    Forall (fun te => match te.2 with
                      | EvLockCount | EvEnough | EvUnlockCount => True
                      | _ => False
                      end) tr /\
    consumed_count s = 0 /\ total_items s = 0 /\
    Z.of_nat (length tr) + Zsum to_run (places s) = 3 * Z.of_nat (Z.to_nat nc) /\
    (forall t a, places s !! t = Some a ->
       match a with InProducer | CLock | CTest | CBreak | CReturned => True | _ => False end) /\
    (forall t th, threads (pool s) !! t = Some th -> at_ th = Idle /\ todo th = []) /\
    Zsum holder (places s) = (if count_lock s then 1 else 0) /\
    alive (pool s) = true).
  { induction Hex as [|tr s t e s' Hex (IH1 & IH2 & IH3 & IH4 & IH5 & IH6 & IH7 & IH8) Hstep].
    - split; [constructor|]. split; [done|]. split.
      { simpl. unfold mul. by rewrite Z.mul_0_r. }
      split; [|split; [|split; [|split]]]; simpl.
      + rewrite Zsum_app, !Zsum_replicate. simpl. lia.
      + intros t a [Ha|[_ Ha]]%lookup_app_Some; by apply lookup_replicate in Ha as [-> _].
      + intros t th (cs & -> & Hcs)%list_lookup_fmap_Some. split; [done|]. simpl.
        apply lookup_app_Some in Hcs as [Hcs|[_ Hcs]].
        * by apply list_lookup_fmap_Some in Hcs as (id & -> & _).
        * by apply lookup_replicate in Hcs as [-> _].
      + rewrite Zsum_app, !Zsum_replicate. simpl. lia.
      + done.
    - rewrite Forall_app, Forall_singleton, length_app. simpl.
      prog_step_inv Hstep a Ha e0 p' Hp; pose proof (IH5 _ _ Ha) as Hpl; simpl in Hpl;
        try done; try lia.
      { unfold QueueThreads.step in Hp. rewrite Halive in Hp.
        destruct (threads (pool s) !! t) as [th|] eqn:Hth; [|done].
        destruct (IH6 _ _ Hth) as [Hat Htodo]. simpl in Hp. by rewrite Hat, Htodo in Hp. }
      all: split; [done|]; split; [done|]; split; [done|]; simpl.
      all: split; [rewrite (Zsum_insert _ _ _ _ _ Ha); simpl; lia|].
      all: split;
        [intros t' a' [(-> & <- & _)|[_ Hl]]%list_lookup_insert_Some; [done|by eapply IH5]|].
      all: split; [done|].
      all: split; [rewrite (Zsum_insert _ _ _ _ _ Ha); simpl; rewrite ?Hcount_lock in IH7; lia
                  |done]. }
  destruct Hinv as (H1 & H2 & H3 & H4 & H5 & H6 & H7 & H8).
  split; [done|]. split; [done|]. split; [done|]. split; [done|].
  intros Hstuck t a Ha. pose proof (Hstuck t) as Ht.
  pose proof (H5 _ _ Ha) as Hpl. unfold Program.step in Ht. rewrite H8, Ha in Ht.
  destruct a; simpl in *; try done; auto.
  - destruct (count_lock s) eqn:Hlock; [|done].
    destruct (Zsum_pos_elem holder (places s)) as (a' & [t' Ha']%list_elem_of_lookup & Hh);
      [lia|].
    pose proof (Hstuck t') as Ht'. unfold Program.step in Ht'. rewrite H8, Ha' in Ht'.
    destruct a'; simpl in *; try done.
    + by destruct (total_items s <=? consumed_count s).
    + by rewrite Hlock in Ht'.
  - by destruct (total_items s <=? consumed_count s).
  - destruct (count_lock s) eqn:Hlock; [done|].
    pose proof (Zsum_ge_term holder (places s) t CBreak) as Hge. simpl in Hge.
    assert (1 <= Zsum holder (places s)); [|lia].
    apply Hge; [|done]. intros []; simpl; lia.
Qed.

(** Two producers of nothing and two consumers: six statements, and both
    consumers have returned. *)
Lemma consumers_return_when_there_is_nothing_to_produce_witness :
  exists tr s,
    run (Program.step (fun m => Some (fresh (dom m)))) [2; 2; 2; 3; 3; 3]%nat
        (Program.init 2 2 0) = Some (tr, s) /\
    places s = [InProducer; InProducer; CReturned; CReturned] /\
    Z.of_nat (length tr) + Zsum to_run (places s) = 3 * Z.of_nat (Z.to_nat 2).
Proof.
  eexists _, _. split; [vm_compute; reflexivity|]. split; [reflexivity|].
  refine (proj1 (proj2 (proj2 (proj2
    (consumers_return_when_there_is_nothing_to_produce (fun m => Some (fresh (dom m)))
       2 2 _ _ _))))).
  apply (run_exec _ [2; 2; 2; 3; 3; 3]%nat). vm_compute. reflexivity.
Defined.

End ProgramFacts.
